(** * Approvers repeater: the row state engine of [approvers-repeater.ts]

    A shallow embedding of the [ApproversRepeater] custom element:
    the ordered row collection, the three position-keyed transient maps,
    the persistence pipeline, the debounced per-row directory search and
    the MSAL-backed token acquisition.

    Conventions.
    - A JavaScript string is a sequence of UTF-16 code units; the model
      uses [string] and reads every [ascii] as one code unit (so it covers
      the code units below 256), which makes [String.length] the
      [.length] of the source.
    - The numbers set by the designer ([minRows], [maxRows], [minChars],
      [maxSuggestions]) and the [order] of a row are natural numbers.
    - [Record<number, T>] objects are [gmap nat T].  A key whose value is
      [undefined] reads like an absent key everywhere in the source, and
      is modelled as absent.
    - Synchronous methods are functions on the component state [Comp];
      [async] methods are terms of the monad [task].  A task is suspended
      only at the calls that leave the component (MSAL and [fetch]); an
      [await] on an [async] method of the component itself continues in
      the same turn.
    - Rendering is not modelled (its call of [ensureMinRows] on an empty
      editable collection is one more save); [console] output is dropped. *)

From Stdlib Require Import String Ascii DecimalString.
From stdpp Require Import gmap strings list fin_maps.

Local Open Scope string_scope.
Local Open Scope list_scope.
Local Open Scope nat_scope.

(** ** Strings as the built-ins of the source see them *)

Module Js.

(** Truthiness of a string: only the empty string is falsy. *)
Definition truthy (s : string) : bool :=
  match s with EmptyString => false | String _ _ => true end.

(** [a || b] on strings. *)
Definition or_else (a b : string) : string := if truthy a then a else b.

(** [a || b] where [a] may be [undefined]. *)
Definition opt_or_else (a : option string) (b : string) : string :=
  match a with Some s => or_else s b | None => b end.

(** [a || b] where both may be [undefined] and the result too. *)
Definition opt_or (a b : option string) : option string :=
  match a with
  | Some s => if truthy s then Some s else b
  | None => b
  end.

Definition of_nat (n : nat) : string := NilZero.string_of_uint (Nat.to_uint n).

Definition chr (n : nat) : ascii := ascii_of_nat n.
Definition quote : ascii := chr 34.
Definition backslash : ascii := chr 92.
Definition newline : ascii := chr 10.

Definition str (a : ascii) : string := String a EmptyString.

Definition hex_lower (n : nat) : ascii :=
  nth n (list_ascii_of_string "0123456789abcdef") "0"%char.
Definition hex_upper (n : nat) : ascii :=
  nth n (list_ascii_of_string "0123456789ABCDEF") "0"%char.

(** One code unit inside a JSON string literal ([QuoteJSONString]). *)
Definition json_char (a : ascii) : string :=
  let n := nat_of_ascii a in
  if (n =? 34)%nat then String backslash (str quote)
  else if (n =? 92)%nat then String backslash (str backslash)
  else if (n =? 8)%nat then String backslash "b"
  else if (n =? 9)%nat then String backslash "t"
  else if (n =? 10)%nat then String backslash "n"
  else if (n =? 12)%nat then String backslash "f"
  else if (n =? 13)%nat then String backslash "r"
  else if (n <? 32)%nat then
    String backslash ("u00" +:+ String (hex_lower (n / 16)) (str (hex_lower (n mod 16))))
  else str a.

Fixpoint json_chars (s : string) : string :=
  match s with
  | EmptyString => EmptyString
  | String a rest => json_char a +:+ json_chars rest
  end.

Definition json_string (s : string) : string :=
  String quote (json_chars s +:+ str quote).

(** [encodeURIComponent]: unreserved characters stay, every other code
    unit is written as the percent-escapes of its UTF-8 bytes. *)
Definition unreserved (n : nat) : bool :=
  (((65 <=? n) && (n <=? 90)) || ((97 <=? n) && (n <=? 122))
   || ((48 <=? n) && (n <=? 57))
   || existsb (Nat.eqb n) [45; 95; 46; 33; 126; 42; 39; 40; 41])%nat.

Definition percent (n : nat) : string :=
  String "%"%char (String (hex_upper (n / 16)) (str (hex_upper (n mod 16)))).

Definition uri_char (a : ascii) : string :=
  let n := nat_of_ascii a in
  if unreserved n then str a
  else if (n <? 128)%nat then percent n
  else percent (192 + n / 64) +:+ percent (128 + n mod 64).

Fixpoint encodeURIComponent (s : string) : string :=
  match s with
  | EmptyString => EmptyString
  | String a rest => uri_char a +:+ encodeURIComponent rest
  end.

(** [s.split(',')] *)
Fixpoint split_comma (cur : string) (s : string) : list string :=
  match s with
  | EmptyString => [cur]
  | String a rest =>
      if Ascii.eqb a ","%char then cur :: split_comma EmptyString rest
      else split_comma (cur +:+ str a) rest
  end.

Definition is_space (a : ascii) : bool :=
  let n := nat_of_ascii a in
  (((9 <=? n) && (n <=? 13)) || (n =? 32) || (n =? 160))%nat.

Fixpoint trim_start (s : string) : string :=
  match s with
  | EmptyString => EmptyString
  | String a rest => if is_space a then trim_start rest else s
  end.

Fixpoint trim_end (s : string) : string :=
  match s with
  | EmptyString => EmptyString
  | String a rest =>
      match trim_end rest with
      | EmptyString => if is_space a then EmptyString else str a
      | r => String a r
      end
  end.

Definition trim (s : string) : string := trim_end (trim_start s).

End Js.

(** ** Data model *)

(** [{ order: number; approver: string }], an element of [this.rows]. *)
Record Row := mkRow { order : nat; approver : string }.

(** [Person]; the fields carry a [p_] prefix because [id] and
    [displayName] also name the fields of [GraphUser]. *)
Record Person := mkPerson {
  p_id : string;
  p_displayName : string;
  p_email : option string;
  p_login : string
}.

Record GraphUser := mkGraphUser {
  u_id : string;
  u_displayName : string;
  u_userPrincipalName : option string;
  u_mail : option string
}.

Record AccountInfo := mkAccount { homeAccountId : string }.

Inductive Endpoint := MePeople | Users.

(** The designer-set properties of the element (all but [value]). *)
Record Config := mkConfig {
  minRows : nat;
  maxRows : nat;
  clientId : string;
  tenantId : string;
  redirectOrigin : string;
  graphEndpoint : Endpoint;
  scopesCsv : string;
  maxSuggestions : nat;
  minChars : nat;
  jsonTargetId : string;
  forceEditable : bool
}.

(** What the surrounding page offers to [saveValue] and to MSAL. *)
Record Host := mkHost {
  sinkPresent : bool;     (* [targetDocument.getElementById(jsonTargetId)] finds the textbox *)
  controlUtils : bool;    (* [Nintex.FormFiller.extensibility.controlUtils.updateControlValue] exists *)
  storedActive : option AccountInfo;  (* active account in the session cache *)
  storedAccounts : list AccountInfo   (* accounts in the session cache *)
}.

(** The part of [PublicClientApplication] the component talks to
    synchronously: [getActiveAccount], [getAllAccounts], [setActiveAccount]. *)
Record Msal := mkMsal {
  activeAccount : option AccountInfo;
  allAccounts : list AccountInfo
}.

(** What the component makes visible outside itself. *)
Inductive Effect :=
| Dispatch (type : string) (detail : string)
    (* [this.dispatchEvent(new CustomEvent(type, { detail }))] *)
| SinkWrite (target : string) (text : string)
    (* [target.value = jsonValue] on the mirror textbox *)
| SinkNotifyLater (target : string)
    (* [setTimeout(() => { focus; input; change; ntx-value-change; nf-value-changed; blur }, 100)] *)
| ControlUpdate (target : string) (text : string).
    (* [controlUtils.updateControlValue(jsonTargetId, jsonValue)] *)

(** The element: its properties, its private fields, and the pieces of the
    page its handlers read and write ([dom], [timers], [emitted]). *)
Record Comp := mkComp {
  props : Config;
  host : Host;
  value : string;
  rows : list Row;
  activeRowIndex : option nat;
  terms : gmap nat string;
  selections : gmap nat (option Person);
  suggestions : gmap nat (list Person);
  loading : bool;
  errorMsg : string;
  displayMode : bool;
  renderTick : nat;
  msal : option Msal;
  account : option AccountInfo;
  debounceTimer : option nat;
  dom : gmap nat string;           (* [.value] of the input element of each row position *)
  timers : list (nat * nat);       (* pending [setTimeout(…, 200)] handles with the row they captured *)
  nextTimer : nat;                 (* next handle [setTimeout] returns *)
  emitted : list Effect            (* oldest first *)
}.

Definition set_value (v : string) (c : Comp) : Comp :=
  mkComp (props c) (host c) v (rows c) (activeRowIndex c) (terms c) (selections c)
    (suggestions c) (loading c) (errorMsg c) (displayMode c) (renderTick c) (msal c)
    (account c) (debounceTimer c) (dom c) (timers c) (nextTimer c) (emitted c).

Definition set_rows (v : list Row) (c : Comp) : Comp :=
  mkComp (props c) (host c) (value c) v (activeRowIndex c) (terms c) (selections c)
    (suggestions c) (loading c) (errorMsg c) (displayMode c) (renderTick c) (msal c)
    (account c) (debounceTimer c) (dom c) (timers c) (nextTimer c) (emitted c).

Definition set_activeRowIndex (v : option nat) (c : Comp) : Comp :=
  mkComp (props c) (host c) (value c) (rows c) v (terms c) (selections c)
    (suggestions c) (loading c) (errorMsg c) (displayMode c) (renderTick c) (msal c)
    (account c) (debounceTimer c) (dom c) (timers c) (nextTimer c) (emitted c).

Definition set_terms (v : gmap nat string) (c : Comp) : Comp :=
  mkComp (props c) (host c) (value c) (rows c) (activeRowIndex c) v (selections c)
    (suggestions c) (loading c) (errorMsg c) (displayMode c) (renderTick c) (msal c)
    (account c) (debounceTimer c) (dom c) (timers c) (nextTimer c) (emitted c).

Definition set_selections (v : gmap nat (option Person)) (c : Comp) : Comp :=
  mkComp (props c) (host c) (value c) (rows c) (activeRowIndex c) (terms c) v
    (suggestions c) (loading c) (errorMsg c) (displayMode c) (renderTick c) (msal c)
    (account c) (debounceTimer c) (dom c) (timers c) (nextTimer c) (emitted c).

Definition set_suggestions (v : gmap nat (list Person)) (c : Comp) : Comp :=
  mkComp (props c) (host c) (value c) (rows c) (activeRowIndex c) (terms c) (selections c)
    v (loading c) (errorMsg c) (displayMode c) (renderTick c) (msal c)
    (account c) (debounceTimer c) (dom c) (timers c) (nextTimer c) (emitted c).

Definition set_loading (v : bool) (c : Comp) : Comp :=
  mkComp (props c) (host c) (value c) (rows c) (activeRowIndex c) (terms c) (selections c)
    (suggestions c) v (errorMsg c) (displayMode c) (renderTick c) (msal c)
    (account c) (debounceTimer c) (dom c) (timers c) (nextTimer c) (emitted c).

Definition set_errorMsg (v : string) (c : Comp) : Comp :=
  mkComp (props c) (host c) (value c) (rows c) (activeRowIndex c) (terms c) (selections c)
    (suggestions c) (loading c) v (displayMode c) (renderTick c) (msal c)
    (account c) (debounceTimer c) (dom c) (timers c) (nextTimer c) (emitted c).

Definition set_displayMode (v : bool) (c : Comp) : Comp :=
  mkComp (props c) (host c) (value c) (rows c) (activeRowIndex c) (terms c) (selections c)
    (suggestions c) (loading c) (errorMsg c) v (renderTick c) (msal c)
    (account c) (debounceTimer c) (dom c) (timers c) (nextTimer c) (emitted c).

Definition set_renderTick (v : nat) (c : Comp) : Comp :=
  mkComp (props c) (host c) (value c) (rows c) (activeRowIndex c) (terms c) (selections c)
    (suggestions c) (loading c) (errorMsg c) (displayMode c) v (msal c)
    (account c) (debounceTimer c) (dom c) (timers c) (nextTimer c) (emitted c).

Definition set_msal (v : option Msal) (c : Comp) : Comp :=
  mkComp (props c) (host c) (value c) (rows c) (activeRowIndex c) (terms c) (selections c)
    (suggestions c) (loading c) (errorMsg c) (displayMode c) (renderTick c) v
    (account c) (debounceTimer c) (dom c) (timers c) (nextTimer c) (emitted c).

Definition set_account (v : option AccountInfo) (c : Comp) : Comp :=
  mkComp (props c) (host c) (value c) (rows c) (activeRowIndex c) (terms c) (selections c)
    (suggestions c) (loading c) (errorMsg c) (displayMode c) (renderTick c) (msal c)
    v (debounceTimer c) (dom c) (timers c) (nextTimer c) (emitted c).

Definition set_debounceTimer (v : option nat) (c : Comp) : Comp :=
  mkComp (props c) (host c) (value c) (rows c) (activeRowIndex c) (terms c) (selections c)
    (suggestions c) (loading c) (errorMsg c) (displayMode c) (renderTick c) (msal c)
    (account c) v (dom c) (timers c) (nextTimer c) (emitted c).

Definition set_dom (v : gmap nat string) (c : Comp) : Comp :=
  mkComp (props c) (host c) (value c) (rows c) (activeRowIndex c) (terms c) (selections c)
    (suggestions c) (loading c) (errorMsg c) (displayMode c) (renderTick c) (msal c)
    (account c) (debounceTimer c) v (timers c) (nextTimer c) (emitted c).

Definition set_timers (v : list (nat * nat)) (c : Comp) : Comp :=
  mkComp (props c) (host c) (value c) (rows c) (activeRowIndex c) (terms c) (selections c)
    (suggestions c) (loading c) (errorMsg c) (displayMode c) (renderTick c) (msal c)
    (account c) (debounceTimer c) (dom c) v (nextTimer c) (emitted c).

Definition set_nextTimer (v : nat) (c : Comp) : Comp :=
  mkComp (props c) (host c) (value c) (rows c) (activeRowIndex c) (terms c) (selections c)
    (suggestions c) (loading c) (errorMsg c) (displayMode c) (renderTick c) (msal c)
    (account c) (debounceTimer c) (dom c) (timers c) v (emitted c).

Definition emit (es : list Effect) (c : Comp) : Comp :=
  mkComp (props c) (host c) (value c) (rows c) (activeRowIndex c) (terms c) (selections c)
    (suggestions c) (loading c) (errorMsg c) (displayMode c) (renderTick c) (msal c)
    (account c) (debounceTimer c) (dom c) (timers c) (nextTimer c) (emitted c ++ es).

(** The element as constructed: the field initialisers of the class, with
    the properties and the bound [value] the form supplies. *)
Definition initial (p : Config) (h : Host) (v : string) : Comp :=
  mkComp p h v [] None ∅ ∅ ∅ false EmptyString true 0 None None None ∅ [] 1 [].

(** ** Persistence: [JSON.stringify], [saveValue] *)

(** [JSON.stringify(row)] in property order [order], [approver]. *)
Definition stringify_row (r : Row) : string :=
  "{" +:+ Js.json_string "order" +:+ ":" +:+ Js.of_nat (order r) +:+ ","
  +:+ Js.json_string "approver" +:+ ":" +:+ Js.json_string (approver r) +:+ "}".

Fixpoint join (sep : string) (l : list string) : string :=
  match l with
  | [] => EmptyString
  | [s] => s
  | s :: rest => s +:+ sep +:+ join sep rest
  end.

(** [JSON.stringify(this.rows)] *)
Definition stringify (rs : list Row) : string :=
  "[" +:+ join "," (map stringify_row rs) +:+ "]".

Definition nl : string := Js.str Js.newline.

Definition stringify_row_pretty (r : Row) : string :=
  "  {" +:+ nl
  +:+ "    " +:+ Js.json_string "order" +:+ ": " +:+ Js.of_nat (order r) +:+ "," +:+ nl
  +:+ "    " +:+ Js.json_string "approver" +:+ ": " +:+ Js.json_string (approver r) +:+ nl
  +:+ "  }".

(** [JSON.stringify(this.rows, null, 2)] *)
Definition stringify_pretty (rs : list Row) : string :=
  match rs with
  | [] => "[]"
  | _ => "[" +:+ nl +:+ join ("," +:+ nl) (map stringify_row_pretty rs) +:+ nl +:+ "]"
  end.

(** The mirror-sink block of [saveValue] ([if (this.jsonTargetId) { … }]). *)
Definition mirror (jsonValue : string) (c : Comp) : Comp :=
  let target := jsonTargetId (props c) in
  if Js.truthy target then
    let c1 :=
      if sinkPresent (host c)
      then emit [SinkWrite target jsonValue; SinkNotifyLater target] c
      else c in
    if controlUtils (host c) then emit [ControlUpdate target jsonValue] c1 else c1
  else c.

Definition saveValue (c : Comp) : Comp :=
  if displayMode c then c
  else
    let newValue := stringify (rows c) in
    let jsonValue := stringify_pretty (rows c) in
    let c1 :=
      if String.eqb (value c) newValue then c
      else emit [Dispatch "ntx-value-change" newValue; Dispatch "change" newValue]
             (set_value newValue c) in
    mirror jsonValue c1.

(** ** The row collection *)

(** [this.rows.forEach((r, i) => r.order = i + 1)] *)
Definition renumber (rs : list Row) : list Row :=
  imap (fun i r => mkRow (i + 1) (approver r)) rs.

Definition renumberOrders (c : Comp) : Comp := set_rows (renumber (rows c)) c.

(** [while (rows.length < minRows) rows.push({ order: rows.length + 1, approver: '' })],
    by recursion on the number of rows still missing. *)
Fixpoint pushEmpty (missing : nat) (rs : list Row) : list Row :=
  match missing with
  | 0 => rs
  | S k => pushEmpty k (rs ++ [mkRow (length rs + 1) EmptyString])
  end.

Definition ensureMinRows (c : Comp) : Comp :=
  if displayMode c then c
  else saveValue (set_rows (pushEmpty (minRows (props c) - length (rows c)) (rows c)) c).

Definition addRow (c : Comp) : Comp :=
  if displayMode c then c
  else if (maxRows (props c) <=? length (rows c))%nat then c
  else
    let c1 := set_rows (rows c ++ [mkRow (length (rows c) + 1) EmptyString]) c in
    saveValue (set_renderTick (renderTick c1 + 1) c1).

(** Position read by the remap of [removeRow]: [i >= index ? i + 1 : i]. *)
Definition shifted (index i : nat) : nat := if (index <=? i)%nat then i + 1 else i.

(** The object built by the [forEach] of [removeRow]: one key per remaining row. *)
Definition rebuild {V} (n : nat) (f : nat -> V) : gmap nat V :=
  foldr (fun i m => <[i := f i]> m) ∅ (seq 0 n).

Definition removeRow (index : nat) (c : Comp) : Comp :=
  if displayMode c then c
  else
    let rs := delete index (rows c) in
    let n := length rs in
    let newTerms := rebuild n (fun i => default EmptyString (terms c !! shifted index i)) in
    let newSelections := rebuild n (fun i => default None (selections c !! shifted index i)) in
    let newSuggestions := rebuild n (fun i => default [] (suggestions c !! shifted index i)) in
    let c1 := set_rows rs c in
    let c2 := set_suggestions newSuggestions (set_selections newSelections (set_terms newTerms c1)) in
    let c3 := renumberOrders c2 in
    let c4 := set_renderTick (renderTick c3 + 1) c3 in
    ensureMinRows (saveValue c4).

(** [m[k] = v] where [v] may be [undefined]. *)
Definition assign {V} (k : nat) (v : option V) (m : gmap nat V) : gmap nat V :=
  match v with Some x => <[k := x]> m | None => delete k m end.

(** [[m[i], m[j]] = [m[j], m[i]]] *)
Definition swap_keys {V} (i j : nat) (m : gmap nat V) : gmap nat V :=
  assign j (m !! i) (assign i (m !! j) m).

(** The four destructuring swaps shared by [moveUp] and [moveDown], for two
    positions that both hold a row. *)
Definition swap_rows (i j : nat) (c : Comp) : option Comp :=
  match rows c !! i, rows c !! j with
  | Some a, Some b =>
      let c1 := set_rows (<[j := a]> (<[i := b]> (rows c))) c in
      Some (set_suggestions (swap_keys i j (suggestions c))
             (set_selections (swap_keys i j (selections c))
               (set_terms (swap_keys i j (terms c)) c1)))
  | _, _ => None
  end.

Definition after_move (c : Comp) : Comp :=
  let c1 := renumberOrders c in
  saveValue (set_renderTick (renderTick c1 + 1) c1).

(** [None] is the [TypeError] that [renumberOrders] raises on the
    [undefined] entry the swap writes when [index] is past the last row. *)
Definition moveUp (index : nat) (c : Comp) : option Comp :=
  if displayMode c then Some c
  else if (index =? 0)%nat then Some c
  else after_move <$> swap_rows (index - 1) index c.

Definition moveDown (index : nat) (c : Comp) : option Comp :=
  if displayMode c then Some c
  else if (length (rows c) <=? index + 1)%nat then Some c
  else after_move <$> swap_rows (index + 1) index c.

(** [this.rows[index].approver = v]; [None] is the [TypeError] on a missing row. *)
Definition set_approver (index : nat) (v : string) (rs : list Row) : option (list Row) :=
  match rs !! index with
  | Some r => Some (<[index := mkRow (order r) v]> rs)
  | None => None
  end.

Definition onPick (index : nat) (p : Person) (c : Comp) : option Comp :=
  if displayMode c then Some c
  else
    let c1 := set_terms (<[index := p_displayName p]> (terms c))
                (set_selections (<[index := Some p]> (selections c)) c) in
    rs ← set_approver index (p_login p) (rows c1);
    let c2 := saveValue (set_rows rs c1) in
    Some (set_activeRowIndex None (set_suggestions (delete index (suggestions c2)) c2)).

Definition clearRow (index : nat) (c : Comp) : option Comp :=
  if displayMode c then Some c
  else
    let c1 := set_terms (<[index := EmptyString]> (terms c))
                (set_selections (<[index := None]> (selections c)) c) in
    rs ← set_approver index EmptyString (rows c1);
    Some (saveValue (set_rows rs c1)).

(** ** The per-row picker: [onRowInput] *)

(** [this.minChars || 2] *)
Definition threshold (c : Comp) : nat :=
  match minChars (props c) with 0 => 2 | n => n end.

(** [if (this.debounceTimer) clearTimeout(this.debounceTimer)]: handles
    start at 1, so a stored handle is truthy; clearing one that has fired
    removes nothing. *)
Definition clearDebounce (c : Comp) : Comp :=
  match debounceTimer c with
  | Some h => set_timers (filter (fun t => t.1 ≠ h) (timers c)) c
  | None => c
  end.

(** [this.debounceTimer = setTimeout(callback, 200)], the callback closing
    over [index] and the input element of that row. *)
Definition scheduleSearch (index : nat) (c : Comp) : Comp :=
  let h := nextTimer c in
  set_debounceTimer (Some h)
    (set_nextTimer (S h) (set_timers (timers c ++ [(h, index)]) c)).

(** [onRowInput(index, e)] with [e.target.value = v]. *)
Definition onRowInput (index : nat) (v : string) (c : Comp) : Comp :=
  if displayMode c then c
  else
    let c1 := set_errorMsg EmptyString
                (set_activeRowIndex (Some index)
                  (set_terms (<[index := v]> (terms c)) c)) in
    let c2 := clearDebounce c1 in
    if (String.length v <? threshold c2)%nat
    then set_suggestions (delete index (suggestions c2)) c2
    else scheduleSearch index c2.

(** ** Asynchronous methods *)

(** How a promise settles; [reason] is the [message] of the error. *)
Inductive outcome (A : Type) : Type :=
| Fulfilled (a : A)
| Rejected (reason : string).
Arguments Fulfilled {A} a.
Arguments Rejected {A} reason.

(** A [fetch] response: what the source reads before [res.json()], and the
    request it answers ([res.url]), which decides what [res.json()] gives. *)
Record Response := mkResponse {
  ok : bool;
  status : nat;
  statusText : string;
  url : string
}.

(** The awaited calls that leave the component. *)
Inductive call : Type :=
| MsalInitialize                                   (* [this.msal.initialize()] *)
| MsalHandleRedirect                               (* [this.msal.handleRedirectPromise()] *)
| LoginPopup (scopes : list string)                (* [this.msal.loginPopup({ scopes })] *)
| AcquireTokenSilent (scopes : list string) (acct : option AccountInfo)
| AcquireTokenPopup (scopes : list string) (acct : option AccountInfo)
| Fetch (url : string) (headers : list (string * string))
| JsonUser (res : Response)                        (* [res.json() as GraphUser] *)
| JsonList (res : Response).                       (* [res.json() as { value: GraphUser[] }] *)

(** What each call resolves to ([res.account], [.accessToken], …). *)
Definition answer (c : call) : Type :=
  match c with
  | MsalInitialize | MsalHandleRedirect => unit
  | LoginPopup _ => AccountInfo
  | AcquireTokenSilent _ _ | AcquireTokenPopup _ _ => string
  | Fetch _ _ => Response
  | JsonUser _ => GraphUser
  | JsonList _ => option (list GraphUser)
  end.

(** An [async] method: it reads and updates the component between two
    suspension points, and is suspended only by [Await].  An [await] on an
    [async] method of the component itself is [bind]. *)
Inductive task (A : Type) : Type :=
| Ret (a : A)
| Throw (reason : string)
| Get (k : Comp -> task A)
| Upd (f : Comp -> Comp) (k : task A)
| Await (c : call) (k : outcome (answer c) -> task A).
Arguments Ret {A} a.
Arguments Throw {A} reason.
Arguments Get {A} k.
Arguments Upd {A} f k.
Arguments Await {A} c k.

Fixpoint bind {A B} (t : task A) (f : A -> task B) : task B :=
  match t with
  | Ret a => f a
  | Throw e => Throw e
  | Get k => Get (fun c => bind (k c) f)
  | Upd g k => Upd g (bind k f)
  | Await c k => Await c (fun r => bind (k r) f)
  end.

(** [try { t } catch (err) { h err.message }] *)
Fixpoint try_catch {A} (t : task A) (h : string -> task A) : task A :=
  match t with
  | Ret a => Ret a
  | Throw e => h e
  | Get k => Get (fun c => try_catch (k c) h)
  | Upd g k => Upd g (try_catch k h)
  | Await c k => Await c (fun r => try_catch (k r) h)
  end.

(** [try { t } finally { f }] for a synchronous [f] that does not throw. *)
Fixpoint finally {A} (t : task A) (f : Comp -> Comp) : task A :=
  match t with
  | Ret a => Upd f (Ret a)
  | Throw e => Upd f (Throw e)
  | Get k => Get (fun c => finally (k c) f)
  | Upd g k => Upd g (finally k f)
  | Await c k => Await c (fun r => finally (k r) f)
  end.

(** [await p] where a rejection propagates. *)
Definition await (c : call) : task (answer c) :=
  Await c (fun r => match r with Fulfilled a => Ret a | Rejected e => Throw e end).

(** *** MSAL helpers *)

(** [this.scopesCsv.split(',').map(s => s.trim()).filter(Boolean)] *)
Definition scopes (c : Comp) : list string :=
  List.filter Js.truthy (map Js.trim (Js.split_comma EmptyString (scopesCsv (props c)))).

Definition ensureMsal : task unit :=
  Get (fun c =>
    match msal c with
    | Some _ => Ret tt
    | None =>
        if Js.truthy (clientId (props c)) then
          Upd (fun c => set_msal (Some (mkMsal (storedActive (host c)) (storedAccounts (host c)))) c)
            (Await MsalInitialize (fun _ =>           (* [.catch] swallows a rejection *)
               Await MsalHandleRedirect (fun _ =>     (* [try … catch] swallows a rejection *)
                 Ret tt)))
        else Throw "Client ID is required."
    end).

(** [this.msal!.getActiveAccount() || this.msal!.getAllAccounts()[0]] *)
Definition knownAccount (m : Msal) : option AccountInfo :=
  match activeAccount m with
  | Some a => Some a
  | None => head (allAccounts m)
  end.

Definition ensureAccount (sc : list string) : task unit :=
  bind ensureMsal (fun _ =>
    Get (fun c =>
      match msal c with
      | None => Throw "TypeError"
      | Some m =>
          Upd (set_account (knownAccount m))
            (match knownAccount m with
             | Some _ => Ret tt
             | None =>
                 bind (await (LoginPopup sc)) (fun a =>
                   Upd (fun c => set_msal (option_map (fun m => mkMsal (Some a) (allAccounts m)) (msal c))
                                   (set_account (Some a) c))
                     (Ret tt))
             end)
      end)).

Definition getAccessToken (sc : list string) : task string :=
  bind (ensureAccount sc) (fun _ =>
    try_catch
      (Get (fun c => await (AcquireTokenSilent sc (account c))))
      (fun _ => Get (fun c => await (AcquireTokenPopup sc (account c))))).

(** *** Directory access *)

Definition person_of (u : GraphUser) : Person :=
  mkPerson (u_id u) (u_displayName u)
    (Js.opt_or (u_mail u) (u_userPrincipalName u))
    (Js.opt_or_else (Js.opt_or (u_userPrincipalName u) (u_mail u)) (u_id u)).

Definition bearer (token : string) : string * string := ("Authorization", "Bearer " +:+ token).

Definition userUrl (email : string) : string :=
  "https://graph.microsoft.com/v1.0/users/" +:+ Js.encodeURIComponent email.

Definition fetchUserDetails (email : string) : task Person :=
  Get (fun c0 =>
    bind (getAccessToken (scopes c0)) (fun token =>
      bind (await (Fetch (userUrl email) [bearer token])) (fun res =>
        if ok res then
          bind (await (JsonUser res)) (fun user => Ret (person_of user))
        else
          Throw ("Graph user lookup failed: " +:+ Js.of_nat (status res) +:+ " " +:+ statusText res)))).

(** [Math.max(1, Math.min(this.maxSuggestions || 8, 25))] *)
Definition top (c : Comp) : nat :=
  Nat.max 1 (Nat.min (match maxSuggestions (props c) with 0 => 8 | n => n end) 25).

Definition usersUrl (term : string) (n : nat) : string :=
  "https://graph.microsoft.com/v1.0/users?$search=" +:+ Js.str Js.quote
  +:+ "displayName:" +:+ Js.encodeURIComponent term +:+ Js.str Js.quote
  +:+ "&$filter=endsWith(mail,'FILTER EMAIL SEARCH RESULTS.com')&$orderBy=displayName&$top="
  +:+ Js.of_nat n.

Definition peopleUrl (term : string) (n : nat) : string :=
  "https://graph.microsoft.com/v1.0/me/people?$search=" +:+ Js.str Js.quote
  +:+ Js.encodeURIComponent term +:+ Js.str Js.quote +:+ "&$top=" +:+ Js.of_nat n.

Definition searchUrl (c : Comp) (term : string) : string :=
  match graphEndpoint (props c) with
  | Users => usersUrl term (top c)
  | MePeople => peopleUrl term (top c)
  end.

Definition searchFailure (c : Comp) (res : Response) : string :=
  match graphEndpoint (props c) with
  | Users => "Graph /users search failed: "
  | MePeople => "Graph /me/people search failed: "
  end +:+ Js.of_nat (status res) +:+ " " +:+ statusText res.

Definition graphSearch (term : string) : task (list Person) :=
  Get (fun c0 =>
    if displayMode c0 then Ret []
    else
      bind (getAccessToken (scopes c0)) (fun token =>
        Get (fun c =>
          bind (await (Fetch (searchUrl c term) [bearer token; ("ConsistencyLevel", "eventual")]))
            (fun res =>
               if ok res then
                 bind (await (JsonList res)) (fun data =>
                   Ret (map person_of (default [] data)))
               else Throw (searchFailure c res))))).

(** *** Loading the persisted value *)

(** [JSON.parse(this.value || '[]')] as [loadValue] uses it: the parser
    threw, or produced something that is not an array, or produced an
    array (of rows, by the declared type of [this.rows]). *)
Inductive parsed := ParseError | NotArray | RowArray (rs : list Row).

Definition parsedRows (p : parsed) : list Row :=
  match p with RowArray rs => rs | _ => [] end.

(** [loadValue] up to its loop. *)
Definition loadStart (p : parsed) (c : Comp) : Comp :=
  let c1 := renumberOrders (set_rows (parsedRows p) c) in
  let c2 := if displayMode c1 then c1 else ensureMinRows c1 in
  set_suggestions ∅ (set_selections ∅ (set_terms ∅ c2)).

Definition hydrated (i : nat) (key : string) (user : Person) (c : Comp) : Comp :=
  set_terms (<[i := Js.or_else (p_displayName user) key]> (terms c))
    (set_selections (<[i := Some user]> (selections c)) c).

Definition unresolved (i : nat) (key : string) (c : Comp) : Comp :=
  set_errorMsg "Unable to load details for some approvers."
    (set_terms (<[i := key]> (terms c))
      (set_selections (<[i := Some (mkPerson key key (Some key) key)]> (selections c)) c)).

(** The body of the loop for one entry of [this.rows.entries()]. *)
Definition hydrateRow (i : nat) (row : Row) : task unit :=
  if Js.truthy (approver row) then
    try_catch
      (bind (fetchUserDetails (approver row)) (fun user =>
         Upd (hydrated i (approver row) user) (Ret tt)))
      (fun _ => Upd (unresolved i (approver row)) (Ret tt))
  else Ret tt.

(** The loop, over the entries the array has when the loop starts.  (The
    iterator of the source is live; both agree unless a handler resizes
    the array while a lookup is awaited.) *)
Fixpoint hydrate (entries : list (nat * Row)) : task unit :=
  match entries with
  | [] => Ret tt
  | (i, row) :: rest => bind (hydrateRow i row) (fun _ => hydrate rest)
  end.

Definition entries (rs : list Row) : list (nat * Row) := imap pair rs.

Definition loadValue (p : parsed) : task unit :=
  Upd (loadStart p) (Get (fun c => hydrate (entries (rows c)))).

(** [isDisplayMode()]: the override, else what the detection chain over the
    surrounding form answers ([detected]). *)
Definition isDisplayMode (detected : bool) (c : Comp) : bool :=
  if forceEditable (props c) then false else detected.

Definition firstUpdated (detected : bool) (p : parsed) : task unit :=
  Upd (fun c => set_displayMode (isDisplayMode detected c) c) (loadValue p).

(** *** The debounced search callback *)

Definition searchResolved (index : nat) (results : list Person) (c : Comp) : Comp :=
  set_suggestions (<[index := results]> (suggestions c)) c.

(** [err?.message || 'Search error.'] and the removal of the row's key. *)
Definition searchFailed (index : nat) (reason : string) (c : Comp) : Comp :=
  set_suggestions (delete index (suggestions c))
    (set_errorMsg (Js.or_else reason "Search error.") c).

(** The [try]/[catch]/[finally] of the callback around a search [t]. *)
Definition settle (index : nat) (t : task (list Person)) : task unit :=
  finally
    (try_catch
       (bind t (fun results => Upd (searchResolved index results) (Ret tt)))
       (fun reason => Upd (searchFailed index reason) (Ret tt)))
    (set_loading false).

(** The function passed to [setTimeout] by [onRowInput(index, e)];
    [t.value] is read from the input element when the timer fires. *)
Definition searchCallback (index : nat) : task unit :=
  Upd (set_loading true)
    (Get (fun c => settle index (graphSearch (default EmptyString (dom c !! index))))).

(** ** Running tasks *)

(** Where a task stands once its synchronous prefix has run. *)
Inductive paused (A : Type) : Type :=
| Done (o : outcome A)
| Waiting (c : call) (k : outcome (answer c) -> task A).
Arguments Done {A} o.
Arguments Waiting {A} c k.

Fixpoint advance {A} (t : task A) (c : Comp) : Comp * paused A :=
  match t with
  | Ret a => (c, Done (Fulfilled a))
  | Throw e => (c, Done (Rejected e))
  | Get k => advance (k c) c
  | Upd f k => advance k (f c)
  | Await cl k => (c, Waiting cl k)
  end.

(** The task [t], suspended in state [c], once the call it awaits has
    settled as [reply] says. *)
Definition resumed {A} (t : task A) (c : Comp)
    (reply : forall cl : call, outcome (answer cl)) : task A :=
  match (advance t c).2 with
  | Done (Fulfilled a) => Ret a
  | Done (Rejected e) => Throw e
  | Waiting cl k => k (reply cl)
  end.

(** The page and the services behind the calls: what the [n]-th call of a
    run resolves to. *)
Definition environment : Type := nat -> forall c : call, outcome (answer c).

(** A task run alone, every call answered by the environment: the final
    state, the outcome and the calls made, in order. *)
Fixpoint run {A} (t : task A) (env : environment) (n : nat) (c : Comp)
  : Comp * outcome A * list call :=
  match t with
  | Ret a => (c, Fulfilled a, [])
  | Throw e => (c, Rejected e, [])
  | Get k => run (k c) env n c
  | Upd f k => run k env n (f c)
  | Await cl k =>
      let '(c', o, tr) := run (k (env n cl)) env (S n) c in
      (c', o, cl :: tr)
  end.

(** ** The element in its page: events and interleaving *)

(** A suspended [async] call: the call it awaits and what it does next. *)
Record job := mkJob {
  pending : call;
  resume : outcome (answer pending) -> task unit
}.

(** The element together with its suspended calls.  [searches] is a log
    of the timeouts that fired: the row of each and the text of that row's
    input at that moment.  It is bookkeeping of the event loop, written by
    [step] and not by the callback; what a callback does is read off its
    task ([proceed], [run]). *)
Record World := mkWorld {
  comp : Comp;
  pool : list (nat * job);
  nextJob : nat;
  searches : list (nat * string)
}.

(** Run [t] until it suspends or ends; a suspended task joins the pool
    under the number [j]. *)
Definition proceed (j : nat) (t : task unit) (c : Comp) (others : list (nat * job)) : Comp * list (nat * job) :=
  match advance t c with
  | (c', Done _) => (c', others)
  | (c', Waiting cl k) => (c', (others ++ [(j, mkJob cl k)])%list)
  end.

Definition spawn (t : task unit) (w : World) : World :=
  let '(c', p) := proceed (nextJob w) t (comp w) (pool w) in
  mkWorld c' p (S (nextJob w)) (searches w).

Definition with_comp (c : Comp) (w : World) : World :=
  mkWorld c (pool w) (nextJob w) (searches w).

Definition find_job (j : nat) (p : list (nat * job)) : option job :=
  snd <$> List.find (fun e => Nat.eqb e.1 j) p.

Definition find_timer (h : nat) (ts : list (nat * nat)) : option nat :=
  snd <$> List.find (fun t => Nat.eqb t.1 h) ts.

Definition drop (j : nat) {B} (p : list (nat * B)) : list (nat * B) :=
  filter (fun e => e.1 ≠ j) p.

Inductive event :=
| Input (index : nat) (v : string)      (* the user edits the input of a row *)
| Pick (index : nat) (p : Person)       (* click on a suggestion *)
| Clear (index : nat)                   (* click on the pill's button *)
| Add                                   (* click on [Add New Row] *)
| Remove (index : nat)
| MoveUp (index : nat)
| MoveDown (index : nat)
| TimerFires (h : nat)                  (* the 200 ms of the timeout [h] have elapsed *)
| Settles (j : nat) (reply : forall c : call, outcome (answer c)).
                                        (* the call the job [j] awaits settles *)

(** One turn of the event loop.  The handlers of a row are bound to the
    elements rendered for that row, so an event on a row needs the row;
    an event that is not enabled gives [None]. *)
Definition step (w : World) (e : event) : option World :=
  let c := comp w in
  match e with
  | Input index v =>
      if decide (index < length (rows c))
      then Some (with_comp (onRowInput index v (set_dom (<[index := v]> (dom c)) c)) w)
      else None
  | Pick index p =>
      c' ← onPick index p c; Some (with_comp c' w)
  | Clear index =>
      c' ← clearRow index c; Some (with_comp c' w)
  | Add => Some (with_comp (addRow c) w)
  | Remove index =>
      if decide (index < length (rows c))
      then Some (with_comp (removeRow index c) w)
      else None
  | MoveUp index =>
      c' ← moveUp index c; Some (with_comp c' w)
  | MoveDown index =>
      c' ← moveDown index c; Some (with_comp c' w)
  | TimerFires h =>
      index ← find_timer h (timers c);
      let c1 := set_timers (drop h (timers c)) c in
      let term := default EmptyString (dom c1 !! index) in
      Some (spawn (searchCallback index)
              (mkWorld c1 (pool w) (nextJob w) (searches w ++ [(index, term)])%list))
  | Settles j reply =>
      jb ← find_job j (pool w);
      let '(c', p) := proceed j (resume jb (reply (pending jb))) c (drop j (pool w)) in
      Some (mkWorld c' p (nextJob w) (searches w))
  end.

Fixpoint steps (w : World) (es : list event) : option World :=
  match es with
  | [] => Some w
  | e :: rest => w' ← step w e; steps w' rest
  end.

(** The element once connected: constructed, then [firstUpdated]. *)
Definition boot (p : Config) (h : Host) (v : string) (detected : bool) (pv : parsed) : World :=
  spawn (firstUpdated detected pv) (mkWorld (initial p h v) [] 0 []).

(** The calls currently awaited by the suspended jobs. *)
Definition awaited (w : World) : list call := map (fun e => pending e.2) (pool w).

Definition is_prompt (c : call) : bool :=
  match c with
  | LoginPopup _ | AcquireTokenPopup _ _ => true
  | _ => false
  end.

Definition is_login (c : call) : bool :=
  match c with LoginPopup _ => true | _ => false end.

(** ** Mode detection, redirect URI and rendering *)

(** What [getFormMode?.()] of the Nintex form API gives: nothing (a link
    of the optional chain is missing), an exception, a number, a string, or
    any other value. *)
Inductive FormMode :=
| ModeUndefined
| ModeThrew
| ModeNumber (n : nat)
| ModeText (s : string)
| ModeOther.

(** What [isDisplayMode] asks of the page. *)
Record FormPage := mkFormPage {
  formMode : FormMode;
  editButton : bool;                (* the [querySelector] for the edit icon finds an element *)
  urlMode : option string;          (* [urlParams.get('mode')] *)
  readonlyAttr : option string      (* [this.getAttribute('readonly')] *)
}.

(** [isDisplayMode], below the [forceEditable] override. *)
Definition detectDisplay (f : FormPage) : bool :=
  match formMode f with
  | ModeNumber n => n =? 2
  | ModeText s => String.eqb s "Display"
  | ModeOther => false
  | ModeUndefined | ModeThrew =>
      if editButton f then true
      else if match urlMode f with Some m => String.eqb m "2" | None => false end then true
      else match readonlyAttr f with Some r => String.eqb r "true" | None => false end
  end.

(** [s.replace(/\/$/, '')] *)
Fixpoint strip_slash (s : string) : string :=
  match s with
  | EmptyString => EmptyString
  | String a EmptyString => if Ascii.eqb a "/"%char then EmptyString else s
  | String a rest => String a (strip_slash rest)
  end.

(** [getRedirectUri], with [origin] for [window.location.origin]. *)
Definition getRedirectUri (origin : string) (c : Comp) : string :=
  if Js.truthy (Js.trim (redirectOrigin (props c)))
  then strip_slash (Js.trim (redirectOrigin (props c)))
  else origin.

(** The helper line of [render]: [Searching…], nothing,
    [Type at least n characters to search], or [No matches]. *)
Inductive HelperText :=
| Searching
| NoHelper
| TypeAtLeast (n : nat)
| NoMatches.

Definition helper (c : Comp) : HelperText :=
  if loading c then Searching
  else
    let term := match activeRowIndex c with
                | Some idx => default EmptyString (terms c !! idx)
                | None => EmptyString
                end in
    if negb (Js.truthy term) then NoHelper
    else if String.length term <? threshold c then TypeAtLeast (threshold c)
    else
      match activeRowIndex c with
      | Some idx =>
          match default [] (suggestions c !! idx) with
          | [] => NoMatches
          | _ => NoHelper
          end
      | None => NoMatches
      end.

(** [showDropdown] of a row in edit mode. *)
Definition showDropdown (c : Comp) (index : nat) : bool :=
  match activeRowIndex c with
  | Some a => (a =? index) && (0 <? length (default [] (suggestions c !! index)))
  | None => false
  end.

(** The text of the input of a row:
    [this.terms[index] ?? (sel?.displayName || '')]. *)
Definition inputText (c : Comp) (index : nat) : string :=
  match terms c !! index with
  | Some t => t
  | None =>
      match selections c !! index with
      | Some (Some sel) => p_displayName sel
      | _ => EmptyString
      end
  end.

(** The name a row shows in display mode:
    [sel?.displayName || row.approver || 'No approver selected']. *)
Definition displayName (c : Comp) (index : nat) (row : Row) : string :=
  let selName := match selections c !! index with
                 | Some (Some sel) => p_displayName sel
                 | _ => EmptyString
                 end in
  Js.or_else selName (Js.or_else (approver row) "No approver selected").

(** The [?disabled] bindings of the buttons. *)
Definition addDisabled (c : Comp) : bool := maxRows (props c) <=? length (rows c).
Definition moveUpDisabled (index : nat) : bool := index =? 0.
Definition moveDownDisabled (c : Comp) (index : nat) : bool :=
  S index =? length (rows c).

(** What [render] does to the state before it builds the template: in edit
    mode an empty collection is backfilled. *)
Definition renderUpdate (c : Comp) : Comp :=
  if displayMode c then c
  else if length (rows c) =? 0 then ensureMinRows c
  else c.

(** * Vocabulary of the properties *)

(** ** The row collection and what is saved *)

(** Every row carries its position plus one. *)
Definition numbered (rs : list Row) : Prop :=
  ∀ i r, rs !! i = Some r → order r = i + 1.

Definition is_notification (e : Effect) : bool :=
  match e with Dispatch _ _ => true | _ => false end.

Definition is_sink_write (e : Effect) : bool :=
  match e with SinkWrite _ _ => true | _ => false end.

(** The change events dispatched on the element so far. *)
Definition notifications (c : Comp) : list Effect :=
  List.filter is_notification (emitted c).

(** The writes into the mirror textbox so far. *)
Definition sink_writes (c : Comp) : list Effect :=
  List.filter is_sink_write (emitted c).

(** The claim of C4 read literally: a second save, with nothing changed in
    between, emits nothing at all, neither to the form nor to the mirror. *)
Definition second_save_silent (c : Comp) : Prop :=
  emitted (saveValue (saveValue c)) = emitted (saveValue c).

(** The claim of C3 read literally, for one state of the element. *)
Definition within_bounds (c : Comp) : Prop :=
  displayMode c = false →
  minRows (props c) ≤ length (rows c) ∧ length (rows c) ≤ maxRows (props c).

(** ** Frames of asynchronous code *)

(** The fields no [async] method writes after its first suspension. *)
Definition sync_part (c : Comp) :=
  (props c, host c, value c, rows c, activeRowIndex c, displayMode c,
   renderTick c, debounceTimer c, dom c, timers c, nextTimer c, emitted c).

(** Everything but the MSAL client and the account: what token acquisition
    and the directory calls leave alone. *)
Definition page_part (c : Comp) :=
  (sync_part c, terms c, selections c, suggestions c, loading c, errorMsg c).

Definition keeps {X} (π : Comp → X) (f : Comp → Comp) : Prop :=
  ∀ c, π (f c) = π c.

(** A task all of whose updates keep the part [π] of the state. *)
Inductive framed {X} (π : Comp → X) {A} : task A → Prop :=
| framed_ret a : framed π (Ret a)
| framed_throw e : framed π (Throw e)
| framed_get k : (∀ c, framed π (k c)) → framed π (Get k)
| framed_upd f k : keeps π f → framed π k → framed π (Upd f k)
| framed_await cl k : (∀ r, framed π (k r)) → framed π (Await cl k).

(** Every suspended job only ever touches the asynchronous fields. *)
Definition jobs_framed (p : list (nat * job)) : Prop :=
  Forall (λ e, ∀ r, framed sync_part (resume e.2 r)) p.

(** ** The invariant and the reachable worlds *)

(** The fields the invariant speaks about. *)
Definition core (c : Comp) :=
  (props c, displayMode c, rows c, timers c, debounceTimer c, nextTimer c).

(** At most one timeout is pending; it is the one [debounceTimer] names,
    and none is pending in display mode. *)
Definition one_timer (c : Comp) : Prop :=
  timers c = []
  ∨ ∃ h i, timers c = [(h, i)] ∧ debounceTimer c = Some h ∧ h < nextTimer c
           ∧ displayMode c = false.

Definition timer_part (c : Comp) :=
  (timers c, debounceTimer c, nextTimer c, displayMode c).

(** What holds of the synchronous state in every reachable world: the
    properties and the mode are those of the start, the rows are numbered,
    the collection is within its bounds, and at most one timeout is pending.
    [loaded] is the number of rows of the persisted value. *)
Record Inv (p0 : Config) (loaded : nat) (d : bool) (c : Comp) : Prop := mkInv {
  inv_props : props c = p0;
  inv_mode : displayMode c = d;
  inv_numbered : numbered (rows c);
  inv_min : d = false → minRows p0 ≤ length (rows c);
  inv_max : length (rows c) ≤ Nat.max (maxRows p0) (Nat.max loaded (minRows p0));
  inv_timer : one_timer c
}.

Definition Good (p0 : Config) (loaded : nat) (d : bool) (w : World) : Prop :=
  Inv p0 loaded d (comp w) ∧ jobs_framed (pool w).

(** The mode the element runs in once connected. *)
Definition mode (p : Config) (detected : bool) : bool :=
  if forceEditable p then false else detected.

(** The worlds the element can be in: connected with some properties, some
    bound value and some detected mode, followed by any enabled events. *)
Definition reaches (p : Config) (h : Host) (v : string) (detected : bool)
    (pv : parsed) (es : list event) (w : World) : Prop :=
  steps (boot p h v detected pv) es = Some w.

(** A burst of keystrokes on one row, with no timer expiry in between. *)
Definition burst (index : nat) (vs : list string) : list event :=
  map (Input index) vs.

(** ** Searches and their outcome *)

(** What the callback of row [index] does with the outcome of its search. *)
Definition concluded (index : nat) (o : outcome (list Person)) (c : Comp) : Comp :=
  set_loading false
    match o with
    | Fulfilled results => searchResolved index results c
    | Rejected reason => searchFailed index reason c
    end.

(** The state the callback of row [index] leaves when its search is rejected
    with [reason] in state [c]. *)
Definition failed (index : nat) (reason : string) (c : Comp) : Comp :=
  (advance (settle index (Throw reason)) c).1.

(** The claim of C7 read literally: the element keeps an error per row, that
    is, the state can be read row by row so that a failed search of a row
    sets the error of that row and leaves the error of every other row. *)
Definition row_scoped_errors : Prop :=
  ∃ error_of : Comp → nat → string,
    ∀ c index reason,
      error_of (failed index reason c) index = Js.or_else reason "Search error."
      ∧ ∀ other, other ≠ index →
          error_of (failed index reason c) other = error_of c other.

(** ** Calls of a run and accounts *)

(** The sign-in popups and the requests among the calls of a run. *)
Definition logins (tr : list call) : nat := length (List.filter is_login tr).

Definition fetched (tr : list call) : list string :=
  omap (λ c, match c with Fetch u _ => Some u | _ => None end) tr.

(** No account is known to MSAL, and a client can be built if there is none. *)
Definition no_account (c : Comp) : Prop :=
  match msal c with
  | Some m => knownAccount m = None
  | None => storedActive (host c) = None ∧ storedAccounts (host c) = []
            ∧ Js.truthy (clientId (props c)) = true
  end.

(** An account is known to MSAL. *)
Definition has_account (c : Comp) : Prop :=
  ∃ m a, msal c = Some m ∧ knownAccount m = Some a.

(** The claim of C2 read literally, for one state of the page: at most one
    interactive prompt is awaited. *)
Definition single_flight (w : World) : Prop :=
  length (List.filter is_prompt (awaited w)) ≤ 1.

(** A page in which sign-in and silent token acquisition succeed. *)
Definition auth_ok (env : environment) : Prop :=
  (∀ k sc, ∃ a, env k (LoginPopup sc) = Fulfilled a)
  ∧ (∀ k sc acct, ∃ tok, env k (AcquireTokenSilent sc acct) = Fulfilled tok).

(** ** Elements, pages and traces used as examples *)

Definition mirrored : Comp :=
  set_displayMode false
    (set_rows [mkRow 1 EmptyString]
       (initial (mkConfig 1 10 EmptyString "common" EmptyString MePeople
                   "People.Read,User.Read" 8 2 "approversJson" false)
          (mkHost true false None []) "[]")).

Definition defaults : Config :=
  mkConfig 1 10 "app-id" "common" EmptyString MePeople "People.Read,User.Read"
    8 2 EmptyString false.

Definition plain_host : Host := mkHost false false None [].

Definition alice : Person :=
  mkPerson "a1" "Alice" (Some "alice@x.com") "alice@x.com".

Definition three_rows : parsed :=
  RowArray [mkRow 1 "alice@x.com"; mkRow 2 "bob@x.com"; mkRow 3 "carol@x.com"].

Definition at_most_two : Config :=
  mkConfig 1 2 "app-id" "common" EmptyString MePeople "People.Read,User.Read"
    8 2 EmptyString true.

Definition two_rows : Comp :=
  set_displayMode false
    (set_rows [mkRow 1 EmptyString; mkRow 2 EmptyString]
       (initial defaults plain_host "[]")).

Definition albert_u : GraphUser :=
  mkGraphUser "u1" "Albert" (Some "albert@x.com") (Some "albert@x.com").
Definition alice_u : GraphUser :=
  mkGraphUser "u2" "Alice" (Some "alice@x.com") (Some "alice@x.com").

(** What the people endpoint answers to the two searches below. *)
Definition directory (u : string) : list GraphUser :=
  if String.eqb u (peopleUrl "al" 8) then [albert_u; alice_u]
  else if String.eqb u (peopleUrl "alice" 8) then [alice_u]
  else [].

(** A page in which everything succeeds: sign-in, tokens, requests. *)
Definition service : ∀ c : call, outcome (answer c) :=
  λ c, match c with
       | MsalInitialize => Fulfilled tt
       | MsalHandleRedirect => Fulfilled tt
       | LoginPopup _ => Fulfilled (mkAccount "user@x.com")
       | AcquireTokenSilent _ _ => Fulfilled "token"
       | AcquireTokenPopup _ _ => Fulfilled "token"
       | Fetch u _ => Fulfilled (mkResponse true 200 "OK" u)
       | JsonUser res => Fulfilled alice_u
       | JsonList res => Fulfilled (Some (directory (url res)))
       end.

(** A signed-in, editable element with two rows; row 0 shows [alice] as
    its term, and both rows have suggestions. *)
Definition signed_in : Comp :=
  set_account (Some (mkAccount "user@x.com"))
    (set_msal (Some (mkMsal (Some (mkAccount "user@x.com")) []))
       (set_suggestions (<[0 := [alice]]> (<[1 := [alice]]> ∅))
          (set_terms (<[0 := "alice"]> ∅) two_rows))).

(** A page whose directory is down. *)
Definition outage : ∀ c : call, outcome (answer c) :=
  λ c, match c with
       | Fetch u _ => Fulfilled (mkResponse false 503 "Service Unavailable" u)
       | other => service other
       end.

(** The user types [al] in row 0 and pauses; the search for [al] is
    dispatched (job 1: initialise, redirect, sign-in, token, request).  The
    user types on to [alice] and pauses; the search for [alice] is
    dispatched (job 2) and answered. *)
Definition overtaken : list event :=
  [Input 0 "al"; TimerFires 1;
   Settles 1 service; Settles 1 service; Settles 1 service; Settles 1 service;
   Input 0 "alice"; TimerFires 2;
   Settles 2 service; Settles 2 service; Settles 2 service].

(** Then the response to the first search arrives. *)
Definition late_response : list event := [Settles 1 service; Settles 1 service].

(** Two rows; the search of row 0 is dispatched and reaches the sign-in
    popup; before the user has signed in, the search of row 1 is dispatched. *)
Definition two_searches : list event :=
  [Add;
   Input 0 "al"; TimerFires 1; Settles 1 service; Settles 1 service;
   Input 1 "bo"; TimerFires 2].

(** ** Moves, announcements, accounts and keys *)

(** The position whose content [k] receives when positions [i] and [j]
    are exchanged. *)
Definition exchanged (i j k : nat) : nat :=
  if decide (k = i) then j else if decide (k = j) then i else k.

(** The two events by which [saveValue] announces a new value. *)
Definition announce (v : string) : list Effect :=
  [Dispatch "ntx-value-change" v; Dispatch "change" v].

(** The persisted value is the compact JSON of the rows. *)
Definition saved (c : Comp) : Prop := value c = stringify (rows c).

(** No value is announced twice in a row, starting from [prev]. *)
Fixpoint changing (prev : string) (vs : list string) : Prop :=
  match vs with
  | [] => True
  | v :: rest => prev ≠ v ∧ changing v rest
  end.

(** The change events dispatched so far announce the values [vs], each
    once and in this order, and the last of them is the current value;
    [v0] is the value the form had bound. *)
Definition history_of (v0 : string) (c : Comp) (vs : list string) : Prop :=
  notifications c = flat_map announce vs
  ∧ value c = default v0 (last vs)
  ∧ changing v0 vs.

(** An element in display mode is as [loadValue] left it. *)
Definition inert (v0 : string) (pv : parsed) (c : Comp) : Prop :=
  rows c = renumber (parsedRows pv) ∧ value c = v0 ∧ emitted c = [] ∧ timers c = [].

(** MSAL has been built and knows the account [a]. *)
Definition signed_in_as (a : AccountInfo) (c : Comp) : Prop :=
  ∃ m, msal c = Some m ∧ knownAccount m = Some a.

(** No client can be built: none exists and no client ID is configured. *)
Definition unconfigured (c : Comp) : Prop :=
  msal c = None ∧ Js.truthy (clientId (props c)) = false.

(** The stand-in [loadValue] stores for a key it could not resolve. *)
Definition raw (key : string) : Person := mkPerson key key (Some key) key.

(** [x] is [undefined] or the empty string. *)
Definition blank (x : option string) : Prop := Js.opt_or x None = None.

(** * Properties *)

Local Ltac split_ifs :=
  repeat match goal with
    | |- context [if ?b then _ else _] => destruct b eqn:?
    end.

(** ** What [saveValue] leaves alone *)

Section SaveFrame.
Variable c : Comp.

Lemma rows_mirror s : rows (mirror s c) = rows c.
Proof. unfold mirror. split_ifs; reflexivity. Qed.

Lemma rows_saveValue : rows (saveValue c) = rows c.
Proof. unfold saveValue, mirror. split_ifs; reflexivity. Qed.

Lemma props_saveValue : props (saveValue c) = props c.
Proof. unfold saveValue, mirror. split_ifs; reflexivity. Qed.

Lemma displayMode_saveValue : displayMode (saveValue c) = displayMode c.
Proof. unfold saveValue, mirror. split_ifs; simpl; congruence. Qed.

Lemma terms_saveValue : terms (saveValue c) = terms c.
Proof. unfold saveValue, mirror. split_ifs; reflexivity. Qed.

Lemma selections_saveValue : selections (saveValue c) = selections c.
Proof. unfold saveValue, mirror. split_ifs; reflexivity. Qed.

Lemma suggestions_saveValue : suggestions (saveValue c) = suggestions c.
Proof. unfold saveValue, mirror. split_ifs; reflexivity. Qed.

Lemma timers_saveValue : timers (saveValue c) = timers c.
Proof. unfold saveValue, mirror. split_ifs; reflexivity. Qed.

Lemma debounceTimer_saveValue : debounceTimer (saveValue c) = debounceTimer c.
Proof. unfold saveValue, mirror. split_ifs; reflexivity. Qed.

Lemma host_saveValue : host (saveValue c) = host c.
Proof. unfold saveValue, mirror. split_ifs; reflexivity. Qed.
End SaveFrame.

(** ** Numbering *)

Lemma renumber_lookup (rs : list Row) i :
  renumber rs !! i = (λ r, mkRow (i + 1) (approver r)) <$> rs !! i.
Proof. unfold renumber. apply list_lookup_imap. Qed.

Lemma renumber_length (rs : list Row) : length (renumber rs) = length rs.
Proof. unfold renumber. apply length_imap. Qed.

Lemma renumber_numbered (rs : list Row) : numbered (renumber rs).
Proof.
  intros i r. rewrite renumber_lookup.
  destruct (rs !! i); simpl; [|done]. by intros [= <-].
Qed.

Lemma numbered_fixed (rs : list Row) : numbered rs → renumber rs = rs.
Proof.
  intros H. apply list_eq. intros i. rewrite renumber_lookup.
  destruct (rs !! i) as [r|] eqn:E; simpl; [|done].
  specialize (H i r E). destruct r as [o a]. simpl in *. by subst.
Qed.

Lemma numbered_orders (rs : list Row) :
  numbered rs → map order rs = seq 1 (length rs).
Proof.
  intros H. apply list_eq. intros i.
  rewrite list_lookup_fmap.
  destruct (rs !! i) as [r|] eqn:E; simpl.
  - rewrite (H i r E). symmetry. apply lookup_seq.
    split; [lia|]. by apply lookup_lt_Some in E.
  - symmetry. apply lookup_seq_ge. by apply lookup_ge_None in E.
Qed.

Lemma numbered_push (rs : list Row) a :
  numbered rs → numbered (rs ++ [mkRow (length rs + 1) a]).
Proof.
  intros H i r Hi.
  destruct (decide (i < length rs)) as [Hlt|Hge].
  - rewrite lookup_app_l in Hi by done. by apply H.
  - rewrite lookup_app_r in Hi by lia.
    destruct (i - length rs) as [|k] eqn:E; simpl in Hi; [|by rewrite lookup_nil in Hi].
    injection Hi as <-. simpl. lia.
Qed.

Lemma pushEmpty_numbered k : ∀ rs, numbered rs → numbered (pushEmpty k rs).
Proof.
  induction k as [|k IH]; intros rs H; simpl; [done|].
  apply IH. by apply numbered_push.
Qed.

Lemma pushEmpty_length k : ∀ rs, length (pushEmpty k rs) = length rs + k.
Proof.
  induction k as [|k IH]; intros rs; simpl; [lia|].
  rewrite IH, length_app. simpl. lia.
Qed.

Lemma pushEmpty_lookup k : ∀ (rs : list Row) i,
  i < length rs → pushEmpty k rs !! i = rs !! i.
Proof.
  induction k as [|k IH]; intros rs i Hi; simpl; [done|].
  rewrite IH by (rewrite length_app; simpl; lia).
  by rewrite lookup_app_l.
Qed.

(** ** Structural edits and the transient maps *)

Lemma shifted_spec index i :
  shifted index i = if decide (i < index) then i else i + 1.
Proof.
  unfold shifted. destruct (Nat.leb_spec index i); case_decide; lia.
Qed.

Lemma rebuild_lookup {V} n (f : nat → V) i :
  rebuild n f !! i = if decide (i < n) then Some (f i) else None.
Proof.
  unfold rebuild.
  assert (∀ l : list nat,
    foldr (λ i m, <[i := f i]> m) (∅ : gmap nat V) l !! i
    = if decide (i ∈ l) then Some (f i) else None) as H.
  { induction l as [|j l IH]; cbn [foldr].
    - rewrite lookup_empty. destruct (decide (i ∈ [])); [set_solver|done].
    - destruct (decide (j = i)) as [->|Hne].
      + rewrite lookup_insert_eq.
        destruct (decide (i ∈ i :: l)); [done|set_solver].
      + rewrite lookup_insert_ne by done. rewrite IH.
        destruct (decide (i ∈ l)) as [E1|E1], (decide (i ∈ j :: l)) as [E2|E2];
          [done| | |done].
        * exfalso. apply E2. by apply elem_of_cons; right.
        * exfalso. apply elem_of_cons in E2 as [?|?]; [congruence|done]. }
  rewrite H.
  destruct (decide (i ∈ seq 0 n)) as [E|E], (decide (i < n)); try done;
    rewrite elem_of_seq in E; lia.
Qed.

Lemma rows_ensureMinRows c :
  rows (ensureMinRows c)
  = if displayMode c then rows c
    else pushEmpty (minRows (props c) - length (rows c)) (rows c).
Proof.
  unfold ensureMinRows. destruct (displayMode c); [done|].
  by rewrite rows_saveValue.
Qed.

Lemma terms_ensureMinRows c : terms (ensureMinRows c) = terms c.
Proof. unfold ensureMinRows. destruct (displayMode c); [done|]. by rewrite terms_saveValue. Qed.

Lemma selections_ensureMinRows c : selections (ensureMinRows c) = selections c.
Proof. unfold ensureMinRows. destruct (displayMode c); [done|]. by rewrite selections_saveValue. Qed.

Lemma suggestions_ensureMinRows c : suggestions (ensureMinRows c) = suggestions c.
Proof. unfold ensureMinRows. destruct (displayMode c); [done|]. by rewrite suggestions_saveValue. Qed.

(** The rows and the three maps [removeRow] leaves, before the refill. *)
Lemma removeRow_rows index c :
  displayMode c = false →
  rows (removeRow index c)
  = pushEmpty (minRows (props c) - length (delete index (rows c)))
      (renumber (delete index (rows c))).
Proof.
  intros Hd. unfold removeRow. rewrite Hd.
  rewrite rows_ensureMinRows, displayMode_saveValue, props_saveValue, rows_saveValue.
  simpl. rewrite Hd. by rewrite renumber_length.
Qed.

Lemma removeRow_terms index c :
  displayMode c = false →
  terms (removeRow index c)
  = rebuild (length (delete index (rows c)))
      (λ i, default EmptyString (terms c !! shifted index i)).
Proof.
  intros Hd. unfold removeRow. rewrite Hd.
  by rewrite terms_ensureMinRows, terms_saveValue.
Qed.

Lemma removeRow_selections index c :
  displayMode c = false →
  selections (removeRow index c)
  = rebuild (length (delete index (rows c)))
      (λ i, default None (selections c !! shifted index i)).
Proof.
  intros Hd. unfold removeRow. rewrite Hd.
  by rewrite selections_ensureMinRows, selections_saveValue.
Qed.

Lemma removeRow_suggestions index c :
  displayMode c = false →
  suggestions (removeRow index c)
  = rebuild (length (delete index (rows c)))
      (λ i, default [] (suggestions c !! shifted index i)).
Proof.
  intros Hd. unfold removeRow. rewrite Hd.
  by rewrite suggestions_ensureMinRows, suggestions_saveValue.
Qed.

(** C5. In editable mode, [removeRow(index)] on a valid index rebuilds the
    row array and the three position-keyed maps in one synchronous step:
    every surviving position [i] holds the approver, the term, the
    selection and the suggestions that position [i] held before when
    [i < index], and those of position [i + 1] otherwise (a term, selection
    or suggestion list that was missing reads as the empty string, [null]
    or the empty list, as it did before). *)
Theorem removeRow_remaps_store (index : nat) (c : Comp) :
  displayMode c = false →
  index < length (rows c) →
  ∀ i, i < length (rows c) - 1 →
    let c' := removeRow index c in
    let old := if decide (i < index) then i else i + 1 in
    approver <$> rows c' !! i = approver <$> rows c !! old
    ∧ order <$> rows c' !! i = Some (i + 1)
    ∧ terms c' !! i = Some (default EmptyString (terms c !! old))
    ∧ selections c' !! i = Some (default None (selections c !! old))
    ∧ suggestions c' !! i = Some (default [] (suggestions c !! old)).
Proof.
  intros Hd Hidx i Hi. cbv zeta.
  assert (length (delete index (rows c)) = length (rows c) - 1) as Hlen.
  { apply length_delete. by apply lookup_lt_is_Some. }
  rewrite removeRow_rows, removeRow_terms, removeRow_selections,
    removeRow_suggestions by done.
  rewrite !rebuild_lookup, Hlen, <- !shifted_spec.
  rewrite pushEmpty_lookup by (rewrite renumber_length; lia).
  rewrite renumber_lookup, list_lookup_delete.
  replace (if decide (i < index) then i else S i) with (shifted index i)
    by (rewrite shifted_spec; case_decide; lia).
  assert (is_Some (rows c !! shifted index i)) as [r Hr].
  { apply lookup_lt_is_Some. rewrite shifted_spec. case_decide; lia. }
  rewrite Hr. simpl. repeat case_decide; try lia. done.
Qed.

(** The example of the specification: removing the first of two rows. *)
Example removeRow_example :
  let c := set_displayMode false
             (set_rows [mkRow 1 "alice@x.com"; mkRow 2 "bob@x.com"]
                (initial (mkConfig 1 10 EmptyString "common" EmptyString MePeople
                            "People.Read,User.Read" 8 2 EmptyString false)
                   (mkHost false false None []) "[]")) in
  rows (removeRow 0 c) = [mkRow 1 "bob@x.com"].
Proof. reflexivity. Qed.

Lemma removeRow_remaps_store_witness :
  let c := set_displayMode false
             (set_terms (<[0 := "Alice"]> (<[1 := "Bob"]> ∅))
               (set_rows [mkRow 1 "alice@x.com"; mkRow 2 "bob@x.com"]
                  (initial (mkConfig 1 10 EmptyString "common" EmptyString MePeople
                              "People.Read,User.Read" 8 2 EmptyString false)
                     (mkHost false false None []) "[]"))) in
  approver <$> rows (removeRow 0 c) !! 0 = Some "bob@x.com"
  ∧ terms (removeRow 0 c) !! 0 = Some "Bob".
Proof.
  intros c.
  destruct (removeRow_remaps_store 0 c eq_refl ltac:(simpl; lia) 0 ltac:(simpl; lia))
    as (Ha & _ & Ht & _).
  split; [exact Ha | exact Ht].
Defined.

(** ** Saving *)

Lemma value_saveValue c :
  displayMode c = false → value (saveValue c) = stringify (rows c).
Proof.
  intros Hd. unfold saveValue, mirror. rewrite Hd.
  destruct (String.eqb (value c) (stringify (rows c))) eqn:E.
  - apply String.eqb_eq in E. split_ifs; simpl; congruence.
  - split_ifs; reflexivity.
Qed.

Lemma saveValue_unchanged c :
  displayMode c = false → value c = stringify (rows c) →
  saveValue c = mirror (stringify_pretty (rows c)) c.
Proof.
  intros Hd Hv. unfold saveValue. rewrite Hd.
  replace (String.eqb (value c) (stringify (rows c))) with true; [done|].
  symmetry. by apply String.eqb_eq.
Qed.

Lemma notifications_mirror s c : notifications (mirror s c) = notifications c.
Proof.
  unfold mirror, notifications. split_ifs; simpl;
    rewrite ?List.filter_app; simpl; by rewrite ?app_nil_r.
Qed.

Lemma sink_writes_mirror s c :
  sink_writes (mirror s c)
  = (sink_writes c
     ++ if Js.truthy (jsonTargetId (props c)) && sinkPresent (host c)
        then [SinkWrite (jsonTargetId (props c)) s] else [])%list.
Proof.
  unfold mirror, sink_writes. split_ifs; simpl;
    rewrite ?List.filter_app; simpl; by rewrite ?app_nil_r.
Qed.

(** A save with nothing to report is exactly the mirror block. *)
Lemma saveValue_again c :
  saveValue (saveValue c)
  = if displayMode c then c
    else mirror (stringify_pretty (rows c)) (saveValue c).
Proof.
  destruct (displayMode c) eqn:Hd.
  - assert (saveValue c = c) as E by (unfold saveValue; by rewrite Hd).
    by rewrite !E.
  - rewrite (saveValue_unchanged (saveValue c)).
    + by rewrite rows_saveValue.
    + by rewrite displayMode_saveValue.
    + rewrite rows_saveValue. by apply value_saveValue.
Qed.

(** C4, counterexample. With a mirror textbox configured and present, the
    second of two saves writes the textbox again although the value did not
    change: [saveValue] reaches the mirror block whether or not the compact
    form differs from [this.value]. *)
Lemma second_save_writes_mirror :
  ¬ second_save_silent mirrored
  ∧ length (notifications (saveValue (saveValue mirrored))) = 2
  ∧ length (sink_writes (saveValue mirrored)) = 1
  ∧ length (sink_writes (saveValue (saveValue mirrored))) = 2.
Proof.
  split; [|vm_compute; auto].
  unfold second_save_silent. intros H.
  apply (f_equal length) in H. vm_compute in H. discriminate H.
Qed.

(** C4, as the code has it. The change events are idempotent: a second save
    with nothing changed in between leaves [this.value] as it is and
    dispatches neither [ntx-value-change] nor [change].  The mirror block is
    outside that comparison: in editable mode the second save is exactly
    the mirror block, so a configured and present textbox is written on
    every save. *)
Theorem saveValue_idempotent_events (c : Comp) :
  let c1 := saveValue c in
  let c2 := saveValue c1 in
  value c2 = value c1
  ∧ notifications c2 = notifications c1
  ∧ c2 = (if displayMode c then c else mirror (stringify_pretty (rows c)) c1)
  ∧ sink_writes c2
    = (sink_writes c1
       ++ if negb (displayMode c) && Js.truthy (jsonTargetId (props c)) && sinkPresent (host c)
          then [SinkWrite (jsonTargetId (props c)) (stringify_pretty (rows c))]
          else [])%list.
Proof.
  cbv zeta. rewrite saveValue_again.
  destruct (displayMode c) eqn:Hd; simpl.
  - assert (saveValue c = c) as E by (unfold saveValue; by rewrite Hd).
    rewrite !E. by rewrite app_nil_r.
  - rewrite notifications_mirror, sink_writes_mirror.
    rewrite props_saveValue, host_saveValue.
    repeat split; try done.
    unfold mirror. split_ifs; reflexivity.
Qed.

(** ** What the asynchronous code leaves alone *)

Create HintDb frame discriminated.
#[local] Hint Constructors framed : frame.

Lemma framed_bind {X} (π : Comp → X) {A B} (t : task A) (f : A → task B) :
  framed π t → (∀ a, framed π (f a)) → framed π (bind t f).
Proof. induction 1; intros Hf; simpl; auto with frame. Qed.

Lemma framed_try_catch {X} (π : Comp → X) {A} (t : task A) h :
  framed π t → (∀ e, framed π (h e)) → framed π (try_catch t h).
Proof. induction 1; intros Hh; simpl; auto with frame. Qed.

Lemma framed_finally {X} (π : Comp → X) {A} (t : task A) f :
  framed π t → keeps π f → framed π (finally t f).
Proof. induction 1; intros Hf; simpl; auto with frame. Qed.

Lemma framed_await_call {X} (π : Comp → X) cl : framed π (await cl).
Proof. unfold await. constructor. intros [a|e]; constructor. Qed.

(** A task that keeps a part keeps whatever is computed from that part. *)
Lemma framed_weaken {X Y} (π : Comp → X) (ρ : Comp → Y) {A} (t : task A) :
  (∀ c c', π c = π c' → ρ c = ρ c') → framed π t → framed ρ t.
Proof.
  intros H. induction 1; constructor; auto.
  intros c. apply H. auto.
Qed.

#[local] Hint Resolve framed_bind framed_try_catch framed_finally : frame.

Local Ltac framed_await :=
  match goal with |- framed ?π (await ?cl) => exact (framed_await_call π cl) end.

Lemma framed_ensureMsal : framed page_part ensureMsal.
Proof.
  unfold ensureMsal. constructor. intros c.
  destruct (msal c); [constructor|].
  destruct (Js.truthy _); [|constructor].
  constructor; [intros ?; reflexivity|].
  constructor. intros _. constructor. intros _. constructor.
Qed.

Lemma framed_ensureAccount sc : framed page_part (ensureAccount sc).
Proof.
  unfold ensureAccount. apply framed_bind; [apply framed_ensureMsal|].
  intros _. constructor. intros c. destruct (msal c) as [m|]; [|constructor].
  constructor; [intros ?; reflexivity|].
  destruct (knownAccount m); [constructor|].
  apply framed_bind; [framed_await|].
  intros a. constructor; [intros ?; reflexivity|constructor].
Qed.

Lemma framed_getAccessToken sc : framed page_part (getAccessToken sc).
Proof.
  unfold getAccessToken. apply framed_bind; [apply framed_ensureAccount|].
  intros _. apply framed_try_catch.
  - constructor. intros c. framed_await.
  - intros _. constructor. intros c. framed_await.
Qed.

Lemma framed_fetchUserDetails email : framed page_part (fetchUserDetails email).
Proof.
  unfold fetchUserDetails. constructor. intros c0.
  apply framed_bind; [apply framed_getAccessToken|]. intros token.
  apply framed_bind; [framed_await|]. intros res.
  destruct (ok res); [|constructor].
  apply framed_bind; [framed_await|]. intros user. constructor.
Qed.

Lemma framed_graphSearch term : framed page_part (graphSearch term).
Proof.
  unfold graphSearch. constructor. intros c0.
  destruct (displayMode c0); [constructor|].
  apply framed_bind; [apply framed_getAccessToken|]. intros token.
  constructor. intros c.
  apply framed_bind; [framed_await|]. intros res.
  destruct (ok res); [|constructor].
  apply framed_bind; [framed_await|]. intros data. constructor.
Qed.

Lemma page_sync c c' : page_part c = page_part c' → sync_part c = sync_part c'.
Proof. intros H. exact (f_equal (λ t, t.1.1.1.1.1) H). Qed.

Lemma framed_hydrateRow i row : framed sync_part (hydrateRow i row).
Proof.
  unfold hydrateRow. destruct (Js.truthy _); [|constructor].
  apply framed_try_catch.
  - apply framed_bind.
    + eapply framed_weaken; [apply page_sync|apply framed_fetchUserDetails].
    + intros user. constructor; [intros ?; reflexivity|constructor].
  - intros _. constructor; [intros ?; reflexivity|constructor].
Qed.

Lemma framed_hydrate es : framed sync_part (hydrate es).
Proof.
  induction es as [|[i row] es IH]; simpl; [constructor|].
  apply framed_bind; [apply framed_hydrateRow|by intros _].
Qed.

Lemma framed_settle index t : framed sync_part t → framed sync_part (settle index t).
Proof.
  intros H. unfold settle. apply framed_finally; [|intros ?; reflexivity].
  apply framed_try_catch.
  - apply framed_bind; [done|]. intros rs. constructor; [intros ?; reflexivity|constructor].
  - intros e. constructor; [intros ?; reflexivity|constructor].
Qed.

Lemma framed_searchCallback index : framed sync_part (searchCallback index).
Proof.
  unfold searchCallback. constructor; [intros ?; reflexivity|].
  constructor. intros c. apply framed_settle.
  eapply framed_weaken; [apply page_sync|apply framed_graphSearch].
Qed.

Lemma advance_framed {X} (π : Comp → X) {A} (t : task A) :
  framed π t → ∀ c,
    π (advance t c).1 = π c
    ∧ match (advance t c).2 with
      | Done _ => True
      | Waiting cl k => ∀ r, framed π (k r)
      end.
Proof.
  induction 1 as [a|e|k Hk IH|f k Hf Hk IH|cl k Hk IH]; intros c; simpl; auto.
  destruct (IH (f c)) as [E ?]. split; [|done]. by rewrite E, Hf.
Qed.

Lemma framed_resumed {X} (π : Comp → X) {A} (t : task A) c reply :
  framed π t → framed π (resumed t c reply).
Proof.
  intros H. unfold resumed.
  destruct (advance_framed π t H c) as [_ Hk].
  destruct (advance t c).2 as [[a|e]|cl k]; [constructor..|apply Hk].
Qed.

Lemma proceed_framed j t c others :
  framed sync_part t → jobs_framed others →
  sync_part (proceed j t c others).1 = sync_part c
  ∧ jobs_framed (proceed j t c others).2.
Proof.
  intros Ht Ho. unfold proceed.
  destruct (advance_framed sync_part t Ht c) as [E Hk].
  destruct (advance t c) as [c' [o|cl k]]; simpl in *; split; auto.
  apply Forall_app. split; [done|]. by constructor.
Qed.

Lemma jobs_framed_drop j p : jobs_framed p → jobs_framed (drop j p).
Proof.
  unfold jobs_framed, drop. rewrite !Forall_forall. intros H x Hx.
  apply list_elem_of_filter in Hx as [_ Hx]. by apply H.
Qed.

Lemma find_job_framed j p jb :
  jobs_framed p → find_job j p = Some jb → ∀ r, framed sync_part (resume jb r).
Proof.
  unfold find_job, jobs_framed. intros H E.
  destruct (List.find _ p) as [[j' jb']|] eqn:F; simpl in E; [|done].
  injection E as <-. apply List.find_some in F as [Hin _].
  rewrite Forall_forall in H. apply (H (j', jb')). by apply list_elem_of_In.
Qed.

(** ** The invariant of the synchronous state *)

Lemma sync_core c c' : sync_part c' = sync_part c → core c' = core c.
Proof. unfold sync_part, core. intros [=]. congruence. Qed.

Lemma core_saveValue c : core (saveValue c) = core c.
Proof. unfold saveValue, mirror. split_ifs; reflexivity. Qed.

Lemma one_timer_eq c c' : timer_part c' = timer_part c → one_timer c → one_timer c'.
Proof.
  unfold timer_part, one_timer. intros [= Et Eb En Ed]. by rewrite Et, Eb, En, Ed.
Qed.

Lemma one_timer_core c c' : core c' = core c → one_timer c → one_timer c'.
Proof.
  unfold core. intros [= _ Ed _ Et Eb En]. apply one_timer_eq.
  unfold timer_part. congruence.
Qed.

Lemma timer_part_saveValue c : timer_part (saveValue c) = timer_part c.
Proof. unfold timer_part, saveValue, mirror. split_ifs; simpl; congruence. Qed.

Lemma length_delete_le {A} (l : list A) i : length (delete i l) ≤ length l.
Proof.
  revert i. induction l as [|x l IH]; intros [|i]; simpl; try lia.
  specialize (IH i). lia.
Qed.

Section Invariant.
Variables (p0 : Config) (loaded : nat) (d : bool).

Lemma Inv_core c c' : core c' = core c → Inv p0 loaded d c → Inv p0 loaded d c'.
Proof.
  intros E []. pose proof (one_timer_core _ _ E) as Ht.
  unfold core in E. injection E as Ep Ed Er _ _ _.
  constructor; rewrite ?Ep, ?Ed, ?Er; auto.
Qed.

Lemma Inv_saveValue c : Inv p0 loaded d c → Inv p0 loaded d (saveValue c).
Proof. apply Inv_core, core_saveValue. Qed.

Lemma Inv_ensureMinRows c :
  props c = p0 → displayMode c = d → numbered (rows c) →
  length (rows c) ≤ Nat.max (maxRows p0) (Nat.max loaded (minRows p0)) →
  one_timer c → d = false →
  Inv p0 loaded d (ensureMinRows c).
Proof.
  intros Hp Hd Hn Hm Ht Hf. unfold ensureMinRows.
  replace (displayMode c) with false by congruence.
  apply Inv_saveValue.
  constructor; simpl; try done.
  - by apply pushEmpty_numbered.
  - intros _. rewrite pushEmpty_length, Hp. lia.
  - rewrite pushEmpty_length, Hp. lia.
Qed.

Lemma Inv_addRow c : Inv p0 loaded d c → Inv p0 loaded d (addRow c).
Proof.
  intros H. unfold addRow. destruct (displayMode c); [done|].
  destruct (Nat.leb_spec (maxRows (props c)) (length (rows c))) as [|Hlt]; [done|].
  apply Inv_saveValue. destruct H as [Hp Hd Hn Hmin Hmax Ht].
  rewrite Hp in Hlt.
  constructor; simpl; try done.
  - by apply numbered_push.
  - intros E. specialize (Hmin E). rewrite length_app. simpl. lia.
  - rewrite length_app. simpl. lia.
Qed.

Lemma Inv_removeRow index c : Inv p0 loaded d c → Inv p0 loaded d (removeRow index c).
Proof.
  intros H. unfold removeRow. destruct (displayMode c) eqn:Hd; [done|].
  destruct H as [Hp Hd' Hn Hmin Hmax Ht].
  pose proof (length_delete_le (rows c) index) as Hlen.
  apply Inv_ensureMinRows;
    rewrite ?props_saveValue, ?displayMode_saveValue, ?rows_saveValue; simpl;
    try done; try congruence.
  - apply renumber_numbered.
  - rewrite renumber_length. lia.
  - apply (one_timer_eq c); [|done]. by rewrite timer_part_saveValue.
Qed.

Lemma Inv_after_move i j c c1 :
  Inv p0 loaded d c → swap_rows i j c = Some c1 → Inv p0 loaded d (after_move c1).
Proof.
  intros [Hp Hd Hn Hmin Hmax Ht] Hs. unfold swap_rows in Hs.
  destruct (rows c !! i) as [a|]; [|done].
  destruct (rows c !! j) as [b|]; [|done].
  injection Hs as <-. unfold after_move. apply Inv_saveValue.
  constructor; simpl; try done.
  - apply renumber_numbered.
  - intros E. rewrite renumber_length, !length_insert. auto.
  - by rewrite renumber_length, !length_insert.
Qed.

Lemma Inv_moveUp index c c' : Inv p0 loaded d c → moveUp index c = Some c' → Inv p0 loaded d c'.
Proof.
  intros H. unfold moveUp.
  destruct (displayMode c); [by intros [= <-]|].
  destruct (index =? 0); [by intros [= <-]|].
  destruct (swap_rows (index - 1) index c) as [c1|] eqn:E; simpl; [|done].
  intros [= <-]. by eapply Inv_after_move.
Qed.

Lemma Inv_moveDown index c c' : Inv p0 loaded d c → moveDown index c = Some c' → Inv p0 loaded d c'.
Proof.
  intros H. unfold moveDown.
  destruct (displayMode c); [by intros [= <-]|].
  destruct (length (rows c) <=? index + 1); [by intros [= <-]|].
  destruct (swap_rows (index + 1) index c) as [c1|] eqn:E; simpl; [|done].
  intros [= <-]. by eapply Inv_after_move.
Qed.

Lemma set_approver_spec index v (rs rs' : list Row) :
  set_approver index v rs = Some rs' →
  length rs' = length rs ∧ (numbered rs → numbered rs').
Proof.
  unfold set_approver. destruct (rs !! index) as [r|] eqn:E; [|done].
  intros [= <-]. split; [apply length_insert|].
  intros Hn i r' Hi.
  destruct (decide (i = index)) as [->|Hne].
  - rewrite list_lookup_insert_eq in Hi by (by eapply lookup_lt_Some).
    injection Hi as <-. simpl. by apply Hn.
  - rewrite list_lookup_insert_ne in Hi by done. by apply Hn.
Qed.

Lemma Inv_onPick index p c c' : Inv p0 loaded d c → onPick index p c = Some c' → Inv p0 loaded d c'.
Proof.
  intros H. unfold onPick.
  destruct (displayMode c) eqn:Hm; [by intros [= <-]|].
  destruct H as [Hp Hd Hn Hmin Hmax Ht].
  simpl. destruct (set_approver index (p_login p) (rows c)) as [rs|] eqn:E; simpl; [|done].
  intros [= <-]. apply set_approver_spec in E as [El En].
  apply (Inv_core (saveValue (set_rows rs
           (set_terms (<[index:=p_displayName p]> (terms c))
              (set_selections (<[index:=Some p]> (selections c)) c))))).
  { reflexivity. }
  apply Inv_saveValue. constructor; simpl; rewrite ?El; auto.
Qed.

Lemma Inv_clearRow index c c' : Inv p0 loaded d c → clearRow index c = Some c' → Inv p0 loaded d c'.
Proof.
  intros H. unfold clearRow.
  destruct (displayMode c) eqn:Hm; [by intros [= <-]|].
  destruct H as [Hp Hd Hn Hmin Hmax Ht].
  simpl. destruct (set_approver index EmptyString (rows c)) as [rs|] eqn:E; simpl; [|done].
  intros [= <-]. apply set_approver_spec in E as [El En].
  apply Inv_saveValue. constructor; simpl; rewrite ?El; auto.
Qed.
End Invariant.

(** *** Timers *)

Lemma drop_other (h h' i : nat) : h ≠ h' → drop h [(h', i)] = [(h', i)].
Proof. intros. unfold drop. by rewrite filter_cons_True, filter_nil by (simpl; congruence). Qed.

Lemma drop_same (h i : nat) : drop h [(h, i)] = [].
Proof. unfold drop. by rewrite filter_cons_False, filter_nil by (simpl; auto). Qed.

Lemma clearDebounce_timers c : one_timer c → timers (clearDebounce c) = [].
Proof.
  unfold clearDebounce. intros [E|(h & i & E & Eb & _ & _)].
  - destruct (debounceTimer c); cbn [timers set_timers]; rewrite E; [apply filter_nil|done].
  - rewrite Eb. cbn [timers set_timers]. rewrite E. apply drop_same.
Qed.

Lemma clearDebounce_rest c :
  (props (clearDebounce c), displayMode (clearDebounce c), rows (clearDebounce c),
   debounceTimer (clearDebounce c), nextTimer (clearDebounce c), dom (clearDebounce c),
   suggestions (clearDebounce c), terms (clearDebounce c))
  = (props c, displayMode c, rows c, debounceTimer c, nextTimer c, dom c,
     suggestions c, terms c).
Proof.
  unfold clearDebounce. destruct (debounceTimer c) eqn:E; [|by rewrite E].
  cbn -[filter]. by rewrite E.
Qed.

(** What an input event does to the timers, in editable mode. *)
Lemma onRowInput_timers index v c :
  displayMode c = false → one_timer c →
  timers (onRowInput index v c)
  = if String.length v <? threshold c then [] else [(nextTimer c, index)].
Proof.
  intros Hd Ht. unfold onRowInput. rewrite Hd.
  set (c1 := set_errorMsg _ _).
  assert (one_timer c1) as Ht1 by (by apply (one_timer_eq c)).
  pose proof (clearDebounce_timers c1 Ht1) as Et.
  pose proof (clearDebounce_rest c1) as [= Ep _ _ _ En _ _ _].
  replace (threshold (clearDebounce c1)) with (threshold c)
    by (unfold threshold; by rewrite Ep).
  destruct (String.length v <? threshold c); simpl.
  - done.
  - by rewrite Et, En.
Qed.

Lemma onRowInput_one_timer index v c :
  one_timer c → one_timer (onRowInput index v c).
Proof.
  intros Ht. destruct (displayMode c) eqn:Hd.
  - unfold onRowInput. by rewrite Hd.
  - pose proof (onRowInput_timers index v c Hd Ht) as E.
    destruct (String.length v <? threshold c) eqn:El; [by left|].
    right. exists (nextTimer c), index. split; [done|].
    unfold onRowInput. rewrite Hd.
    set (c1 := set_errorMsg _ _).
    pose proof (clearDebounce_rest c1) as [= Ep _ _ _ En _ _ _].
    replace (threshold (clearDebounce c1)) with (threshold c)
      by (unfold threshold; by rewrite Ep).
    rewrite El. simpl. rewrite En. repeat split; [lia|].
    pose proof (clearDebounce_rest c1) as [= _ Ed _ _ _ _ _ _]. by rewrite Ed.
Qed.

Lemma onRowInput_rows index v c :
  (props (onRowInput index v c), displayMode (onRowInput index v c),
   rows (onRowInput index v c), dom (onRowInput index v c))
  = (props c, displayMode c, rows c, dom c).
Proof.
  unfold onRowInput. destruct (displayMode c) eqn:Hd; [by rewrite Hd|].
  set (c1 := set_errorMsg _ _).
  pose proof (clearDebounce_rest c1) as [= Ep Ed Er _ _ Edom _ _].
  destruct (_ <? _); simpl; by rewrite Ep, Ed, Er, Edom, ?Hd.
Qed.

Lemma Inv_onRowInput p0 loaded d index v c :
  Inv p0 loaded d c → Inv p0 loaded d (onRowInput index v c).
Proof.
  intros [Hp Hd Hn Hmin Hmax Ht].
  pose proof (onRowInput_rows index v c) as [= Ep Ed Er _].
  constructor; rewrite ?Ep, ?Ed, ?Er; auto.
  by apply onRowInput_one_timer.
Qed.

Lemma Inv_timer_fired p0 loaded d h c :
  Inv p0 loaded d c → Inv p0 loaded d (set_timers (drop h (timers c)) c).
Proof.
  intros [Hp Hd Hn Hmin Hmax Ht]. constructor; simpl; auto.
  destruct Ht as [E|(h' & i & E & Eb & Hlt & Hm)]; unfold one_timer; simpl; rewrite E.
  - by left.
  - destruct (decide (h = h')) as [->|Hne].
    + left. apply drop_same.
    + right. exists h', i. by rewrite drop_other.
Qed.

(** ** Reachable worlds *)

Lemma spawn_framed t w :
  framed sync_part t → jobs_framed (pool w) →
  sync_part (comp (spawn t w)) = sync_part (comp w) ∧ jobs_framed (pool (spawn t w)).
Proof.
  intros Ht Hp. unfold spawn.
  pose proof (proceed_framed (nextJob w) t (comp w) (pool w) Ht Hp) as H.
  by destruct (proceed _ _ _ _).
Qed.

Lemma spawn_searches t w : searches (spawn t w) = searches w.
Proof. unfold spawn. by destruct (proceed _ _ _ _). Qed.

Lemma step_Good p0 loaded d w e w' :
  Good p0 loaded d w → step w e = Some w' → Good p0 loaded d w'.
Proof.
  intros [Hi Hj]. destruct e as [index v|index p|index| |index|index|index|h|j reply];
    unfold step.
  - case_decide; [|done]. intros [= <-]. split; [|done]. simpl.
    apply Inv_onRowInput. by apply (Inv_core _ _ _ (comp w)).
  - destruct (onPick index p (comp w)) as [c'|] eqn:E; simpl; [|done].
    intros [= <-]. split; [|done]. by eapply Inv_onPick.
  - destruct (clearRow index (comp w)) as [c'|] eqn:E; simpl; [|done].
    intros [= <-]. split; [|done]. by eapply Inv_clearRow.
  - intros [= <-]. split; [|done]. by apply Inv_addRow.
  - case_decide; [|done]. intros [= <-]. split; [|done]. by apply Inv_removeRow.
  - destruct (moveUp index (comp w)) as [c'|] eqn:E; simpl; [|done].
    intros [= <-]. split; [|done]. by eapply Inv_moveUp.
  - destruct (moveDown index (comp w)) as [c'|] eqn:E; simpl; [|done].
    intros [= <-]. split; [|done]. by eapply Inv_moveDown.
  - destruct (find_timer h (timers (comp w))) as [index|]; simpl; [|done].
    intros [= <-].
    match goal with |- Good _ _ _ (spawn ?t ?w0) =>
      destruct (spawn_framed t w0 (framed_searchCallback index) Hj) as [E Hp]
    end.
    split; [|done]. eapply Inv_core; [by apply sync_core|].
    by apply Inv_timer_fired.
  - destruct (find_job j (pool w)) as [jb|] eqn:E; simpl; [|done].
    pose proof (proceed_framed j (resume jb (reply (pending jb))) (comp w) (drop j (pool w))
                  (find_job_framed _ _ _ Hj E _) (jobs_framed_drop j _ Hj)) as [Es Hp].
    destruct (proceed _ _ _ _) as [c' p']. intros [= <-]. simpl in *.
    split; [|done]. eapply Inv_core; [by apply sync_core|done].
Qed.

Lemma steps_Good p0 loaded d es : ∀ w w',
  Good p0 loaded d w → steps w es = Some w' → Good p0 loaded d w'.
Proof.
  induction es as [|e es IH]; intros w w' Hg; simpl.
  - by intros [= <-].
  - destruct (step w e) as [w1|] eqn:E; simpl; [|done].
    apply IH. by eapply step_Good.
Qed.

Lemma steps_app w es1 es2 :
  steps w (es1 ++ es2) = w' ← steps w es1; steps w' es2.
Proof.
  revert w. induction es1 as [|e es IH]; intros w; simpl; [done|].
  destruct (step w e); simpl; auto.
Qed.

Lemma Inv_loadStart p h v detected pv :
  Inv p (length (parsedRows pv)) (mode p detected)
    (loadStart pv (set_displayMode (mode p detected) (initial p h v))).
Proof.
  unfold loadStart.
  set (c1 := renumberOrders _).
  apply (Inv_core _ _ _ (if displayMode c1 then c1 else ensureMinRows c1));
    [reflexivity|].
  assert (props c1 = p) as Hp by done.
  assert (displayMode c1 = mode p detected) as Hd by done.
  assert (rows c1 = renumber (parsedRows pv)) as Hr by done.
  assert (one_timer c1) as Ht by (by left).
  assert (numbered (rows c1)) as Hn by (rewrite Hr; apply renumber_numbered).
  assert (length (rows c1) = length (parsedRows pv)) as Hl
    by (by rewrite Hr, renumber_length).
  clearbody c1. rewrite Hd. destruct (mode p detected).
  - constructor; try done. lia.
  - apply Inv_ensureMinRows; try done. lia.
Qed.

Lemma spawn_eq t w :
  spawn t w
  = mkWorld (proceed (nextJob w) t (comp w) (pool w)).1
      (proceed (nextJob w) t (comp w) (pool w)).2 (S (nextJob w)) (searches w).
Proof. unfold spawn. by destruct (proceed _ _ _ _). Qed.

Lemma proceed_upd j f k c others :
  proceed j (Upd f k) c others = proceed j k (f c) others.
Proof. reflexivity. Qed.

Lemma proceed_get j k c others :
  proceed j (Get k) c others = proceed j (k c) c others.
Proof. reflexivity. Qed.

Lemma boot_unfold p h v detected pv :
  boot p h v detected pv
  = let c1 := loadStart pv (set_displayMode (mode p detected) (initial p h v)) in
    let r := proceed 0 (hydrate (entries (rows c1))) c1 [] in
    mkWorld r.1 r.2 1 [].
Proof.
  unfold boot. rewrite spawn_eq. cbn [comp pool nextJob searches].
  unfold firstUpdated, loadValue. rewrite !proceed_upd, proceed_get.
  reflexivity.
Qed.

Lemma boot_Good p h v detected pv :
  Good p (length (parsedRows pv)) (mode p detected) (boot p h v detected pv).
Proof.
  rewrite boot_unfold. cbv zeta.
  pose proof (Inv_loadStart p h v detected pv) as Hi.
  set (c1 := loadStart pv _) in *. clearbody c1.
  pose proof (proceed_framed 0 (hydrate (entries (rows c1))) c1 []
                (framed_hydrate _) (Forall_nil_2 _)) as [Es Hp].
  split; [|exact Hp]. cbn [comp].
  eapply Inv_core; [apply sync_core; exact Es|exact Hi].
Qed.

Lemma reaches_Good p h v detected pv es w :
  reaches p h v detected pv es w →
  Good p (length (parsedRows pv)) (mode p detected) w.
Proof. intros H. eapply steps_Good; [apply boot_Good|exact H]. Qed.

(** ** Numbering and bounds of the row collection *)

Lemma renumber_idempotent (rs : list Row) : renumber (renumber rs) = renumber rs.
Proof. apply numbered_fixed, renumber_numbered. Qed.

(** C8. In every state the element reaches (by loading any persisted value
    in either mode and then by any sequence of adds, removes, moves, picks,
    clears, inputs, timer expiries and settled calls), every row's [order]
    is its position plus one, so the orders of [N] rows are [1..N]; and
    [renumber] is idempotent. *)
Theorem orders_follow_positions p h v detected pv es w :
  reaches p h v detected pv es w →
  (∀ i r, rows (comp w) !! i = Some r → order r = i + 1)
  ∧ map order (rows (comp w)) = seq 1 (length (rows (comp w)))
  ∧ ∀ rs, renumber (renumber rs) = renumber rs.
Proof.
  intros H. apply reaches_Good in H as [[_ _ Hn _ _ _] _].
  split; [exact Hn|]. split; [by apply numbered_orders|apply renumber_idempotent].
Qed.

Lemma orders_follow_positions_witness :
  ∃ w, reaches defaults plain_host "[]" false (RowArray [mkRow 7 EmptyString])
         [Add; Pick 1 alice; MoveDown 0; Add; Remove 1; MoveUp 1] w
       ∧ map order (rows (comp w)) = [1; 2]
       ∧ map approver (rows (comp w)) = [EmptyString; "alice@x.com"].
Proof.
  eexists. split; [vm_compute; reflexivity|].
  split; [|reflexivity].
  refine (proj1 (proj2 (orders_follow_positions defaults plain_host "[]" false
            (RowArray [mkRow 7 EmptyString])
            [Add; Pick 1 alice; MoveDown 0; Add; Remove 1; MoveUp 1] _ _))).
  vm_compute; reflexivity.
Defined.

Lemma addRow_full c : maxRows (props c) ≤ length (rows c) → addRow c = c.
Proof.
  intros H. unfold addRow. destruct (displayMode c); [done|].
  by destruct (Nat.leb_spec (maxRows (props c)) (length (rows c))); [|lia].
Qed.

(** C3, counterexample. Loading a persisted value of three rows into an
    editable element whose [maxRows] is 2 leaves three rows: [loadValue]
    renumbers and backfills, and never truncates. *)
Lemma loaded_rows_exceed_maxRows :
  let w := boot at_most_two plain_host "[]" false three_rows in
  displayMode (comp w) = false
  ∧ length (rows (comp w)) = 3
  ∧ ¬ within_bounds (comp w).
Proof.
  cbv zeta. split; [reflexivity|]. split; [reflexivity|].
  intros H. destruct (H eq_refl) as [_ Hmax]. vm_compute in Hmax. lia.
Qed.

(** C3, as the code has it. In every editable state the element reaches,
    the collection has at least [minRows] rows, and at most [maxRows]
    provided the loaded value had at most [maxRows] rows and
    [minRows ≤ maxRows]; [addRow] changes nothing once [maxRows] rows are
    there, and [removeRow] with its refill leaves at least [minRows]. *)
Theorem row_bounds p h v detected pv es w :
  reaches p h v detected pv es w →
  displayMode (comp w) = false →
  minRows p ≤ length (rows (comp w))
  ∧ (minRows p ≤ maxRows p → length (parsedRows pv) ≤ maxRows p →
     length (rows (comp w)) ≤ maxRows p)
  ∧ (maxRows p ≤ length (rows (comp w)) → addRow (comp w) = comp w)
  ∧ (∀ index, minRows p ≤ length (rows (removeRow index (comp w)))).
Proof.
  intros H Hd. apply reaches_Good in H as [Hi _].
  pose proof Hi as [Hp Hm Hn Hmin Hmax Ht].
  assert (mode p detected = false) as Hf by congruence.
  split; [auto|]. split; [lia|]. split.
  - intros ?. apply addRow_full. by rewrite Hp.
  - intros index. apply (Inv_removeRow _ _ _ index) in Hi as [_ _ _ Hmin' _ _]. auto.
Qed.

Lemma row_bounds_witness :
  ∃ w, reaches at_most_two plain_host "[]" false (RowArray [mkRow 1 EmptyString])
         [Add; Add; Remove 0; Remove 0] w
       ∧ 1 ≤ length (rows (comp w)) ∧ length (rows (comp w)) ≤ 2.
Proof.
  eexists. split; [vm_compute; reflexivity|].
  refine (let H := row_bounds at_most_two plain_host "[]" false
                     (RowArray [mkRow 1 EmptyString])
                     [Add; Add; Remove 0; Remove 0] _ _ _ in _).
  - destruct H as (Hmin & Hmax & _).
    split; [exact Hmin|]. apply Hmax; vm_compute; lia.
  Unshelve.
  + vm_compute; reflexivity.
  + reflexivity.
Defined.

(** ** The debounce timer *)

(** One input event on a row of an editable element. *)
Lemma step_input w index v :
  index < length (rows (comp w)) →
  step w (Input index v)
  = Some (with_comp (onRowInput index v (set_dom (<[index := v]> (dom (comp w))) (comp w))) w).
Proof. intros H. unfold step. by case_decide. Qed.

Lemma input_effect w index v w' :
  displayMode (comp w) = false → one_timer (comp w) →
  step w (Input index v) = Some w' →
  pool w' = pool w ∧ searches w' = searches w
  ∧ rows (comp w') = rows (comp w) ∧ displayMode (comp w') = false
  ∧ props (comp w') = props (comp w)
  ∧ dom (comp w') !! index = Some v
  ∧ one_timer (comp w')
  ∧ timers (comp w')
    = if String.length v <? threshold (comp w) then []
      else [(nextTimer (comp w), index)].
Proof.
  intros Hd Ht. unfold step. case_decide; [|done]. intros [= <-].
  set (c0 := set_dom _ (comp w)).
  assert (one_timer c0) as Ht0 by (by apply (one_timer_eq (comp w))).
  pose proof (onRowInput_rows index v c0) as [= Ep Em Er Edom].
  cbn [comp pool searches with_comp].
  rewrite Ep, Em, Er, Edom. repeat split; try done.
  - subst c0. cbn [dom set_dom]. apply lookup_insert_eq.
  - by apply onRowInput_one_timer.
  - by rewrite onRowInput_timers.
Qed.

(** An input below the threshold removes the row's suggestions. *)
Lemma short_input_clears index v c :
  displayMode c = false → String.length v < threshold c →
  suggestions (onRowInput index v c) = delete index (suggestions c).
Proof.
  intros Hd Hl. unfold onRowInput. rewrite Hd.
  set (c1 := set_errorMsg _ _).
  pose proof (clearDebounce_rest c1) as [= Ep _ _ _ _ _ Es _].
  replace (threshold (clearDebounce c1)) with (threshold c)
    by (unfold threshold; by rewrite Ep).
  destruct (Nat.ltb_spec (String.length v) (threshold c)); [|lia].
  cbn [suggestions set_suggestions]. by rewrite Es.
Qed.

(** C9. The element has one debounce timer for all its rows: in every
    reachable state at most one search is scheduled, and an input event on
    any row removes whatever was scheduled before it, whichever row had
    scheduled it, so that timeout can no longer fire and never issues its
    search. *)
Theorem single_debounce_timer p h v detected pv es w :
  reaches p h v detected pv es w →
  length (timers (comp w)) ≤ 1
  ∧ ∀ index value w',
      step w (Input index value) = Some w' →
      ∀ t, t ∈ timers (comp w) →
        (t ∉ timers (comp w'))
        ∧ step w' (TimerFires t.1) = None
        ∧ searches w' = searches w.
Proof.
  intros H. apply reaches_Good in H as [[_ _ _ _ _ Ht] _].
  split.
  { destruct Ht as [E|(h0 & i & E & _)]; rewrite E; simpl; lia. }
  intros index value w' Hs t Hin.
  destruct Ht as [E|(h0 & i & E & Eb & Hlt & Hd)].
  { rewrite E in Hin. by apply elem_of_nil in Hin. }
  rewrite E in Hin. apply list_elem_of_singleton in Hin as ->.
  assert (one_timer (comp w)) as Ht by (right; eauto 10).
  destruct (input_effect w index value w' Hd Ht Hs) as (_ & Es & _ & _ & _ & _ & _ & Et).
  assert (find_timer h0 (timers (comp w')) = None) as Hf.
  { rewrite Et. destruct (_ <? _); [done|].
    unfold find_timer. simpl.
    destruct (Nat.eqb_spec (nextTimer (comp w)) h0); [lia|done]. }
  split; [|split; [|done]].
  - rewrite Et. destruct (_ <? _); [apply not_elem_of_nil|].
    intros Hin%list_elem_of_singleton. injection Hin as ? ?. lia.
  - unfold step. simpl. by rewrite Hf.
Qed.

Lemma single_debounce_timer_witness :
  ∃ w w',
    reaches defaults plain_host "[]" false NotArray [Add; Input 0 "al"] w
    ∧ timers (comp w) = [(1, 0)]
    ∧ step w (Input 1 "b") = Some w'
    ∧ step w' (TimerFires 1) = None.
Proof.
  do 2 eexists.
  split; [vm_compute; reflexivity|].
  split; [reflexivity|].
  split; [vm_compute; reflexivity|].
  refine (proj1 (proj2 (proj2 (single_debounce_timer defaults plain_host "[]" false NotArray
            [Add; Input 0 "al"] _ _) 1 "b" _ _ (1, 0) _))).
  - vm_compute; reflexivity.
  - vm_compute; reflexivity.
  - by apply list_elem_of_singleton.
Defined.

(** ** Debounce *)

Lemma threshold_props c c' : props c' = props c → threshold c' = threshold c.
Proof. unfold threshold. by intros ->. Qed.

Lemma burst_effect index : ∀ vs w v,
  displayMode (comp w) = false → one_timer (comp w) →
  index < length (rows (comp w)) →
  last vs = Some v →
  ∃ w', steps w (burst index vs) = Some w'
    ∧ pool w' = pool w ∧ searches w' = searches w
    ∧ dom (comp w') !! index = Some v
    ∧ (String.length v < threshold (comp w) →
       timers (comp w') = [] ∧ suggestions (comp w') !! index = None)
    ∧ (threshold (comp w) ≤ String.length v →
       ∃ h, timers (comp w') = [(h, index)]).
Proof.
  induction vs as [|v0 vs IH]; intros w v Hd Ht Hi Hl; [done|].
  cbn [burst map steps].
  rewrite step_input by done. cbn [mbind option_bind].
  set (w1 := with_comp _ w).
  assert (step w (Input index v0) = Some w1) as Hs by (by apply step_input).
  destruct (input_effect w index v0 w1 Hd Ht Hs)
    as (Ep & Es & Er & Hd1 & Epr & Edom & Ht1 & Et).
  destruct vs as [|v1 vs].
  - injection Hl as <-. exists w1. cbn [map steps].
    split; [done|]. split; [done|]. split; [done|]. split; [done|].
    split; [intros Hlt; split|].
    + rewrite Et. by destruct (Nat.ltb_spec (String.length v0) (threshold (comp w))); [|lia].
    + subst w1. cbn [comp with_comp].
      rewrite short_input_clears by done. apply lookup_delete_eq.
    + intros Hge. exists (nextTimer (comp w)). rewrite Et.
      by destruct (Nat.ltb_spec (String.length v0) (threshold (comp w))); [lia|].
  - destruct (IH w1 v Hd1 Ht1) as (w' & Hw' & Ep' & Es' & Edom' & Hshort & Hlong).
    { by rewrite Er. }
    { exact Hl. }
    exists w'. rewrite (threshold_props _ _ Epr) in Hshort, Hlong.
    split; [exact Hw'|]. split; [congruence|]. split; [congruence|].
    split; [exact Edom'|]. split; assumption.
Qed.

Lemma fire_effect w h index :
  timers (comp w) = [(h, index)] → jobs_framed (pool w) →
  ∃ w2, step w (TimerFires h) = Some w2
    ∧ searches w2 = searches w ++ [(index, default EmptyString (dom (comp w) !! index))]
    ∧ timers (comp w2) = [].
Proof.
  intros Et Hj. unfold step. rewrite Et.
  assert (find_timer h [(h, index)] = Some index) as ->
    by (unfold find_timer; simpl; by rewrite Nat.eqb_refl).
  cbn [mbind option_bind]. eexists. split; [reflexivity|].
  rewrite spawn_searches. split; [done|].
  match goal with |- timers (comp (spawn ?t ?w0)) = _ =>
    destruct (spawn_framed t w0 (framed_searchCallback index) Hj) as [E _]
  end.
  apply (f_equal (λ t, t.1.1.2)) in E. cbn [sync_part fst snd] in E.
  rewrite E. cbn [comp timers set_timers]. apply drop_same.
Qed.

(** ** When a dispatched search settles *)

(** The callback is suspended exactly where its search is, and concludes in
    the same turn in which the search ends. *)
Lemma advance_settle index (t : task (list Person)) : ∀ c,
  advance (settle index t) c
  = match advance t c with
    | (c', Done o) => (concluded index o c', Done (Fulfilled tt))
    | (c', Waiting cl k) => (c', Waiting cl (λ r, settle index (k r)))
    end.
Proof.
  unfold settle. induction t as [a|e|k IH|f k IH|cl k IH]; intros c; simpl; auto.
Qed.

Lemma page_part_fields c c' :
  page_part c' = page_part c →
  terms c' = terms c ∧ selections c' = selections c
  ∧ suggestions c' = suggestions c ∧ errorMsg c' = errorMsg c
  ∧ rows c' = rows c.
Proof.
  intros H. pose proof (page_sync _ _ H) as Hs.
  unfold page_part in H. injection H as _ Ht Hsel Hsug _ He.
  apply (f_equal (λ t, t.1.1.1.1.1.1.1.1.2)) in Hs. by cbn in Hs.
Qed.

(** C7, counterexample. The error of a failed search is kept in the single
    field [errorMsg]: after the searches of row 0 and then of row 1 have
    failed, the element is in the same state whatever the failure of row 0
    was, so no error of row 0 survives the failure of row 1. *)
Lemma search_error_is_component_wide :
  failed 1 "Graph /me/people search failed: 503 Service Unavailable"
    (failed 0 "Graph /me/people search failed: 429 Too Many Requests" two_rows)
  = failed 1 "Graph /me/people search failed: 503 Service Unavailable"
      (failed 0 "Failed to fetch" two_rows)
  ∧ ¬ row_scoped_errors.
Proof.
  assert (failed 1 "Graph /me/people search failed: 503 Service Unavailable"
            (failed 0 "Graph /me/people search failed: 429 Too Many Requests" two_rows)
          = failed 1 "Graph /me/people search failed: 503 Service Unavailable"
              (failed 0 "Failed to fetch" two_rows)) as E by reflexivity.
  split; [exact E|].
  intros [error_of H].
  destruct (H two_rows 0 "Graph /me/people search failed: 429 Too Many Requests") as [H1 _].
  destruct (H two_rows 0 "Failed to fetch") as [H2 _].
  destruct (H (failed 0 "Graph /me/people search failed: 429 Too Many Requests" two_rows)
              1 "Graph /me/people search failed: 503 Service Unavailable") as [_ H3].
  destruct (H (failed 0 "Failed to fetch" two_rows)
              1 "Graph /me/people search failed: 503 Service Unavailable") as [_ H4].
  specialize (H3 0 ltac:(lia)). specialize (H4 0 ltac:(lia)).
  rewrite E, H4, H2 in H3. rewrite H1 in H3. discriminate H3.
Qed.

(** C7, as the code has it. When the search of a row fails (the search [t],
    resumed in state [c], ends rejected with [reason]), the callback stores
    [reason] (or [Search error.]) in the one, component-wide [errorMsg],
    removes the suggestions of that row and leaves the suggestions of every
    other row, the terms, the selections and the rows as they were. *)
Theorem search_failure_is_local index (t : task (list Person)) c c' reason :
  framed page_part t →
  advance t c = (c', Done (Rejected reason)) →
  let c'' := (advance (settle index t) c).1 in
  errorMsg c'' = Js.or_else reason "Search error."
  ∧ suggestions c'' !! index = None
  ∧ (∀ other, other ≠ index → suggestions c'' !! other = suggestions c !! other)
  ∧ terms c'' = terms c ∧ selections c'' = selections c ∧ rows c'' = rows c
  ∧ loading c'' = false.
Proof.
  intros Hf Ha. cbv zeta. rewrite advance_settle, Ha. cbn [fst].
  destruct (advance_framed page_part t Hf c) as [Ep _]. rewrite Ha in Ep. cbn [fst] in Ep.
  apply page_part_fields in Ep as (Et & Esel & Esug & _ & Er).
  unfold concluded, searchFailed. cbn. rewrite Et, Esel, Esug, Er.
  repeat split; try done.
  - apply lookup_delete_eq.
  - intros other Hne. by apply lookup_delete_ne.
Qed.

(** The search for [al], dispatched on [signed_in] and answered with 503. *)
Lemma search_failure_is_local_witness :
  let t := resumed (resumed (graphSearch "al") signed_in outage) signed_in outage in
  let c'' := (advance (settle 0 t) signed_in).1 in
  errorMsg c'' = "Graph /me/people search failed: 503 Service Unavailable"
  ∧ suggestions c'' !! 0 = None
  ∧ suggestions c'' !! 1 = Some [alice].
Proof.
  intros t.
  destruct (search_failure_is_local 0 t signed_in signed_in
              "Graph /me/people search failed: 503 Service Unavailable")
    as (He & H0 & H1 & _).
  - do 2 apply framed_resumed. apply framed_graphSearch.
  - reflexivity.
  - split; [exact He|]. split; [exact H0|].
    rewrite (H1 1) by lia. reflexivity.
Defined.

(** C1, as the code has it. When a dispatched search of a row ends with
    results (the search [t], resumed in state [c], ends fulfilled), the
    callback stores them as the suggestions of that row, whatever the row's
    term is by then and whatever has been dispatched since: nothing in [c]
    is consulted, and the terms are left as they are. *)
Theorem search_result_applied_unconditionally index (t : task (list Person)) c c' results :
  framed page_part t →
  advance t c = (c', Done (Fulfilled results)) →
  let c'' := (advance (settle index t) c).1 in
  suggestions c'' = <[index := results]> (suggestions c)
  ∧ terms c'' = terms c ∧ selections c'' = selections c
  ∧ errorMsg c'' = errorMsg c ∧ loading c'' = false.
Proof.
  intros Hf Ha. cbv zeta. rewrite advance_settle, Ha. cbn [fst].
  destruct (advance_framed page_part t Hf c) as [Ep _]. rewrite Ha in Ep. cbn [fst] in Ep.
  apply page_part_fields in Ep as (Et & Esel & Esug & Ee & Er).
  unfold concluded, searchResolved. cbn. by rewrite Et, Esel, Esug, Ee.
Qed.

(** The search for [al], dispatched on [signed_in] and answered after the
    term of row 0 has become [alice]. *)
Lemma search_result_applied_unconditionally_witness :
  let t := resumed (resumed (resumed (graphSearch "al") signed_in service)
                      signed_in service) signed_in service in
  let c'' := (advance (settle 0 t) signed_in).1 in
  terms c'' !! 0 = Some "alice"
  ∧ suggestions c'' !! 0 = Some (map person_of (directory (peopleUrl "al" 8))).
Proof.
  intros t.
  destruct (search_result_applied_unconditionally 0 t signed_in signed_in
              (map person_of (directory (peopleUrl "al" 8))))
    as (Hs & Ht & _).
  - do 3 apply framed_resumed. apply framed_graphSearch.
  - reflexivity.
  - split; [by rewrite Ht|]. rewrite Hs. apply lookup_insert_eq.
Defined.

(** *** A stale response *)

(** C1, counterexample. The term of row 0 changed from [al] to [alice]
    while the search for [al] was in flight; the newer search for [alice]
    was started and answered; the late response to [al] is applied all the
    same and replaces the suggestions for [alice]. *)
Lemma stale_results_overwrite :
  let w0 := boot defaults plain_host "[]" false NotArray in
  ∃ w1 w2,
    steps w0 overtaken = Some w1
    ∧ awaited w1 = [Fetch (peopleUrl "al" 8)
                      [bearer "token"; ("ConsistencyLevel", "eventual")]]
    ∧ suggestions (comp w1) !! 0 = Some (map person_of (directory (peopleUrl "alice" 8)))
    ∧ steps w1 late_response = Some w2
    ∧ searches w2 = [(0, "al"); (0, "alice")]
    ∧ terms (comp w2) !! 0 = Some "alice"
    ∧ suggestions (comp w2) !! 0 = Some (map person_of (directory (peopleUrl "al" 8)))
    ∧ map person_of (directory (peopleUrl "al" 8))
      ≠ map person_of (directory (peopleUrl "alice" 8)).
Proof.
  cbv zeta. set (w0 := boot defaults plain_host "[]" false NotArray).
  assert (option_map (λ w, (awaited w, suggestions (comp w) !! 0)) (steps w0 overtaken)
          = Some ([Fetch (peopleUrl "al" 8) [bearer "token"; ("ConsistencyLevel", "eventual")]],
                  Some (map person_of (directory (peopleUrl "alice" 8))))) as H1
    by (vm_compute; reflexivity).
  assert (option_map (λ w, (searches w, terms (comp w) !! 0, suggestions (comp w) !! 0))
            (steps w0 (overtaken ++ late_response))
          = Some ([(0, "al"); (0, "alice")], Some "alice",
                  Some (map person_of (directory (peopleUrl "al" 8))))) as H2
    by (vm_compute; reflexivity).
  rewrite steps_app in H2.
  destruct (steps w0 overtaken) as [w1|] eqn:E1; [|discriminate H1].
  cbn [mbind option_bind] in H2.
  destruct (steps w1 late_response) as [w2|] eqn:E2; [|discriminate H2].
  injection H1 as Ha Hs. injection H2 as Hq Ht Hg.
  exists w1, w2. repeat split; done.
Qed.

(** ** Tasks run alone *)

Lemma run_bind {A B} (t : task A) (f : A → task B) env : ∀ n c,
  run (bind t f) env n c
  = let '(c1, o1, tr1) := run t env n c in
    match o1 with
    | Fulfilled a =>
        let '(c2, o2, tr2) := run (f a) env (n + length tr1) c1 in
        (c2, o2, tr1 ++ tr2)
    | Rejected e => (c1, Rejected e, tr1)
    end.
Proof.
  induction t as [a|e|k IH|g k IH|cl k IH]; intros n c; simpl; auto.
  - rewrite Nat.add_0_r. destruct (run (f a) env n c) as [[? ?] ?]. reflexivity.
  - rewrite IH. destruct (run (k (env n cl)) env (S n) c) as [[c1 [a|e]] tr1]; simpl; [|done].
    replace (n + S (length tr1)) with (S (n + length tr1)) by lia.
    cbn [Nat.add]. destruct (run (f a) env (S (n + length tr1)) c1) as [[? ?] ?].
    reflexivity.
Qed.

Lemma run_try_catch {A} (t : task A) (h : string → task A) env : ∀ n c,
  run (try_catch t h) env n c
  = let '(c1, o1, tr1) := run t env n c in
    match o1 with
    | Fulfilled a => (c1, Fulfilled a, tr1)
    | Rejected e =>
        let '(c2, o2, tr2) := run (h e) env (n + length tr1) c1 in
        (c2, o2, tr1 ++ tr2)
    end.
Proof.
  induction t as [a|e|k IH|g k IH|cl k IH]; intros n c; simpl; auto.
  - rewrite Nat.add_0_r. destruct (run (h e) env n c) as [[? ?] ?]. reflexivity.
  - rewrite IH. destruct (run (k (env n cl)) env (S n) c) as [[c1 [a|e]] tr1]; simpl; [done|].
    replace (n + S (length tr1)) with (S (n + length tr1)) by lia.
    cbn [Nat.add]. destruct (run (h e) env (S (n + length tr1)) c1) as [[? ?] ?].
    reflexivity.
Qed.

Lemma run_finally {A} (t : task A) f env : ∀ n c,
  run (finally t f) env n c
  = let '(c1, o1, tr1) := run t env n c in (f c1, o1, tr1).
Proof.
  induction t as [a|e|k IH|g k IH|cl k IH]; intros n c; simpl; auto.
  rewrite IH. by destruct (run (k (env n cl)) env (S n) c) as [[? ?] ?].
Qed.

Lemma run_upd {A} f (k : task A) env n c : run (Upd f k) env n c = run k env n (f c).
Proof. reflexivity. Qed.

Lemma run_get {A} (k : Comp → task A) env n c : run (Get k) env n c = run (k c) env n c.
Proof. reflexivity. Qed.

Lemma run_framed {X} (π : Comp → X) {A} (t : task A) env :
  framed π t → ∀ n c, π (run t env n c).1.1 = π c.
Proof.
  induction 1 as [a|e|k Hk IH|f k Hf Hk IH|cl k Hk IH]; intros n c; simpl; auto.
  - by rewrite IH, Hf.
  - specialize (IH (env n cl) (S n) c).
    by destruct (run (k (env n cl)) env (S n) c) as [[? ?] ?].
Qed.

(** ** Token acquisition *)

Lemma ensureAccount_reuses sc c m a :
  msal c = Some m → knownAccount m = Some a →
  advance (ensureAccount sc) c = (set_account (Some a) c, Done (Fulfilled tt)).
Proof.
  intros Hm Hk. unfold ensureAccount, ensureMsal. simpl. rewrite Hm. simpl.
  by rewrite Hm, Hk.
Qed.

Lemma ensureAccount_prompts sc c m :
  msal c = Some m → knownAccount m = None →
  ∃ k, advance (ensureAccount sc) c = (set_account None c, Waiting (LoginPopup sc) k)
       ∧ ∀ a, ∃ c', advance (k (Fulfilled a)) (set_account None c) = (c', Done (Fulfilled tt))
                    ∧ has_account c'.
Proof.
  intros Hm Hk. unfold ensureAccount, ensureMsal. simpl. rewrite Hm. simpl.
  rewrite Hm, Hk. simpl. eexists. split; [reflexivity|].
  intros a. simpl. eexists. split; [reflexivity|].
  unfold has_account. simpl. rewrite Hm. simpl. by eexists _, _.
Qed.

Lemma run_getAccessToken_known sc env n c :
  has_account c →
  logins (run (getAccessToken sc) env n c).2 = 0
  ∧ has_account (run (getAccessToken sc) env n c).1.1.
Proof.
  intros (m & a & Hm & Hk). unfold getAccessToken, ensureAccount, ensureMsal.
  simpl. rewrite Hm. simpl. rewrite Hm, Hk. simpl.
  destruct (env n _) as [tok|e]; simpl.
  - split; [done|]. by exists m, a.
  - destruct (env (S n) _) as [tok|e']; simpl; (split; [done|]); by exists m, a.
Qed.

Lemma run_getAccessToken_fresh sc env n c :
  no_account c →
  (∀ k, ∃ a, env k (LoginPopup sc) = Fulfilled a) →
  logins (run (getAccessToken sc) env n c).2 = 1
  ∧ has_account (run (getAccessToken sc) env n c).1.1.
Proof.
  intros Hno Hlogin. unfold no_account in Hno.
  unfold getAccessToken, ensureAccount, ensureMsal. simpl.
  destruct (msal c) as [m|] eqn:Hm; simpl.
  - rewrite Hm, Hno. simpl.
    destruct (Hlogin n) as [a ->]. simpl.
    destruct (env (S n) _) as [tok|e]; simpl.
    + split; [done|]. unfold has_account. rewrite Hm. simpl. by eexists _, _.
    + destruct (env (S (S n)) _) as [tok|e']; simpl; (split; [done|]);
        unfold has_account; rewrite Hm; simpl; by eexists _, _.
  - destruct Hno as (Ha & Hl & Hc). rewrite Hc. simpl.
    unfold knownAccount. simpl. rewrite Ha, Hl. simpl.
    destruct (Hlogin (S (S n))) as [a ->]. simpl.
    destruct (env (S (S (S n))) _) as [tok|e]; simpl.
    + split; [done|]. unfold has_account. simpl. by eexists _, _.
    + destruct (env (S (S (S (S n)))) _) as [tok|e']; simpl; (split; [done|]);
        unfold has_account; simpl; by eexists _, _.
Qed.

(** C2, counterexample. Two credential requests issued before any account
    exists open two sign-in popups: [ensureAccount] finds no account in
    either call and calls [loginPopup] in both, and nothing serialises them. *)
Lemma two_prompts_in_flight :
  ∃ w, steps (boot defaults plain_host "[]" false NotArray) two_searches = Some w
       ∧ awaited w = [LoginPopup ["People.Read"; "User.Read"];
                      LoginPopup ["People.Read"; "User.Read"]]
       ∧ ¬ single_flight w.
Proof.
  assert (option_map awaited
            (steps (boot defaults plain_host "[]" false NotArray) two_searches)
          = Some [LoginPopup ["People.Read"; "User.Read"];
                  LoginPopup ["People.Read"; "User.Read"]]) as H
    by (vm_compute; reflexivity).
  destruct (steps _ two_searches) as [w|]; [|discriminate H].
  injection H as H. exists w. split; [done|]. split; [done|].
  unfold single_flight. rewrite H. simpl. lia.
Qed.

(** C2, as the code has it. There is no lock: a credential request calls
    [loginPopup] exactly when MSAL knows no account at the moment the
    request looks, and otherwise reuses the known account without any
    prompt; a fulfilled sign-in makes its account the active one.  Hence two
    requests made one after the other, starting without an account and with
    a sign-in that succeeds, open one popup in all, whereas requests that
    both look before the first sign-in has completed each open their own. *)
Theorem login_only_without_account sc :
  (∀ c m a, msal c = Some m → knownAccount m = Some a →
     advance (ensureAccount sc) c = (set_account (Some a) c, Done (Fulfilled tt)))
  ∧ (∀ c m, msal c = Some m → knownAccount m = None →
       ∃ k, advance (ensureAccount sc) c = (set_account None c, Waiting (LoginPopup sc) k)
            ∧ ∀ a, ∃ c', advance (k (Fulfilled a)) (set_account None c)
                          = (c', Done (Fulfilled tt))
                         ∧ has_account c')
  ∧ (∀ env c,
       no_account c →
       (∀ k, ∃ a, env k (LoginPopup sc) = Fulfilled a) →
       let first := run (getAccessToken sc) env 0 c in
       let second := run (getAccessToken sc) env (length first.2) first.1.1 in
       logins first.2 = 1 ∧ logins second.2 = 0).
Proof.
  split; [|split].
  - intros c m a. apply ensureAccount_reuses.
  - intros c m. apply ensureAccount_prompts.
  - intros env c Hno Hlogin. cbv zeta.
    destruct (run_getAccessToken_fresh sc env 0 c Hno Hlogin) as [H1 Hacc].
    split; [exact H1|].
    by apply run_getAccessToken_known.
Qed.

Lemma login_only_without_account_witness :
  let sc := ["People.Read"; "User.Read"] in
  let c := initial defaults plain_host "[]" in
  let first := run (getAccessToken sc) (λ _, service) 0 c in
  let second := run (getAccessToken sc) (λ _, service) (length first.2) first.1.1 in
  first.2 = [MsalInitialize; MsalHandleRedirect; LoginPopup sc;
             AcquireTokenSilent sc (Some (mkAccount "user@x.com"))]
  ∧ logins first.2 = 1 ∧ logins second.2 = 0.
Proof.
  intros sc c first second. split; [reflexivity|].
  refine (proj2 (proj2 (login_only_without_account sc)) (λ _, service) c _ _).
  - unfold no_account. simpl. auto.
  - intros k. by eexists.
Defined.

(** ** Display mode: searching and resolving *)

Lemma fetched_app tr1 tr2 : fetched (tr1 ++ tr2) = fetched tr1 ++ fetched tr2.
Proof. unfold fetched. apply omap_app. Qed.

Lemma sync_props c c' : sync_part c' = sync_part c →
  props c' = props c ∧ displayMode c' = displayMode c.
Proof.
  intros H. split.
  - exact (f_equal (λ t, t.1.1.1.1.1.1.1.1.1.1.1) H).
  - exact (f_equal (λ t, t.1.1.1.1.1.1.2) H).
Qed.

Lemma run_getAccessToken_ok sc env n c :
  Js.truthy (clientId (props c)) = true → auth_ok env →
  ∃ tok, (run (getAccessToken sc) env n c).1.2 = Fulfilled tok
         ∧ fetched (run (getAccessToken sc) env n c).2 = [].
Proof.
  intros Hc [Hlogin Hsilent].
  unfold getAccessToken, ensureAccount, ensureMsal. simpl.
  destruct (msal c) as [m|] eqn:Hm; simpl.
  - rewrite Hm. destruct (knownAccount m) as [a|]; simpl.
    + match goal with |- context [env ?k (AcquireTokenSilent ?s ?ac)] =>
        destruct (Hsilent k s ac) as [tok ->] end.
      simpl. by exists tok.
    + destruct (Hlogin n sc) as [a ->]. simpl.
      match goal with |- context [env ?k (AcquireTokenSilent ?s ?ac)] =>
        destruct (Hsilent k s ac) as [tok ->] end.
      simpl. by exists tok.
  - rewrite Hc. simpl.
    destruct (knownAccount _) as [a|]; simpl.
    + match goal with |- context [env ?k (AcquireTokenSilent ?s ?ac)] =>
        destruct (Hsilent k s ac) as [tok ->] end.
      simpl. by exists tok.
    + destruct (Hlogin (S (S n)) sc) as [a ->]. simpl.
      match goal with |- context [env ?k (AcquireTokenSilent ?s ?ac)] =>
        destruct (Hsilent k s ac) as [tok ->] end.
      simpl. by exists tok.
Qed.

Lemma run_fetchUserDetails email env n c :
  Js.truthy (clientId (props c)) = true → auth_ok env →
  fetched (run (fetchUserDetails email) env n c).2 = [userUrl email].
Proof.
  intros Hc Hok. unfold fetchUserDetails. cbn [run]. rewrite run_bind.
  destruct (run_getAccessToken_ok (scopes c) env n c Hc Hok) as (tok & Ho & Hf).
  destruct (run (getAccessToken (scopes c)) env n c) as [[c1 o1] tr1].
  cbn [fst snd] in Ho, Hf. subst o1.
  unfold await. cbn [bind run].
  destruct (env (n + length tr1) _) as [res|e]; cbn [bind run].
  - destruct (ok res); cbn [bind run].
    + destruct (env (S (n + length tr1)) _) as [u|e]; cbn [bind run snd];
        by rewrite fetched_app, Hf.
    + cbn [snd]. by rewrite fetched_app, Hf.
  - cbn [snd]. by rewrite fetched_app, Hf.
Qed.

Lemma run_hydrateRow i row env n c :
  Js.truthy (clientId (props c)) = true → auth_ok env →
  fetched (run (hydrateRow i row) env n c).2
  = (if Js.truthy (approver row) then [userUrl (approver row)] else [])
  ∧ (run (hydrateRow i row) env n c).1.2 = Fulfilled tt.
Proof.
  intros Hc Hok. unfold hydrateRow.
  destruct (Js.truthy (approver row)); [|done].
  rewrite run_try_catch, run_bind.
  pose proof (run_fetchUserDetails (approver row) env n c Hc Hok) as Hf.
  destruct (run (fetchUserDetails (approver row)) env n c) as [[c1 [user|e]] tr1];
    cbn [fst snd run] in *; rewrite fetched_app, Hf; done.
Qed.

Lemma run_hydrate env : ∀ es n c,
  Js.truthy (clientId (props c)) = true → auth_ok env →
  fetched (run (hydrate es) env n c).2
  = map userUrl (List.filter Js.truthy (map (λ e, approver e.2) es)).
Proof.
  induction es as [|[i row] es IH]; intros n c Hc Hok; [done|].
  cbn [hydrate]. rewrite run_bind.
  destruct (run_hydrateRow i row env n c Hc Hok) as [Hf Ho].
  pose proof (run_framed sync_part (hydrateRow i row) env (framed_hydrateRow i row) n c) as Hs.
  destruct (run (hydrateRow i row) env n c) as [[c1 o1] tr1].
  cbn [fst snd] in *. subst o1.
  apply sync_props in Hs as [Hp _].
  specialize (IH (n + length tr1) c1 ltac:(by rewrite Hp) Hok).
  destruct (run (hydrate es) env (n + length tr1) c1) as [[c2 o2] tr2].
  cbn [fst snd map List.filter] in *. rewrite fetched_app, Hf, IH.
  by destruct (Js.truthy (approver row)).
Qed.

Lemma entries_approvers (rs : list Row) :
  map (λ e : nat * Row, approver e.2) (entries (renumber rs)) = map approver rs.
Proof.
  apply list_eq. intros i. unfold entries.
  rewrite !list_lookup_fmap, list_lookup_imap, renumber_lookup.
  by destruct (rs !! i).
Qed.

(** C10. Display mode stops the search and nothing else.  [graphSearch]
    returns the empty list at once, without a call and without touching the
    state.  [loadValue] in display mode still resolves every row that has an
    approver key: with a client configured and token acquisition working,
    the requests it makes are exactly the by-key lookups of those rows, in
    row order, each after [getAccessToken] (which signs in through the
    popup if no account is known). *)
Theorem display_mode_gates_search_only :
  (∀ term c, displayMode c = true →
     advance (graphSearch term) c = (c, Done (Fulfilled [])))
  ∧ (∀ env n pv c,
       displayMode c = true →
       Js.truthy (clientId (props c)) = true →
       auth_ok env →
       let r := run (loadValue pv) env n c in
       fetched r.2 = map userUrl (List.filter Js.truthy (map approver (parsedRows pv)))
       ∧ displayMode r.1.1 = true).
Proof.
  split.
  - intros term c Hd. unfold graphSearch. simpl. by rewrite Hd.
  - intros env n pv c Hd Hc Hok. cbv zeta.
    unfold loadValue. cbn [run].
    set (c1 := loadStart pv c).
    assert (rows c1 = renumber (parsedRows pv) ∧ props c1 = props c
            ∧ displayMode c1 = true) as (Hr & Hp & Hd1).
    { subst c1. unfold loadStart. cbn. rewrite Hd. cbn. by rewrite Hd. }
    split.
    + rewrite run_hydrate by (by rewrite ?Hp). by rewrite Hr, entries_approvers.
    + pose proof (run_framed sync_part _ env (framed_hydrate (entries (rows c1))) n c1) as Hs.
      apply sync_props in Hs as [_ Hm]. by rewrite Hm.
Qed.

(** Two persisted rows with a key and one without, loaded in display mode on
    a page without any account: the sign-in popup opens, and the two keys
    are looked up. *)
Lemma display_mode_gates_search_only_witness :
  let c := initial defaults plain_host "[]" in
  let pv := RowArray [mkRow 1 "alice@x.com"; mkRow 2 EmptyString; mkRow 3 "bob@x.com"] in
  let r := run (loadValue pv) (λ _, service) 0 c in
  displayMode c = true
  ∧ fetched r.2 = [userUrl "alice@x.com"; userUrl "bob@x.com"]
  ∧ logins r.2 = 1
  ∧ advance (graphSearch "al") r.1.1 = (r.1.1, Done (Fulfilled [])).
Proof.
  intros c pv r.
  destruct display_mode_gates_search_only as [Hsearch Hload].
  destruct (Hload (λ _, service) 0 pv c eq_refl eq_refl) as [Hf Hd].
  { split; intros; by eexists. }
  split; [reflexivity|]. split; [exact Hf|]. split; [by vm_compute|].
  apply Hsearch. exact Hd.
Defined.

(** ** The search a timeout starts *)

(** A burst starts no callback. *)
Lemma burst_nextJob index : ∀ vs w w',
  steps w (burst index vs) = Some w' → nextJob w' = nextJob w.
Proof.
  induction vs as [|v vs IH]; intros w w'; cbn [burst map steps].
  - by intros [= <-].
  - unfold step at 1. case_decide; [|done]. cbn [mbind option_bind].
    intros Hs. by rewrite (IH _ _ Hs).
Qed.

(** The callback of a row is one [graphSearch] on the text of the row's
    input, inside the [try]/[catch]/[finally] of [settle]. *)
Lemma proceed_searchCallback j index term c others :
  dom c !! index = Some term →
  proceed j (searchCallback index) c others
  = proceed j (settle index (graphSearch term)) (set_loading true c) others.
Proof.
  intros Hdom. unfold searchCallback. rewrite proceed_upd, proceed_get.
  cbn [dom set_loading]. by rewrite Hdom.
Qed.

(** When the one pending timeout fires, its callback is started, and the
    world moves as that one search makes it move. *)
Lemma fire_runs_search w h index term :
  timers (comp w) = [(h, index)] → dom (comp w) !! index = Some term →
  ∃ w2, step w (TimerFires h) = Some w2
    ∧ nextJob w2 = S (nextJob w)
    ∧ (comp w2, pool w2)
      = proceed (nextJob w) (settle index (graphSearch term))
          (set_loading true (set_timers [] (comp w))) (pool w).
Proof.
  intros Et Hdom. unfold step. rewrite Et.
  assert (find_timer h [(h, index)] = Some index) as ->
    by (unfold find_timer; simpl; by rewrite Nat.eqb_refl).
  cbn [mbind option_bind]. eexists. split; [reflexivity|].
  rewrite spawn_eq. cbn [comp pool nextJob]. split; [done|].
  rewrite drop_same, (proceed_searchCallback _ _ term) by done.
  by destruct (proceed _ _ _ _).
Qed.

(** The requests of a callback run alone: one, for the text of the input. *)
Lemma run_graphSearch_fetches term env n c :
  displayMode c = false → Js.truthy (clientId (props c)) = true → auth_ok env →
  fetched (run (graphSearch term) env n c).2 = [searchUrl c term].
Proof.
  intros Hd Hc Hok. unfold graphSearch. cbn [run]. rewrite Hd, run_bind.
  destruct (run_getAccessToken_ok (scopes c) env n c Hc Hok) as (tok & Ho & Hf).
  pose proof (run_framed page_part _ env (framed_getAccessToken (scopes c)) n c) as Hp.
  destruct (run (getAccessToken (scopes c)) env n c) as [[c1 o1] tr1].
  cbn [fst snd] in Ho, Hf, Hp. subst o1.
  apply page_sync, sync_props in Hp as [Hp _].
  assert (searchUrl c1 term = searchUrl c term) as Eu
    by (unfold searchUrl, top; by rewrite Hp).
  cbn [run]. rewrite run_bind. unfold await at 1. cbn [run].
  destruct (env (n + length tr1) _) as [res|e]; cbn [fst snd run app length].
  - destruct (ok res); cbn [run].
    + rewrite run_bind. unfold await. cbn [run].
      destruct (env _ (JsonList res)) as [data|e]; cbn [run fst snd app];
        by rewrite fetched_app, Hf, Eu.
    + cbn [fst snd app]. by rewrite fetched_app, Hf, Eu.
  - by rewrite fetched_app, Hf, Eu.
Qed.

Lemma run_searchCallback_fetches index term env n c :
  displayMode c = false → Js.truthy (clientId (props c)) = true → auth_ok env →
  dom c !! index = Some term →
  fetched (run (searchCallback index) env n c).2 = [searchUrl c term].
Proof.
  intros Hd Hc Hok Hdom. unfold searchCallback. rewrite run_upd, run_get.
  cbn [dom set_loading]. rewrite Hdom.
  change (default EmptyString (Some term)) with term. unfold settle.
  rewrite run_finally, run_try_catch, run_bind.
  pose proof (run_graphSearch_fetches term env n (set_loading true c) Hd Hc Hok) as Hf.
  destruct (run (graphSearch term) env n (set_loading true c)) as [[c1 [results|e]] tr1];
    cbn [fst snd run] in *; by rewrite ?app_nil_r.
Qed.

(** C6. On an editable element, a burst of keystrokes on one row starts no
    callback and adds no awaited call while it lasts.  When the last term of
    the burst has at least [minChars || 2] characters, exactly one timeout is
    pending after the burst; when it fires, one callback is started, nothing
    remains scheduled, and the element and its awaited calls move exactly as
    one call [graphSearch(term)] with the last term, inside the callback's
    [try]/[catch]/[finally], makes them move; run against a page with a
    client ID and working sign-in, that callback sends exactly one request,
    the search for the last term.  When the last term is shorter, nothing is
    scheduled and the row has no suggestions.  And any single keystroke
    below the threshold removes the row's suggestions, leaves no timeout
    pending, starts no callback and adds no awaited call. *)
Theorem debounce_burst p h v detected pv es w index vs term :
  reaches p h v detected pv es w →
  displayMode (comp w) = false →
  index < length (rows (comp w)) →
  last vs = Some term →
  (∃ w1, steps w (burst index vs) = Some w1
     ∧ pool w1 = pool w ∧ nextJob w1 = nextJob w
     ∧ if String.length term <? threshold (comp w)
       then timers (comp w1) = [] ∧ suggestions (comp w1) !! index = None
       else ∃ t w2,
              timers (comp w1) = [(t, index)]
              ∧ step w1 (TimerFires t) = Some w2
              ∧ timers (comp w2) = []
              ∧ nextJob w2 = S (nextJob w1)
              ∧ (comp w2, pool w2)
                = proceed (nextJob w1) (settle index (graphSearch term))
                    (set_loading true (set_timers [] (comp w1))) (pool w1)
              ∧ ∀ env n,
                  Js.truthy (clientId p) = true → auth_ok env →
                  fetched (run (searchCallback index) env n
                             (set_timers [] (comp w1))).2
                  = [searchUrl (comp w1) term])
  ∧ ∀ short w', String.length short < threshold (comp w) →
      step w (Input index short) = Some w' →
      suggestions (comp w') !! index = None
      ∧ timers (comp w') = []
      ∧ pool w' = pool w ∧ nextJob w' = nextJob w.
Proof.
  intros H Hd Hi Hl. apply reaches_Good in H. pose proof H as [[_ Hm _ _ _ Ht] Hj].
  split.
  - destruct (burst_effect index vs w term Hd Ht Hi Hl)
      as (w1 & Hw1 & Ep & _ & Edom & Hshort & Hlong).
    exists w1. split; [done|]. split; [done|].
    split; [by eapply burst_nextJob|].
    destruct (Nat.ltb_spec (String.length term) (threshold (comp w))) as [Hlt|Hge].
    + by apply Hshort.
    + destruct (Hlong Hge) as [t Et].
      destruct (fire_runs_search w1 t index term Et Edom) as (w2 & Hs2 & En2 & Erun).
      destruct (fire_effect w1 t index Et) as (w2' & Hs2' & _ & Et2).
      { by rewrite Ep. }
      rewrite Hs2 in Hs2'. injection Hs2' as <-.
      exists t, w2. split; [done|]. split; [done|]. split; [done|].
      split; [done|]. split; [done|].
      intros env n Hc Hok.
      pose proof (steps_Good _ _ _ _ _ _ H Hw1) as [[Hp1 Hd1 _ _ _ _] _].
      change (searchUrl (comp w1) term) with (searchUrl (set_timers [] (comp w1)) term).
      apply run_searchCallback_fetches; cbn [displayMode props dom set_timers];
        [congruence|by rewrite Hp1|done|done].
  - intros short w' Hlt Hs.
    destruct (input_effect w index short w' Hd Ht Hs) as (Ep & _ & _ & _ & _ & _ & _ & Et).
    rewrite step_input in Hs by done. injection Hs as <-.
    cbn [comp with_comp] in *. rewrite short_input_clears by done.
    split; [apply lookup_delete_eq|]. split; [|done].
    rewrite Et.
    by destruct (Nat.ltb_spec (String.length short) (threshold (comp w))); [|lia].
Qed.

(** The example of the specification: [minChars = 2], [a] then [al]. *)
Lemma debounce_burst_witness :
  let w := boot defaults plain_host "[]" false NotArray in
  ∃ w1 w2,
    steps w (burst 0 ["a"; "al"]) = Some w1
    ∧ step w1 (TimerFires 1) = Some w2
    ∧ timers (comp w2) = []
    ∧ nextJob w2 = S (nextJob w)
    ∧ fetched (run (searchCallback 0) (λ _, service) 0 (set_timers [] (comp w1))).2
      = [peopleUrl "al" 8].
Proof.
  intros w.
  assert (displayMode (comp w) = false) as Hd by (vm_compute; reflexivity).
  assert (0 < length (rows (comp w))) as Hi by (vm_compute; lia).
  assert ((String.length "al" <? threshold (comp w)) = false) as Hth
    by (vm_compute; reflexivity).
  destruct (debounce_burst defaults plain_host "[]" false NotArray [] w 0
              ["a"; "al"] "al" eq_refl Hd Hi eq_refl)
    as [(w1 & Hw1 & _ & En & Hfire) _].
  rewrite Hth in Hfire. destruct Hfire as (t & w2 & Et & Hs2 & Et2 & En2 & _ & Hrun).
  exists w1, w2.
  assert (auth_ok (λ _, service)) as Hok by (split; intros; by eexists).
  specialize (Hrun (λ _, service) 0 eq_refl Hok).
  vm_compute in Hw1. injection Hw1 as <-.
  assert (t = 1) as -> by (vm_compute in Et; congruence).
  split; [vm_compute; reflexivity|]. split; [exact Hs2|]. split; [exact Et2|].
  split; [by rewrite En2|]. exact Hrun.
Defined.

(** * The handlers, the event loop and the directory in detail *)

(** ** Moving rows *)

Lemma swap_keys_lookup {V} (i j k : nat) (m : gmap nat V) :
  swap_keys i j m !! k = m !! exchanged i j k.
Proof.
  unfold swap_keys, assign, exchanged.
  destruct (decide (i = j)) as [Eij|Hij];
    destruct (m !! i) as [x|] eqn:Ei, (m !! j) as [y|] eqn:Ej;
    repeat case_decide; simplify_map_eq; done.
Qed.

Lemma exchanged_involutive i j k : exchanged i j (exchanged i j k) = k.
Proof. unfold exchanged. repeat case_decide; congruence. Qed.

Lemma swapped_rows_lookup (rs : list Row) i j a b k :
  rs !! i = Some a → rs !! j = Some b →
  <[j := a]> (<[i := b]> rs) !! k = rs !! exchanged i j k.
Proof.
  intros Ha Hb. unfold exchanged.
  assert (i < length rs) by (by eapply lookup_lt_Some).
  assert (j < length rs) by (by eapply lookup_lt_Some).
  destruct (decide (k = j)) as [->|Hj].
  - rewrite list_lookup_insert_eq by (by rewrite length_insert).
    case_decide; congruence.
  - rewrite list_lookup_insert_ne by done.
    destruct (decide (k = i)) as [->|Hi].
    + by rewrite list_lookup_insert_eq.
    + by rewrite list_lookup_insert_ne.
Qed.

Lemma after_swap_lookup i j c c1 k :
  swap_rows i j c = Some c1 →
  rows (after_move c1) !! k
    = (λ r, mkRow (k + 1) (approver r)) <$> rows c !! exchanged i j k
  ∧ terms (after_move c1) !! k = terms c !! exchanged i j k
  ∧ selections (after_move c1) !! k = selections c !! exchanged i j k
  ∧ suggestions (after_move c1) !! k = suggestions c !! exchanged i j k.
Proof.
  unfold swap_rows. destruct (rows c !! i) as [a|] eqn:Ea; [|done].
  destruct (rows c !! j) as [b|] eqn:Eb; [|done]. intros [= <-].
  unfold after_move.
  rewrite rows_saveValue, terms_saveValue, selections_saveValue, suggestions_saveValue.
  cbn [rows terms selections suggestions renumberOrders set_rows set_renderTick
         set_terms set_selections set_suggestions].
  rewrite renumber_lookup, (swapped_rows_lookup _ i j a b k Ea Eb), !swap_keys_lookup.
  done.
Qed.

Lemma exchanged_comm i j k : exchanged i j k = exchanged j i k.
Proof. unfold exchanged. repeat case_decide; congruence. Qed.

Lemma swap_rows_some i j c :
  i < length (rows c) → j < length (rows c) → is_Some (swap_rows i j c).
Proof.
  intros Hi Hj. unfold swap_rows.
  destruct (lookup_lt_is_Some_2 _ _ Hi) as [a ->].
  destruct (lookup_lt_is_Some_2 _ _ Hj) as [b ->]. by eexists.
Qed.

Lemma after_move_length i j c c1 :
  swap_rows i j c = Some c1 → length (rows (after_move c1)) = length (rows c).
Proof.
  unfold swap_rows. destruct (rows c !! i) as [a|]; [|done].
  destruct (rows c !! j) as [b|]; [|done]. intros [= <-].
  unfold after_move. rewrite rows_saveValue. cbn.
  by rewrite renumber_length, !length_insert.
Qed.

Lemma after_move_mode i j c c1 :
  swap_rows i j c = Some c1 → displayMode (after_move c1) = displayMode c.
Proof.
  unfold swap_rows. destruct (rows c !! i) as [a|]; [|done].
  destruct (rows c !! j) as [b|]; [|done]. intros [= <-].
  unfold after_move. by rewrite displayMode_saveValue.
Qed.

Lemma move_view i j c :
  displayMode c = false → i < length (rows c) → j < length (rows c) →
  ∃ c1, swap_rows i j c = Some c1
    ∧ length (rows (after_move c1)) = length (rows c)
    ∧ displayMode (after_move c1) = false
    ∧ ∀ k,
        rows (after_move c1) !! k
          = (λ r, mkRow (k + 1) (approver r)) <$> rows c !! exchanged i j k
        ∧ terms (after_move c1) !! k = terms c !! exchanged i j k
        ∧ selections (after_move c1) !! k = selections c !! exchanged i j k
        ∧ suggestions (after_move c1) !! k = suggestions c !! exchanged i j k.
Proof.
  intros Hd Hi Hj. destruct (swap_rows_some i j c Hi Hj) as [c1 E].
  exists c1. split; [done|]. split; [by eapply after_move_length|].
  split; [by rewrite (after_move_mode _ _ _ _ E)|].
  intros k. by apply after_swap_lookup.
Qed.

(** X1. In editable mode, [moveUp(index)] on a row that is neither the first
    nor past the end exchanges positions [index - 1] and [index] as a whole:
    the approver, the term, the selection and the suggestions of each of the
    two positions go to the other one (a missing term, selection or
    suggestion list stays missing), every other position keeps its own, the
    number of rows is unchanged and the orders are renumbered. *)
Theorem moveUp_carries_state index c :
  displayMode c = false → 0 < index → index < length (rows c) →
  ∃ c', moveUp index c = Some c'
    ∧ length (rows c') = length (rows c)
    ∧ ∀ k,
        rows c' !! k
          = (λ r, mkRow (k + 1) (approver r)) <$> rows c !! exchanged (index - 1) index k
        ∧ terms c' !! k = terms c !! exchanged (index - 1) index k
        ∧ selections c' !! k = selections c !! exchanged (index - 1) index k
        ∧ suggestions c' !! k = suggestions c !! exchanged (index - 1) index k.
Proof.
  intros Hd H0 Hi. unfold moveUp. rewrite Hd.
  destruct (Nat.eqb_spec index 0); [lia|].
  destruct (move_view (index - 1) index c) as (c1 & E & Hl & _ & H); [done|lia|lia|].
  rewrite E. by exists (after_move c1).
Qed.

Lemma moveUp_carries_state_witness :
  ∃ c', moveUp 1 signed_in = Some c'
    ∧ terms c' !! 1 = Some "alice" ∧ terms c' !! 0 = None.
Proof.
  destruct (moveUp_carries_state 1 signed_in eq_refl ltac:(lia) ltac:(simpl; lia))
    as (c' & E & _ & H).
  exists c'. split; [exact E|].
  destruct (H 1) as (_ & H1 & _). destruct (H 0) as (_ & H0 & _).
  split; [rewrite H1|rewrite H0]; reflexivity.
Defined.

(** X2. In editable mode, [moveDown(index)] on a row that is not the last
    exchanges positions [index] and [index + 1] as a whole: approver, term,
    selection and suggestions travel together, every other position keeps
    its own, the number of rows is unchanged and the orders are
    renumbered. *)
Theorem moveDown_carries_state index c :
  displayMode c = false → index + 1 < length (rows c) →
  ∃ c', moveDown index c = Some c'
    ∧ length (rows c') = length (rows c)
    ∧ ∀ k,
        rows c' !! k
          = (λ r, mkRow (k + 1) (approver r)) <$> rows c !! exchanged index (index + 1) k
        ∧ terms c' !! k = terms c !! exchanged index (index + 1) k
        ∧ selections c' !! k = selections c !! exchanged index (index + 1) k
        ∧ suggestions c' !! k = suggestions c !! exchanged index (index + 1) k.
Proof.
  intros Hd Hi. unfold moveDown. rewrite Hd.
  destruct (Nat.leb_spec (length (rows c)) (index + 1)); [lia|].
  destruct (move_view (index + 1) index c) as (c1 & E & Hl & _ & Hk); [done|lia|lia|].
  rewrite E. exists (after_move c1). split; [done|]. split; [done|].
  intros k. rewrite (exchanged_comm index). apply Hk.
Qed.

Lemma moveDown_carries_state_witness :
  ∃ c', moveDown 0 signed_in = Some c'
    ∧ terms c' !! 1 = Some "alice" ∧ suggestions c' !! 0 = Some [alice].
Proof.
  destruct (moveDown_carries_state 0 signed_in eq_refl ltac:(simpl; lia))
    as (c' & E & _ & H).
  exists c'. split; [exact E|].
  destruct (H 1) as (_ & H1 & _). destruct (H 0) as (_ & _ & _ & H0).
  split; [rewrite H1|rewrite H0]; reflexivity.
Defined.

(** X3. Moving a row up and then moving the row now at [index - 1] down
    again restores the rows (numbered as they were), the terms, the
    selections and the suggestions. *)
Theorem moveUp_moveDown_round_trip index c :
  displayMode c = false → 0 < index → index < length (rows c) →
  numbered (rows c) →
  ∃ c1 c2, moveUp index c = Some c1 ∧ moveDown (index - 1) c1 = Some c2
    ∧ rows c2 = rows c ∧ terms c2 = terms c
    ∧ selections c2 = selections c ∧ suggestions c2 = suggestions c.
Proof.
  intros Hd H0 Hi Hn.
  destruct (move_view (index - 1) index c) as (c0 & E1 & Hl1 & Hd1 & H1); [done|lia|lia|].
  set (c1 := after_move c0) in *.
  destruct (move_view index (index - 1) c1) as (c3 & E2 & Hl2 & _ & H2); [done|lia|lia|].
  exists c1, (after_move c3). split; [|split].
  { unfold moveUp. rewrite Hd. destruct (Nat.eqb_spec index 0); [lia|]. by rewrite E1. }
  { unfold moveDown. rewrite Hd1.
    destruct (Nat.leb_spec (length (rows c1)) (index - 1 + 1)); [lia|].
    replace (index - 1 + 1) with index by lia. by rewrite E2. }
  assert (∀ k, exchanged (index - 1) index (exchanged index (index - 1) k) = k) as Hinv.
  { intros k. rewrite (exchanged_comm index). apply exchanged_involutive. }
  split; [|split; [|split]].
  - apply list_eq. intros k. destruct (H2 k) as (-> & _).
    destruct (H1 (exchanged index (index - 1) k)) as (-> & _).
    rewrite Hinv. destruct (rows c !! k) as [[o a]|] eqn:E; [|done].
    simpl. f_equal. f_equal. symmetry. exact (Hn k _ E).
  - apply map_eq. intros k. destruct (H2 k) as (_ & -> & _).
    destruct (H1 (exchanged index (index - 1) k)) as (_ & -> & _). by rewrite Hinv.
  - apply map_eq. intros k. destruct (H2 k) as (_ & _ & -> & _).
    destruct (H1 (exchanged index (index - 1) k)) as (_ & _ & -> & _). by rewrite Hinv.
  - apply map_eq. intros k. destruct (H2 k) as (_ & _ & _ & ->).
    destruct (H1 (exchanged index (index - 1) k)) as (_ & _ & _ & ->). by rewrite Hinv.
Qed.

Lemma moveUp_moveDown_round_trip_witness :
  ∃ c1 c2, moveUp 1 signed_in = Some c1 ∧ moveDown 0 c1 = Some c2
    ∧ rows c2 = rows signed_in ∧ terms c2 = terms signed_in.
Proof.
  destruct (moveUp_moveDown_round_trip 1 signed_in eq_refl ltac:(lia) ltac:(simpl; lia))
    as (c1 & c2 & E1 & E2 & Hr & Ht & _).
  - intros [|[|i]] r; simpl; intros [= <-]; reflexivity.
  - exists c1, c2. repeat split; assumption.
Defined.

(** ** Handlers and the rows they are bound to *)

(** X4. The handlers bound to a rendered row never fail: for an index below
    the number of rows, [onPick], [clearRow], [moveUp] and [moveDown] all
    complete, in either mode. *)
Theorem handlers_total index c :
  index < length (rows c) →
  (∀ p, is_Some (onPick index p c))
  ∧ is_Some (clearRow index c)
  ∧ is_Some (moveUp index c)
  ∧ is_Some (moveDown index c).
Proof.
  intros Hi. destruct (lookup_lt_is_Some_2 _ _ Hi) as [r Hr].
  split; [|split; [|split]].
  - intros p. unfold onPick. destruct (displayMode c); [by eexists|].
    unfold set_approver. cbn. rewrite Hr. cbn. by eexists.
  - unfold clearRow. destruct (displayMode c); [by eexists|].
    unfold set_approver. cbn. rewrite Hr. cbn. by eexists.
  - unfold moveUp. destruct (displayMode c); [by eexists|].
    destruct (Nat.eqb_spec index 0); [by eexists|].
    destruct (swap_rows_some (index - 1) index c) as [c1 ->]; [lia|lia|]. by eexists.
  - unfold moveDown. destruct (displayMode c); [by eexists|].
    destruct (Nat.leb_spec (length (rows c)) (index + 1)); [by eexists|].
    destruct (swap_rows_some (index + 1) index c) as [c1 ->]; [lia|lia|]. by eexists.
Qed.

Lemma handlers_total_witness :
  is_Some (onPick 1 alice signed_in) ∧ is_Some (clearRow 1 signed_in)
  ∧ is_Some (moveUp 1 signed_in) ∧ is_Some (moveDown 1 signed_in).
Proof.
  destruct (handlers_total 1 signed_in ltac:(simpl; lia)) as (H1 & H2 & H3 & H4).
  split; [apply H1|]. split; [exact H2|]. split; [exact H3|exact H4].
Defined.

(** X5. Past the last row, in editable mode: [onPick] and [clearRow] raise
    the [TypeError] of [this.rows[index].approver = …], [moveUp] with a
    positive index raises it in [renumberOrders], [moveDown] does nothing,
    and [removeRow] removes nothing (it renumbers and refills). *)
Theorem handlers_past_the_end index c p :
  displayMode c = false → length (rows c) ≤ index →
  onPick index p c = None ∧ clearRow index c = None
  ∧ (0 < index → moveUp index c = None)
  ∧ moveDown index c = Some c
  ∧ rows (removeRow index c)
    = pushEmpty (minRows (props c) - length (rows c)) (renumber (rows c)).
Proof.
  intros Hd Hi. assert (rows c !! index = None) as Hr by (by apply lookup_ge_None).
  repeat split.
  - unfold onPick. rewrite Hd. unfold set_approver. cbn. by rewrite Hr.
  - unfold clearRow. rewrite Hd. unfold set_approver. cbn. by rewrite Hr.
  - intros H0. unfold moveUp. rewrite Hd.
    destruct (Nat.eqb_spec index 0); [lia|].
    unfold swap_rows. rewrite Hr. by destruct (rows c !! (index - 1)).
  - unfold moveDown. rewrite Hd.
    by destruct (Nat.leb_spec (length (rows c)) (index + 1)); [|lia].
  - rewrite removeRow_rows by done.
    assert (delete index (rows c) = rows c) as ->; [|done].
    apply list_eq. intros k. rewrite list_lookup_delete.
    case_decide; [done|]. rewrite !lookup_ge_None_2; [done|lia|lia].
Qed.

Lemma handlers_past_the_end_witness :
  onPick 2 alice signed_in = None ∧ clearRow 2 signed_in = None
  ∧ moveUp 2 signed_in = None ∧ moveDown 2 signed_in = Some signed_in.
Proof.
  destruct (handlers_past_the_end 2 signed_in alice eq_refl ltac:(simpl; lia))
    as (H1 & H2 & H3 & H4 & _).
  split; [exact H1|]. split; [exact H2|]. split; [apply H3; lia|exact H4].
Defined.

(** ** Adding, removing and backfilling rows *)

Lemma length_append (s1 s2 : string) :
  String.length (s1 +:+ s2) = String.length s1 + String.length s2.
Proof. induction s1 as [|a s1 IH]; simpl; [done|]. by rewrite IH. Qed.

Lemma join_snoc sep (l : list string) x :
  String.length (join sep (l ++ [x]))
  = String.length (join sep l) + String.length x
    + (if decide (l = []) then 0 else String.length sep).
Proof.
  induction l as [|y l IH]; [case_decide; [simpl; lia|done]|].
  destruct l as [|z l].
  - clear IH. change (join sep ([y] ++ [x])) with (y +:+ sep +:+ x).
    change (join sep [y]) with y.
    rewrite !length_append. destruct (decide ([y] = [])); [congruence|lia].
  - change (join sep ((y :: z :: l) ++ [x]))
      with (y +:+ sep +:+ join sep ((z :: l) ++ [x])).
    change (join sep (y :: z :: l)) with (y +:+ sep +:+ join sep (z :: l)).
    rewrite !length_append, IH. clear IH.
    destruct (decide (z :: l = [])); [congruence|].
    destruct (decide (y :: z :: l = [])); [congruence|]. lia.
Qed.

Lemma stringify_grows (rs : list Row) r : stringify (rs ++ [r]) ≠ stringify rs.
Proof.
  intros E. apply (f_equal String.length) in E. unfold stringify in E.
  rewrite map_app in E. simpl map in E.
  rewrite !length_append, join_snoc in E.
  assert (0 < String.length (stringify_row r)) by (unfold stringify_row; simpl; lia).
  lia.
Qed.

Lemma notifications_saveValue c :
  notifications (saveValue c)
  = notifications c
    ++ if displayMode c then []
       else if String.eqb (value c) (stringify (rows c)) then []
       else announce (stringify (rows c)).
Proof.
  unfold saveValue. destruct (displayMode c); [by rewrite app_nil_r|].
  rewrite notifications_mirror.
  destruct (String.eqb _ _); [by rewrite app_nil_r|].
  unfold notifications. simpl. by rewrite List.filter_app.
Qed.

(** X6. In editable mode and below [maxRows], [addRow] appends exactly one
    row with the empty approver and the next order, leaves the terms,
    selections and suggestions alone, and saves: the value is the compact
    JSON of the new rows, and when the value was in step with the rows
    before, the form is told of the new value by one [ntx-value-change]
    followed by one [change]. *)
Theorem addRow_appends c :
  displayMode c = false → length (rows c) < maxRows (props c) →
  rows (addRow c) = rows c ++ [mkRow (length (rows c) + 1) EmptyString]
  ∧ value (addRow c) = stringify (rows (addRow c))
  ∧ terms (addRow c) = terms c
  ∧ selections (addRow c) = selections c
  ∧ suggestions (addRow c) = suggestions c
  ∧ (value c = stringify (rows c) →
     notifications (addRow c) = notifications c ++ announce (value (addRow c))).
Proof.
  intros Hd Hlt. unfold addRow. rewrite Hd.
  destruct (Nat.leb_spec (maxRows (props c)) (length (rows c))); [lia|].
  cbv zeta.
  rewrite rows_saveValue, terms_saveValue, selections_saveValue, suggestions_saveValue.
  rewrite value_saveValue by done.
  split; [done|]. split; [done|]. split; [done|]. split; [done|]. split; [done|].
  intros Hv. rewrite notifications_saveValue. cbn [displayMode set_renderTick set_rows
    value rows]. rewrite Hd.
  destruct (String.eqb_spec (value c)
              (stringify (rows c ++ [mkRow (length (rows c) + 1) EmptyString]))) as [E|_].
  - exfalso. rewrite Hv in E. symmetry in E. by apply stringify_grows in E.
  - done.
Qed.

Lemma addRow_appends_witness :
  rows (addRow two_rows)
  = [mkRow 1 EmptyString; mkRow 2 EmptyString; mkRow 3 EmptyString].
Proof.
  destruct (addRow_appends two_rows eq_refl ltac:(simpl; lia)) as (H & _).
  rewrite H. reflexivity.
Defined.

Lemma value_ensureMinRows c :
  displayMode c = false → value (ensureMinRows c) = stringify (rows (ensureMinRows c)).
Proof.
  intros Hd. unfold ensureMinRows. rewrite Hd.
  by rewrite value_saveValue, rows_saveValue.
Qed.

Lemma pushEmpty_new k : ∀ (rs : list Row) j,
  length rs ≤ j → j < length rs + k →
  pushEmpty k rs !! j = Some (mkRow (j + 1) EmptyString).
Proof.
  induction k as [|k IH]; intros rs j H1 H2; [lia|].
  simpl. destruct (decide (j = length rs)) as [->|Hne].
  - rewrite pushEmpty_lookup by (rewrite length_app; simpl; lia).
    rewrite lookup_app_r by lia. by rewrite Nat.sub_diag.
  - apply IH; rewrite length_app; simpl; lia.
Qed.

(** X7. In editable mode, [removeRow] on an existing row leaves
    [max (length - 1) minRows] rows and a saved value in step with them; the
    rows the refill adds are empty, carry their position plus one, and have
    no term, no selection and no suggestions. *)
Theorem removeRow_refill index c :
  displayMode c = false → index < length (rows c) →
  let c' := removeRow index c in
  length (rows c') = Nat.max (length (rows c) - 1) (minRows (props c))
  ∧ value c' = stringify (rows c')
  ∧ ∀ i, length (rows c) - 1 ≤ i → i < length (rows c') →
      rows c' !! i = Some (mkRow (i + 1) EmptyString)
      ∧ terms c' !! i = None ∧ selections c' !! i = None ∧ suggestions c' !! i = None.
Proof.
  intros Hd Hi. cbv zeta.
  assert (length (delete index (rows c)) = length (rows c) - 1) as Hlen.
  { apply length_delete. by apply lookup_lt_is_Some. }
  assert (value (removeRow index c) = stringify (rows (removeRow index c))) as Hv.
  { unfold removeRow. rewrite Hd. apply value_ensureMinRows.
    by rewrite displayMode_saveValue. }
  rewrite Hv.
  rewrite removeRow_rows, removeRow_terms, removeRow_selections,
    removeRow_suggestions by done.
  rewrite Hlen. split; [|split].
  - rewrite pushEmpty_length, renumber_length, Hlen. lia.
  - done.
  - intros i Hge Hlt. rewrite !rebuild_lookup.
    repeat case_decide; try lia. split; [|done].
    rewrite pushEmpty_length, renumber_length, Hlen in Hlt.
    apply pushEmpty_new; rewrite renumber_length, Hlen; lia.
Qed.

Lemma removeRow_refill_witness :
  length (rows (removeRow 0 (set_rows [mkRow 1 "alice@x.com"] signed_in))) = 1
  ∧ rows (removeRow 0 (set_rows [mkRow 1 "alice@x.com"] signed_in)) !! 0
    = Some (mkRow 1 EmptyString)
  ∧ terms (removeRow 0 (set_rows [mkRow 1 "alice@x.com"] signed_in)) !! 0 = None.
Proof.
  destruct (removeRow_refill 0 (set_rows [mkRow 1 "alice@x.com"] signed_in)
              eq_refl ltac:(simpl; lia)) as (Hl & _ & H).
  split; [exact Hl|].
  destruct (H 0 ltac:(simpl; lia) ltac:(rewrite Hl; simpl; lia)) as (Hr & Ht & _).
  split; [exact Hr|exact Ht].
Defined.

(** X8. In editable mode [ensureMinRows] leaves [max length minRows] rows:
    the rows that were there are untouched, the added ones are empty and
    numbered by position; the three maps are untouched, the value is saved,
    and a second call changes no row. *)
Theorem ensureMinRows_backfills c :
  displayMode c = false →
  let c' := ensureMinRows c in
  length (rows c') = Nat.max (length (rows c)) (minRows (props c))
  ∧ (∀ i, i < length (rows c) → rows c' !! i = rows c !! i)
  ∧ (∀ i, length (rows c) ≤ i → i < length (rows c') →
       rows c' !! i = Some (mkRow (i + 1) EmptyString))
  ∧ value c' = stringify (rows c')
  ∧ terms c' = terms c ∧ selections c' = selections c ∧ suggestions c' = suggestions c
  ∧ rows (ensureMinRows c') = rows c'.
Proof.
  intros Hd. cbv zeta.
  rewrite value_ensureMinRows by done.
  rewrite terms_ensureMinRows, selections_ensureMinRows, suggestions_ensureMinRows.
  assert (displayMode (ensureMinRows c) = false) as Hd'.
  { unfold ensureMinRows. rewrite Hd. by rewrite displayMode_saveValue. }
  assert (props (ensureMinRows c) = props c) as Hp.
  { unfold ensureMinRows. rewrite Hd. by rewrite props_saveValue. }
  rewrite (rows_ensureMinRows (ensureMinRows c)), Hd', Hp.
  rewrite rows_ensureMinRows, Hd.
  split; [rewrite pushEmpty_length; lia|].
  split; [intros i Hi; by apply pushEmpty_lookup|].
  split; [intros i H1 H2; rewrite pushEmpty_length in H2; apply pushEmpty_new; lia|].
  split; [done|]. split; [done|]. split; [done|]. split; [done|].
  rewrite pushEmpty_length.
  by replace (minRows (props c) - _) with 0 by lia.
Qed.

Lemma ensureMinRows_backfills_witness :
  rows (ensureMinRows (set_rows [] two_rows)) = [mkRow 1 EmptyString].
Proof.
  destruct (ensureMinRows_backfills (set_rows [] two_rows) eq_refl)
    as (Hl & _ & Hnew & _).
  apply list_eq. intros [|i].
  - rewrite Hnew; [reflexivity|simpl; lia|rewrite Hl; simpl; lia].
  - rewrite !lookup_ge_None_2; [done|simpl; lia|rewrite Hl; simpl; lia].
Defined.

(** ** Buttons *)

Lemma renderTick_saveValue c : renderTick (saveValue c) = renderTick c.
Proof. unfold saveValue, mirror. split_ifs; reflexivity. Qed.

Lemma activeRowIndex_saveValue c : activeRowIndex (saveValue c) = activeRowIndex c.
Proof. unfold saveValue, mirror. split_ifs; reflexivity. Qed.

Lemma after_move_tick i j c c1 :
  swap_rows i j c = Some c1 → renderTick (after_move c1) = renderTick c + 1.
Proof.
  unfold swap_rows. destruct (rows c !! i) as [a|]; [|done].
  destruct (rows c !! j) as [b|]; [|done]. intros [= <-].
  unfold after_move. by rewrite renderTick_saveValue.
Qed.

(** X9. On a rendered row of an editable element, a button is disabled by
    [render] exactly when its handler would change nothing: [addRow] at
    [maxRows], [moveUp] on the first row, [moveDown] on the last. *)
Theorem disabled_buttons_are_noops c index :
  displayMode c = false → index < length (rows c) →
  (addRow c = c ↔ addDisabled c = true)
  ∧ (moveUp index c = Some c ↔ moveUpDisabled index = true)
  ∧ (moveDown index c = Some c ↔ moveDownDisabled c index = true).
Proof.
  intros Hd Hi. unfold addDisabled, moveUpDisabled, moveDownDisabled.
  split; [|split].
  - unfold addRow. rewrite Hd.
    destruct (Nat.leb_spec (maxRows (props c)) (length (rows c))); [done|].
    split; [|done]. intros E. apply (f_equal renderTick) in E.
    rewrite renderTick_saveValue in E. simpl in E. lia.
  - unfold moveUp. rewrite Hd.
    destruct (Nat.eqb_spec index 0); [done|].
    destruct (swap_rows_some (index - 1) index c) as [c1 E]; [lia|lia|].
    rewrite E. split; [|done]. intros [= E']. apply (f_equal renderTick) in E'.
    rewrite (after_move_tick _ _ _ _ E) in E'. lia.
  - unfold moveDown. rewrite Hd.
    destruct (Nat.leb_spec (length (rows c)) (index + 1)) as [Hle|Hgt].
    + split; [intros _|done]. apply Nat.eqb_eq. lia.
    + destruct (swap_rows_some (index + 1) index c) as [c1 E]; [lia|lia|].
      rewrite E. split.
      * intros [= E']. apply (f_equal renderTick) in E'.
        rewrite (after_move_tick _ _ _ _ E) in E'. lia.
      * intros E'%Nat.eqb_eq. lia.
Qed.

Lemma disabled_buttons_are_noops_witness :
  moveUp 0 two_rows = Some two_rows ∧ moveDown 1 two_rows = Some two_rows.
Proof.
  destruct (disabled_buttons_are_noops two_rows 0 eq_refl ltac:(simpl; lia))
    as (_ & [_ Hup] & _).
  destruct (disabled_buttons_are_noops two_rows 1 eq_refl ltac:(simpl; lia))
    as (_ & _ & [_ Hdown]).
  split; [by apply Hup|by apply Hdown].
Defined.

(** ** Picking, clearing and typing *)

(** X10. In editable mode, picking a person for an existing row stores the
    person's login as the approver of that row only (orders and the other
    rows are kept), saves the value, makes the person the selection of the
    row and the person's display name the text of its input, leaves the
    term, selection and suggestions of every other row alone, and closes the
    dropdown of every row. *)
Theorem onPick_effect index p c r :
  displayMode c = false → rows c !! index = Some r →
  ∃ c', onPick index p c = Some c'
    ∧ rows c' = <[index := mkRow (order r) (p_login p)]> (rows c)
    ∧ value c' = stringify (rows c')
    ∧ selections c' !! index = Some (Some p)
    ∧ inputText c' index = p_displayName p
    ∧ (∀ k, k ≠ index →
         terms c' !! k = terms c !! k ∧ selections c' !! k = selections c !! k
         ∧ suggestions c' !! k = suggestions c !! k)
    ∧ ∀ k, showDropdown c' k = false.
Proof.
  intros Hd Hr. unfold onPick, set_approver. rewrite Hd.
  cbn [rows set_terms set_selections]. rewrite Hr. cbn [mbind option_bind].
  eexists. split; [reflexivity|].
  set (c2 := saveValue _).
  assert (rows c2 = <[index := mkRow (order r) (p_login p)]> (rows c)) as Er
    by (subst c2; by rewrite rows_saveValue).
  assert (value c2 = stringify (rows c2)) as Ev.
  { subst c2. rewrite rows_saveValue. by apply value_saveValue. }
  assert (terms c2 = <[index := p_displayName p]> (terms c)) as Et
    by (subst c2; by rewrite terms_saveValue).
  assert (selections c2 = <[index := Some p]> (selections c)) as Es
    by (subst c2; by rewrite selections_saveValue).
  assert (suggestions c2 = suggestions c) as Eg
    by (subst c2; by rewrite suggestions_saveValue).
  clearbody c2. unfold inputText, showDropdown.
  cbn [rows value terms selections suggestions activeRowIndex
       set_activeRowIndex set_suggestions].
  rewrite Er, Et, Es, Eg, !lookup_insert_eq.
  split; [done|]. split; [by rewrite <- Er|]. split; [done|]. split; [done|].
  split; [|done].
  intros k Hk. by rewrite !lookup_insert_ne, lookup_delete_ne by done.
Qed.

Lemma onPick_effect_witness :
  ∃ c', onPick 1 alice signed_in = Some c'
    ∧ rows c' = [mkRow 1 EmptyString; mkRow 2 "alice@x.com"]
    ∧ showDropdown c' 1 = false.
Proof.
  destruct (onPick_effect 1 alice signed_in (mkRow 2 EmptyString) eq_refl eq_refl)
    as (c' & E & Hr & _ & _ & _ & _ & Hd).
  exists c'. split; [exact E|]. split; [rewrite Hr; reflexivity|apply Hd].
Defined.

(** X11. In editable mode, clearing an existing row empties its approver
    (orders and the other rows are kept), saves the value, sets the row's
    selection to [null] and its input text to the empty string, and leaves
    the suggestions and the active row alone: a dropdown that was open stays
    open. *)
Theorem clearRow_effect index c r :
  displayMode c = false → rows c !! index = Some r →
  ∃ c', clearRow index c = Some c'
    ∧ rows c' = <[index := mkRow (order r) EmptyString]> (rows c)
    ∧ value c' = stringify (rows c')
    ∧ selections c' !! index = Some None
    ∧ inputText c' index = EmptyString
    ∧ (∀ k, k ≠ index →
         terms c' !! k = terms c !! k ∧ selections c' !! k = selections c !! k)
    ∧ suggestions c' = suggestions c
    ∧ ∀ k, showDropdown c' k = showDropdown c k.
Proof.
  intros Hd Hr. unfold clearRow, set_approver. rewrite Hd.
  cbn [rows set_terms set_selections]. rewrite Hr. cbn [mbind option_bind].
  eexists. split; [reflexivity|].
  unfold inputText, showDropdown.
  rewrite rows_saveValue, terms_saveValue, selections_saveValue, suggestions_saveValue,
    activeRowIndex_saveValue.
  rewrite value_saveValue by done.
  cbn [rows terms selections suggestions activeRowIndex set_rows set_terms set_selections].
  rewrite !lookup_insert_eq.
  split; [done|]. split; [done|]. split; [done|]. split; [done|].
  split; [|done].
  intros k Hk. by rewrite !lookup_insert_ne by done.
Qed.

Lemma clearRow_effect_witness :
  ∃ c', clearRow 0 signed_in = Some c'
    ∧ inputText c' 0 = EmptyString ∧ suggestions c' !! 0 = Some [alice].
Proof.
  destruct (clearRow_effect 0 signed_in (mkRow 1 EmptyString) eq_refl eq_refl)
    as (c' & E & _ & _ & _ & Hi & _ & Hs & _).
  exists c'. split; [exact E|]. split; [exact Hi|by rewrite Hs].
Defined.

(** X12. Typing in a row never touches what is persisted: the rows, the
    value, the emitted events and all selections stay as they are (typing
    over a picked person keeps the pick), as do the term and the suggestions
    of every other row.  In editable mode the row's input shows the typed
    text, the error message is reset, the row becomes the active one, and
    its suggestions are removed when the text is below the threshold and
    kept otherwise. *)
Theorem typing_keeps_saved_state index v c :
  rows (onRowInput index v c) = rows c
  ∧ value (onRowInput index v c) = value c
  ∧ emitted (onRowInput index v c) = emitted c
  ∧ selections (onRowInput index v c) = selections c
  ∧ (∀ k, k ≠ index →
       terms (onRowInput index v c) !! k = terms c !! k
       ∧ suggestions (onRowInput index v c) !! k = suggestions c !! k)
  ∧ (displayMode c = false →
       inputText (onRowInput index v c) index = v
       ∧ errorMsg (onRowInput index v c) = EmptyString
       ∧ activeRowIndex (onRowInput index v c) = Some index
       ∧ suggestions (onRowInput index v c) !! index
         = if String.length v <? threshold c then None else suggestions c !! index).
Proof.
  unfold onRowInput. destruct (displayMode c) eqn:Hd; [repeat split; done|].
  set (c1 := set_errorMsg _ _).
  assert (threshold (clearDebounce c1) = threshold c) as ->.
  { unfold threshold. by pose proof (clearDebounce_rest c1) as [= -> _ _ _ _ _ _ _]. }
  assert (∀ c0, debounceTimer c0 = debounceTimer c1 → timers c0 = timers c1 →
     (rows (clearDebounce c0), value (clearDebounce c0), emitted (clearDebounce c0),
      selections (clearDebounce c0), terms (clearDebounce c0), suggestions (clearDebounce c0),
      errorMsg (clearDebounce c0), activeRowIndex (clearDebounce c0))
     = (rows c0, value c0, emitted c0, selections c0, terms c0, suggestions c0,
        errorMsg c0, activeRowIndex c0)) as H.
  { intros c0 _ _. unfold clearDebounce. by destruct (debounceTimer c0). }
  specialize (H c1 eq_refl eq_refl). injection H as Er Ev Ee Es Et Eg Eerr Ea.
  unfold inputText.
  destruct (String.length v <? threshold c);
    cbn [rows value emitted selections terms suggestions errorMsg activeRowIndex
         set_suggestions scheduleSearch set_debounceTimer set_nextTimer set_timers];
    rewrite ?Er, ?Ev, ?Ee, ?Es, ?Et, ?Eg, ?Eerr, ?Ea; subst c1;
    cbn [rows value emitted selections terms suggestions errorMsg activeRowIndex
         set_errorMsg set_activeRowIndex set_terms];
    rewrite ?lookup_insert_eq, ?lookup_delete_eq.
  - repeat split; try done.
    + by rewrite lookup_insert_ne.
    + by rewrite lookup_delete_ne.
  - repeat split; try done. by rewrite lookup_insert_ne.
Qed.

Lemma typing_keeps_saved_state_witness :
  rows (onRowInput 0 "al" signed_in) = rows signed_in
  ∧ inputText (onRowInput 0 "al" signed_in) 0 = "al"
  ∧ suggestions (onRowInput 0 "a" signed_in) !! 0 = None
  ∧ suggestions (onRowInput 0 "a" signed_in) !! 1 = Some [alice].
Proof.
  destruct (typing_keeps_saved_state 0 "al" signed_in) as (Hr & _ & _ & _ & _ & H).
  destruct (H eq_refl) as (Hi & _).
  destruct (typing_keeps_saved_state 0 "a" signed_in) as (_ & _ & _ & _ & Ho & H').
  destruct (H' eq_refl) as (_ & _ & _ & Hs).
  destruct (Ho 1 ltac:(lia)) as [_ Ho1].
  split; [exact Hr|]. split; [exact Hi|]. split; [exact Hs|]. by rewrite Ho1.
Defined.

(** ** Invariants of the event loop *)

Section StepInvariant.
Variables (p0 : Config) (loaded : nat) (d : bool) (P : Comp → Prop).
Hypothesis P_sync : ∀ c c', sync_part c' = sync_part c → P c → P c'.
Hypothesis P_dom : ∀ c m, P c → P (set_dom m c).
Hypothesis P_input : ∀ c index v, Inv p0 loaded d c → P c → P (onRowInput index v c).
Hypothesis P_pick : ∀ c index p c',
  Inv p0 loaded d c → P c → onPick index p c = Some c' → P c'.
Hypothesis P_clear : ∀ c index c',
  Inv p0 loaded d c → P c → clearRow index c = Some c' → P c'.
Hypothesis P_add : ∀ c, Inv p0 loaded d c → P c → P (addRow c).
Hypothesis P_remove : ∀ c index, Inv p0 loaded d c → P c → P (removeRow index c).
Hypothesis P_up : ∀ c index c',
  Inv p0 loaded d c → P c → moveUp index c = Some c' → P c'.
Hypothesis P_down : ∀ c index c',
  Inv p0 loaded d c → P c → moveDown index c = Some c' → P c'.
Hypothesis P_timer : ∀ c h, P c → P (set_timers (drop h (timers c)) c).

Lemma step_invariant w e w' :
  Good p0 loaded d w → P (comp w) → step w e = Some w' → P (comp w').
Proof.
  intros [Hi Hj] HP.
  destruct e as [index v|index p|index| |index|index|index|h|j reply]; unfold step.
  - case_decide; [|done]. intros [= <-]. cbn [comp with_comp].
    apply P_input; [|by apply P_dom]. by apply (Inv_core _ _ _ (comp w)).
  - destruct (onPick index p (comp w)) as [c'|] eqn:E; simpl; [|done].
    intros [= <-]. by eapply P_pick.
  - destruct (clearRow index (comp w)) as [c'|] eqn:E; simpl; [|done].
    intros [= <-]. by eapply P_clear.
  - intros [= <-]. by apply P_add.
  - case_decide; [|done]. intros [= <-]. by apply P_remove.
  - destruct (moveUp index (comp w)) as [c'|] eqn:E; simpl; [|done].
    intros [= <-]. by eapply P_up.
  - destruct (moveDown index (comp w)) as [c'|] eqn:E; simpl; [|done].
    intros [= <-]. by eapply P_down.
  - destruct (find_timer h (timers (comp w))) as [index|]; simpl; [|done].
    intros [= <-].
    match goal with |- P (comp (spawn ?t ?w0)) =>
      destruct (spawn_framed t w0 (framed_searchCallback index) Hj) as [E _]
    end.
    eapply P_sync; [exact E|]. by apply P_timer.
  - destruct (find_job j (pool w)) as [jb|] eqn:E; simpl; [|done].
    pose proof (proceed_framed j (resume jb (reply (pending jb))) (comp w) (drop j (pool w))
                  (find_job_framed _ _ _ Hj E _) (jobs_framed_drop j _ Hj)) as [Es _].
    destruct (proceed _ _ _ _) as [c' p']. intros [= <-]. simpl in *.
    by eapply P_sync.
Qed.

Lemma steps_invariant es : ∀ w w',
  Good p0 loaded d w → P (comp w) → steps w es = Some w' → P (comp w').
Proof.
  induction es as [|e es IH]; intros w w' Hg HP; simpl.
  - by intros [= <-].
  - destruct (step w e) as [w1|] eqn:E; simpl; [|done].
    apply IH; [by eapply step_Good|by eapply step_invariant].
Qed.
End StepInvariant.

Lemma boot_comp p h v detected pv :
  sync_part (comp (boot p h v detected pv))
  = sync_part (loadStart pv (set_displayMode (mode p detected) (initial p h v))).
Proof.
  rewrite boot_unfold. cbv zeta. cbn [comp].
  apply (proceed_framed 0 _ _ [] (framed_hydrate _) (Forall_nil_2 _)).
Qed.

Lemma sync_value_rows c c' :
  sync_part c' = sync_part c →
  value c' = value c ∧ rows c' = rows c ∧ emitted c' = emitted c ∧ timers c' = timers c.
Proof.
  intros E. split; [|split; [|split]].
  - exact (f_equal (λ t, t.1.1.1.1.1.1.1.1.1.2) E).
  - exact (f_equal (λ t, t.1.1.1.1.1.1.1.1.2) E).
  - exact (f_equal (λ t, t.2) E).
  - exact (f_equal (λ t, t.1.1.2) E).
Qed.

(** *** The saved value follows the rows *)

Lemma saved_saveValue c : displayMode c = false → saved (saveValue c).
Proof. intros Hd. unfold saved. rewrite rows_saveValue. by apply value_saveValue. Qed.

Lemma saved_stays p0 loaded es w w' :
  Good p0 loaded false w → saved (comp w) → steps w es = Some w' → saved (comp w').
Proof.
  apply (steps_invariant p0 loaded false saved).
  - unfold saved. intros c c' E. destruct (sync_value_rows _ _ E) as (-> & -> & _). done.
  - done.
  - intros c index v _. unfold saved.
    pose proof (onRowInput_rows index v c) as [= _ _ Er _]. rewrite Er.
    unfold onRowInput. destruct (displayMode c); [done|].
    set (c1 := set_errorMsg _ _).
    assert (value (clearDebounce c1) = value c) as Ev
      by (unfold clearDebounce; by destruct (debounceTimer c1)).
    by destruct (_ <? _); cbn; rewrite Ev.
  - intros c index p c' [_ Hd _ _ _ _] _. unfold onPick. rewrite Hd.
    destruct (set_approver _ _ _) as [rs|]; [|done]. cbn [mbind option_bind].
    intros [= <-]. unfold saved. cbn [value rows set_activeRowIndex set_suggestions].
    by apply saved_saveValue.
  - intros c index c' [_ Hd _ _ _ _] _. unfold clearRow. rewrite Hd.
    destruct (set_approver _ _ _) as [rs|]; [|done]. cbn [mbind option_bind].
    intros [= <-]. by apply saved_saveValue.
  - intros c [_ Hd _ _ _ _] Hs. unfold addRow. rewrite Hd.
    destruct (_ <=? _); [done|]. by apply saved_saveValue.
  - intros c index [_ Hd _ _ _ _] _. unfold removeRow. rewrite Hd.
    apply value_ensureMinRows. by rewrite displayMode_saveValue.
  - intros c index c' [_ Hd _ _ _ _] Hs. unfold moveUp. rewrite Hd.
    destruct (index =? 0); [by intros [= <-]|].
    destruct (swap_rows _ _ _) as [c1|] eqn:E; [|done]. intros [= <-].
    apply saved_saveValue. cbn. unfold swap_rows in E.
    destruct (rows c !! _); [|done]. destruct (rows c !! _); [|done].
    by injection E as <-.
  - intros c index c' [_ Hd _ _ _ _] Hs. unfold moveDown. rewrite Hd.
    destruct (_ <=? _); [by intros [= <-]|].
    destruct (swap_rows _ _ _) as [c1|] eqn:E; [|done]. intros [= <-].
    apply saved_saveValue. cbn. unfold swap_rows in E.
    destruct (rows c !! _); [|done]. destruct (rows c !! _); [|done].
    by injection E as <-.
  - done.
Qed.

Lemma loadStart_editable pv c :
  displayMode c = false →
  loadStart pv c
  = set_suggestions ∅ (set_selections ∅ (set_terms ∅
      (ensureMinRows (renumberOrders (set_rows (parsedRows pv) c))))).
Proof. intros Hd. unfold loadStart. cbn [displayMode renumberOrders set_rows]. by rewrite Hd. Qed.

Lemma loadStart_display pv c :
  displayMode c = true →
  loadStart pv c
  = set_suggestions ∅ (set_selections ∅ (set_terms ∅
      (renumberOrders (set_rows (parsedRows pv) c)))).
Proof. intros Hd. unfold loadStart. cbn [displayMode renumberOrders set_rows]. by rewrite Hd. Qed.

Lemma saved_loadStart pv c :
  displayMode c = false → saved (loadStart pv c).
Proof.
  intros Hd. rewrite loadStart_editable by done. unfold saved.
  cbn [value rows set_suggestions set_selections set_terms].
  by apply value_ensureMinRows.
Qed.

Lemma saved_boot p h v detected pv :
  mode p detected = false → saved (comp (boot p h v detected pv)).
Proof.
  intros Hm. destruct (sync_value_rows _ _ (boot_comp p h v detected pv)) as (Ev & Er & _).
  unfold saved. rewrite Ev, Er. apply saved_loadStart. exact Hm.
Qed.

(** X13. In every state an element connected in editable mode reaches, the
    element is still editable and its [value] is the compact JSON of its
    current rows. *)
Theorem value_tracks_rows p h v detected pv es w :
  reaches p h v detected pv es w →
  mode p detected = false →
  displayMode (comp w) = false ∧ value (comp w) = stringify (rows (comp w)).
Proof.
  intros H Hm. pose proof (boot_Good p h v detected pv) as Hg. rewrite Hm in Hg.
  split.
  - apply reaches_Good in H as [[_ Hd _ _ _ _] _]. congruence.
  - eapply saved_stays; [exact Hg|by apply saved_boot|exact H].
Qed.

Lemma value_tracks_rows_witness :
  ∃ w, reaches defaults plain_host "[]" false (RowArray [mkRow 7 EmptyString])
         [Add; Pick 1 alice; MoveUp 1] w
       ∧ value (comp w) = stringify [mkRow 1 "alice@x.com"; mkRow 2 EmptyString].
Proof.
  eexists. split; [vm_compute; reflexivity|].
  refine (proj2 (value_tracks_rows defaults plain_host "[]" false
            (RowArray [mkRow 7 EmptyString]) [Add; Pick 1 alice; MoveUp 1] _ _ _)).
  - vm_compute; reflexivity.
  - reflexivity.
Defined.

(** *** What the form is told *)

Lemma last_default_cons (v0 a : string) vs :
  default v0 (last (a :: vs)) = default a (last vs).
Proof. rewrite last_cons. by destruct (last vs). Qed.

Lemma changing_snoc vs : ∀ v0 x,
  changing v0 vs → default v0 (last vs) ≠ x → changing v0 (vs ++ [x]).
Proof.
  induction vs as [|a vs IH]; intros v0 x; simpl.
  - auto.
  - intros [H1 H2] H3. split; [done|]. apply IH; [done|].
    by rewrite <- (last_default_cons v0).
Qed.

Lemma history_quiet v0 c c' vs :
  value c' = value c → emitted c' = emitted c →
  history_of v0 c vs → history_of v0 c' vs.
Proof. unfold history_of, notifications. by intros -> ->. Qed.

Lemma history_saveValue v0 c :
  (∃ vs, history_of v0 c vs) → ∃ vs, history_of v0 (saveValue c) vs.
Proof.
  intros (vs & Hn & Hv & Hc).
  destruct (displayMode c) eqn:Hd.
  { exists vs. unfold saveValue. by rewrite Hd. }
  pose proof (notifications_saveValue c) as En. rewrite Hd in En.
  pose proof (value_saveValue c Hd) as Ev.
  destruct (String.eqb_spec (value c) (stringify (rows c))) as [E|E].
  - exists vs. rewrite app_nil_r in En. split; [congruence|]. split; [congruence|done].
  - exists (vs ++ [stringify (rows c)]). split; [|split].
    + rewrite En, Hn, flat_map_app. reflexivity.
    + by rewrite Ev, last_snoc.
    + apply changing_snoc; [done|]. by rewrite <- Hv.
Qed.

Lemma history_save_quiet v0 c x :
  value x = value c → emitted x = emitted c →
  (∃ vs, history_of v0 c vs) → ∃ vs, history_of v0 (saveValue x) vs.
Proof.
  intros Ev Ee (vs & H). apply history_saveValue. exists vs. by apply (history_quiet v0 c).
Qed.

Lemma history_ensureMinRows v0 c :
  (∃ vs, history_of v0 c vs) → ∃ vs, history_of v0 (ensureMinRows c) vs.
Proof.
  intros H. unfold ensureMinRows. destruct (displayMode c); [done|].
  by apply (history_save_quiet v0 c).
Qed.

Lemma onRowInput_quiet index v c :
  value (onRowInput index v c) = value c ∧ emitted (onRowInput index v c) = emitted c.
Proof.
  unfold onRowInput. destruct (displayMode c); [done|].
  set (c1 := set_errorMsg _ _).
  assert (value (clearDebounce c1) = value c ∧ emitted (clearDebounce c1) = emitted c)
    as [Ev Ee] by (unfold clearDebounce; by destruct (debounceTimer c1)).
  by destruct (_ <? _); cbn; rewrite Ev, Ee.
Qed.

Lemma swap_rows_quiet i j c c1 :
  swap_rows i j c = Some c1 →
  value (renumberOrders c1) = value c ∧ emitted (renumberOrders c1) = emitted c.
Proof.
  unfold swap_rows. destruct (rows c !! i); [|done]. destruct (rows c !! j); [|done].
  by intros [= <-].
Qed.

Lemma history_stays v0 p0 loaded d es w w' :
  Good p0 loaded d w → (∃ vs, history_of v0 (comp w) vs) → steps w es = Some w' →
  ∃ vs, history_of v0 (comp w') vs.
Proof.
  apply (steps_invariant p0 loaded d (λ c, ∃ vs, history_of v0 c vs)).
  - intros c c' E (vs & H). exists vs.
    destruct (sync_value_rows _ _ E) as (Ev & _ & Ee & _).
    by apply (history_quiet v0 c).
  - intros c m (vs & H). exists vs. by apply (history_quiet v0 c).
  - intros c index v _ (vs & H). exists vs.
    destruct (onRowInput_quiet index v c). by apply (history_quiet v0 c).
  - intros c index p c' _ H. unfold onPick. destruct (displayMode c); [by intros [= <-]|].
    destruct (set_approver _ _ _) as [rs|]; [|done]. cbn [mbind option_bind].
    intros [= <-].
    match goal with |- ∃ vs, history_of _ (set_activeRowIndex _ (set_suggestions _ ?c2)) vs =>
      assert (∃ vs, history_of v0 c2 vs) as (vs & H2) by (by apply (history_save_quiet v0 c))
    end.
    exists vs. by eapply history_quiet; [..|exact H2].
  - intros c index c' _ H. unfold clearRow. destruct (displayMode c); [by intros [= <-]|].
    destruct (set_approver _ _ _) as [rs|]; [|done]. cbn [mbind option_bind].
    intros [= <-]. by apply (history_save_quiet v0 c).
  - intros c _ H. unfold addRow. destruct (displayMode c); [done|].
    destruct (_ <=? _); [done|]. by apply (history_save_quiet v0 c).
  - intros c index _ H. unfold removeRow. destruct (displayMode c); [done|].
    apply history_ensureMinRows. by apply (history_save_quiet v0 c).
  - intros c index c' _ H. unfold moveUp. destruct (displayMode c); [by intros [= <-]|].
    destruct (index =? 0); [by intros [= <-]|].
    destruct (swap_rows _ _ _) as [c1|] eqn:E; [|done]. intros [= <-].
    destruct (swap_rows_quiet _ _ _ _ E). by apply (history_save_quiet v0 c).
  - intros c index c' _ H. unfold moveDown. destruct (displayMode c); [by intros [= <-]|].
    destruct (_ <=? _); [by intros [= <-]|].
    destruct (swap_rows _ _ _) as [c1|] eqn:E; [|done]. intros [= <-].
    destruct (swap_rows_quiet _ _ _ _ E). by apply (history_save_quiet v0 c).
  - intros c h (vs & H). exists vs. by apply (history_quiet v0 c).
Qed.

Lemma history_boot p h v detected pv :
  ∃ vs, history_of v (comp (boot p h v detected pv)) vs.
Proof.
  pose proof (boot_comp p h v detected pv) as E.
  set (c0 := set_displayMode _ _) in E.
  assert (∃ vs, history_of v (loadStart pv c0) vs) as (vs & H).
  { assert (∃ vs, history_of v c0 vs) as H0 by (by exists []).
    unfold loadStart. set (c1 := renumberOrders _).
    assert (∃ vs, history_of v c1 vs) as H1 by (by exists []).
    clearbody c1. destruct (displayMode c1).
    - destruct H1 as (vs & H1). exists vs. by apply (history_quiet v c1).
    - apply history_ensureMinRows in H1 as (vs & H1). exists vs.
      by apply (history_quiet v (ensureMinRows c1)). }
  exists vs. destruct (sync_value_rows _ _ E) as (Ev & _ & Ee & _).
  by apply (history_quiet v (loadStart pv c0)).
Qed.

(** X14. In every reachable state the change events dispatched on the
    element are pairs [ntx-value-change], [change] carrying the same value;
    no value is announced twice in a row (nor is the bound value announced
    first), and the element's [value] is the last value announced, or the
    bound value when nothing has been announced. *)
Theorem form_sees_every_change p h v detected pv es w :
  reaches p h v detected pv es w →
  ∃ vs, notifications (comp w) = flat_map announce vs
        ∧ value (comp w) = default v (last vs)
        ∧ changing v vs.
Proof.
  intros H. eapply history_stays; [apply boot_Good|apply history_boot|exact H].
Qed.

Lemma form_sees_every_change_witness :
  ∃ w vs, reaches defaults plain_host "[]" false NotArray [Add; Pick 1 alice; Remove 0] w
       ∧ notifications (comp w) = flat_map announce vs
       ∧ value (comp w) = default "[]" (last vs).
Proof.
  assert (∃ w, reaches defaults plain_host "[]" false NotArray
                 [Add; Pick 1 alice; Remove 0] w) as [w Hw]
    by (eexists; vm_compute; reflexivity).
  exists w.
  destruct (form_sees_every_change _ _ _ _ _ _ _ Hw) as (vs & Hn & Hv & _).
  exists vs. split; [exact Hw|]. split; [exact Hn|exact Hv].
Defined.

(** *** Display mode *)

Lemma display_handlers c :
  displayMode c = true →
  (∀ index v, onRowInput index v c = c)
  ∧ (∀ index p, onPick index p c = Some c)
  ∧ (∀ index, clearRow index c = Some c)
  ∧ addRow c = c
  ∧ (∀ index, removeRow index c = c)
  ∧ (∀ index, moveUp index c = Some c)
  ∧ (∀ index, moveDown index c = Some c)
  ∧ saveValue c = c ∧ ensureMinRows c = c.
Proof.
  intros Hd.
  unfold onRowInput, onPick, clearRow, addRow, removeRow, moveUp, moveDown,
    saveValue, ensureMinRows.
  rewrite Hd. repeat split.
Qed.

Lemma inert_stays v0 pv p0 loaded es w w' :
  Good p0 loaded true w → inert v0 pv (comp w) → steps w es = Some w' →
  inert v0 pv (comp w').
Proof.
  apply (steps_invariant p0 loaded true (inert v0 pv)).
  - unfold inert. intros c c' E. by destruct (sync_value_rows _ _ E) as (-> & -> & -> & ->).
  - done.
  - intros c index v [_ Hd _ _ _ _] H.
    by destruct (display_handlers c Hd) as (-> & _).
  - intros c index p c' [_ Hd _ _ _ _] H.
    destruct (display_handlers c Hd) as (_ & -> & _). by intros [= <-].
  - intros c index c' [_ Hd _ _ _ _] H.
    destruct (display_handlers c Hd) as (_ & _ & -> & _). by intros [= <-].
  - intros c [_ Hd _ _ _ _] H.
    by destruct (display_handlers c Hd) as (_ & _ & _ & -> & _).
  - intros c index [_ Hd _ _ _ _] H.
    by destruct (display_handlers c Hd) as (_ & _ & _ & _ & -> & _).
  - intros c index c' [_ Hd _ _ _ _] H.
    destruct (display_handlers c Hd) as (_ & _ & _ & _ & _ & -> & _). by intros [= <-].
  - intros c index c' [_ Hd _ _ _ _] H.
    destruct (display_handlers c Hd) as (_ & _ & _ & _ & _ & _ & -> & _). by intros [= <-].
  - unfold inert. intros c h (Hr & Hv & He & Ht). cbn. by rewrite Ht.
Qed.

Lemma loadStart_display_fields pv c :
  displayMode c = true →
  rows (loadStart pv c) = renumber (parsedRows pv)
  ∧ value (loadStart pv c) = value c
  ∧ emitted (loadStart pv c) = emitted c
  ∧ timers (loadStart pv c) = timers c.
Proof. intros Hd. by rewrite loadStart_display. Qed.

Lemma inert_boot p h v detected pv :
  mode p detected = true → inert v pv (comp (boot p h v detected pv)).
Proof.
  intros Hm. destruct (sync_value_rows _ _ (boot_comp p h v detected pv))
    as (Ev & Er & Ee & Et).
  unfold inert. rewrite Ev, Er, Ee, Et.
  destruct (loadStart_display_fields pv (set_displayMode (mode p detected) (initial p h v)) Hm)
    as (-> & -> & -> & ->).
  done.
Qed.

Lemma step_searches_display p0 loaded w e w' :
  Good p0 loaded true w → step w e = Some w' → searches w' = searches w.
Proof.
  intros [[_ Hd _ _ _ Ht] _].
  assert (timers (comp w) = []) as Et.
  { destruct Ht as [E|(h & i & _ & _ & _ & Hf)]; [done|congruence]. }
  destruct e as [index v|index p|index| |index|index|index|h|j reply]; unfold step.
  - case_decide; [|done]. by intros [= <-].
  - destruct (onPick _ _ _); [|done]. by intros [= <-].
  - destruct (clearRow _ _); [|done]. by intros [= <-].
  - by intros [= <-].
  - case_decide; [|done]. by intros [= <-].
  - destruct (moveUp _ _); [|done]. by intros [= <-].
  - destruct (moveDown _ _); [|done]. by intros [= <-].
  - by rewrite Et.
  - destruct (find_job _ _); [|done]. cbn [mbind option_bind].
    destruct (proceed _ _ _ _). by intros [= <-].
Qed.

Lemma steps_searches_display p0 loaded es : ∀ w w',
  Good p0 loaded true w → steps w es = Some w' → searches w' = searches w.
Proof.
  induction es as [|e es IH]; intros w w' Hg; simpl.
  - by intros [= <-].
  - destruct (step w e) as [w1|] eqn:E; simpl; [|done].
    intros H. rewrite (IH w1 w'); [by eapply step_searches_display| |done].
    by eapply step_Good.
Qed.

(** X15. An element connected in display mode stays in display mode, and no
    event changes what it holds: the rows are the loaded ones renumbered,
    the value is the bound one, nothing is emitted, no timeout is pending
    and no search is ever issued. *)
Theorem display_mode_is_inert p h v detected pv es w :
  reaches p h v detected pv es w →
  mode p detected = true →
  displayMode (comp w) = true
  ∧ rows (comp w) = renumber (parsedRows pv)
  ∧ value (comp w) = v
  ∧ emitted (comp w) = []
  ∧ timers (comp w) = []
  ∧ searches w = [].
Proof.
  intros H Hm. pose proof (boot_Good p h v detected pv) as Hg. rewrite Hm in Hg.
  split; [|split; [|split; [|split; [|split]]]].
  - apply reaches_Good in H as [[_ Hd _ _ _ _] _]. congruence.
  - eapply inert_stays; [exact Hg|by apply inert_boot|exact H].
  - eapply inert_stays; [exact Hg|by apply inert_boot|exact H].
  - eapply inert_stays; [exact Hg|by apply inert_boot|exact H].
  - eapply inert_stays; [exact Hg|by apply inert_boot|exact H].
  - rewrite (steps_searches_display _ _ _ _ _ Hg H). rewrite boot_unfold. reflexivity.
Qed.

Lemma display_mode_is_inert_witness :
  ∃ w, reaches defaults plain_host "[{}]" true (RowArray [mkRow 7 EmptyString])
         [Add; Input 0 "alice"; Pick 0 alice; Remove 0] w
       ∧ rows (comp w) = [mkRow 1 EmptyString]
       ∧ value (comp w) = "[{}]"
       ∧ emitted (comp w) = [].
Proof.
  assert (∃ w, reaches defaults plain_host "[{}]" true (RowArray [mkRow 7 EmptyString])
                 [Add; Input 0 "alice"; Pick 0 alice; Remove 0] w) as [w Hw]
    by (eexists; vm_compute; reflexivity).
  exists w.
  destruct (display_mode_is_inert _ _ _ _ _ _ _ Hw eq_refl) as (_ & Hr & Hv & He & _).
  split; [exact Hw|]. split; [exact Hr|]. split; [exact Hv|exact He].
Defined.

(** *** The mode *)

(** X16. The mode decided in [firstUpdated] holds for the life of the
    element: in every reachable state [displayMode] is [false] under
    [forceEditable] and otherwise what [isDisplayMode] detected on the page,
    and the properties are unchanged.  In the detection, an answer of the
    form API (anything but [undefined] or an exception) decides alone: the
    edit button, the URL and the [readonly] attribute are not consulted. *)
Theorem mode_fixed_for_life p h v f pv es w :
  reaches p h v (detectDisplay f) pv es w →
  displayMode (comp w) = (if forceEditable p then false else detectDisplay f)
  ∧ props (comp w) = p
  ∧ ∀ f', formMode f' = formMode f →
          formMode f ≠ ModeUndefined → formMode f ≠ ModeThrew →
          detectDisplay f' = detectDisplay f.
Proof.
  intros H. apply reaches_Good in H as [[Hp Hd _ _ _ _] _].
  split; [exact Hd|]. split; [exact Hp|].
  intros f' E H1 H2. unfold detectDisplay. rewrite E.
  by destruct (formMode f).
Qed.

Lemma mode_fixed_for_life_witness :
  ∃ w, reaches at_most_two plain_host "[]"
         (detectDisplay (mkFormPage (ModeNumber 2) false None None))
         NotArray [Add; Remove 0] w
       ∧ displayMode (comp w) = false.
Proof.
  assert (∃ w, reaches at_most_two plain_host "[]"
                 (detectDisplay (mkFormPage (ModeNumber 2) false None None))
                 NotArray [Add; Remove 0] w) as [w Hw]
    by (eexists; vm_compute; reflexivity).
  exists w. split; [exact Hw|].
  exact (proj1 (mode_fixed_for_life _ _ _ _ _ _ _ Hw)).
Defined.

(** *** Loading a value without approver keys *)

Lemma advance_hydrate_nokeys es : ∀ c,
  Forall (λ e : nat * Row, approver e.2 = EmptyString) es →
  advance (hydrate es) c = (c, Done (Fulfilled tt)).
Proof.
  induction es as [|[i row] es IH]; intros c H; [done|].
  apply Forall_cons in H as [E H]. cbn [hydrate]. unfold hydrateRow.
  simpl in E. rewrite E. cbn [Js.truthy bind]. by apply IH.
Qed.

Lemma entries_nokeys (rs : list Row) :
  Forall (λ r, approver r = EmptyString) rs →
  Forall (λ e : nat * Row, approver e.2 = EmptyString) (entries rs).
Proof.
  rewrite !Forall_lookup. intros H i [j r]. unfold entries.
  rewrite list_lookup_imap. destruct (rs !! i) as [r'|] eqn:E; [|done].
  intros [= <- <-]. by eapply H.
Qed.

Lemma renumber_nokeys (rs : list Row) :
  Forall (λ r, approver r = EmptyString) rs →
  Forall (λ r, approver r = EmptyString) (renumber rs).
Proof.
  rewrite !Forall_lookup. intros H i r. rewrite renumber_lookup.
  destruct (rs !! i) as [r'|] eqn:E; [|done]. intros [= <-]. simpl. by eapply H.
Qed.

Lemma pushEmpty_nokeys k : ∀ (rs : list Row),
  Forall (λ r, approver r = EmptyString) rs →
  Forall (λ r, approver r = EmptyString) (pushEmpty k rs).
Proof.
  induction k as [|k IH]; intros rs H; [done|]. simpl. apply IH.
  apply Forall_app. split; [done|]. by constructor.
Qed.

(** X17. Loading a value none of whose rows has an approver key (an empty,
    malformed or non-array value included) makes no external call: nothing
    is left suspended, no MSAL client is built, the maps are empty, no error
    is shown, and the rows are the loaded ones renumbered (backfilled to
    [minRows] in editable mode). *)
Theorem boot_without_keys p h v detected pv :
  Forall (λ r, approver r = EmptyString) (parsedRows pv) →
  let w := boot p h v detected pv in
  pool w = []
  ∧ rows (comp w)
    = (if mode p detected then renumber (parsedRows pv)
       else pushEmpty (minRows p - length (parsedRows pv)) (renumber (parsedRows pv)))
  ∧ terms (comp w) = ∅ ∧ selections (comp w) = ∅ ∧ suggestions (comp w) = ∅
  ∧ errorMsg (comp w) = EmptyString ∧ msal (comp w) = None.
Proof.
  intros H. cbv zeta. rewrite boot_unfold. cbv zeta.
  set (c0 := set_displayMode (mode p detected) (initial p h v)).
  assert (displayMode c0 = mode p detected ∧ props c0 = p ∧ errorMsg c0 = EmptyString
          ∧ msal c0 = None) as (Hd & Hp & He & Hm) by done.
  clearbody c0.
  assert (rows (loadStart pv c0)
          = if mode p detected then renumber (parsedRows pv)
            else pushEmpty (minRows p - length (parsedRows pv)) (renumber (parsedRows pv)))
    as Hr.
  { destruct (mode p detected).
    - by rewrite loadStart_display.
    - rewrite loadStart_editable by done.
      cbn [rows set_suggestions set_selections set_terms].
      rewrite rows_ensureMinRows. cbn [displayMode renumberOrders set_rows rows props].
      by rewrite Hd, Hp, renumber_length. }
  assert (terms (loadStart pv c0) = ∅ ∧ selections (loadStart pv c0) = ∅
          ∧ suggestions (loadStart pv c0) = ∅) as (Ht & Hs & Hg) by done.
  assert (errorMsg (loadStart pv c0) = EmptyString ∧ msal (loadStart pv c0) = None)
    as (He' & Hm').
  { unfold loadStart. cbn [errorMsg msal set_suggestions set_selections set_terms].
    destruct (displayMode _); [done|].
    unfold ensureMinRows. destruct (displayMode _); [done|].
    unfold saveValue, mirror. split_ifs; done. }
  unfold proceed. rewrite advance_hydrate_nokeys.
  - cbn [fst snd comp pool]. by rewrite Hr, Ht, Hs, Hg, He', Hm'.
  - apply entries_nokeys. rewrite Hr.
    destruct (mode p detected); [|apply pushEmpty_nokeys]; by apply renumber_nokeys.
Qed.

Lemma boot_without_keys_witness :
  pool (boot defaults plain_host "oops" false ParseError) = []
  ∧ rows (comp (boot defaults plain_host "oops" false ParseError)) = [mkRow 1 EmptyString].
Proof.
  destruct (boot_without_keys defaults plain_host "oops" false ParseError
              ltac:(constructor)) as (Hp & Hr & _).
  split; [exact Hp|]. rewrite Hr. reflexivity.
Defined.

(** ** The MSAL client *)

Lemma run_ensureMsal_unconfigured env n c :
  unconfigured c → run ensureMsal env n c = (c, Rejected "Client ID is required.", []).
Proof. intros [Hm Hc]. unfold ensureMsal. cbn [run]. by rewrite Hm, Hc. Qed.

Lemma run_getAccessToken_unconfigured sc env n c :
  unconfigured c →
  run (getAccessToken sc) env n c = (c, Rejected "Client ID is required.", []).
Proof.
  intros H. unfold getAccessToken, ensureAccount. rewrite !run_bind.
  by rewrite run_ensureMsal_unconfigured.
Qed.

Lemma run_fetchUserDetails_unconfigured email env n c :
  unconfigured c →
  run (fetchUserDetails email) env n c = (c, Rejected "Client ID is required.", []).
Proof.
  intros H. unfold fetchUserDetails. cbn [run]. rewrite run_bind.
  by rewrite run_getAccessToken_unconfigured.
Qed.

Lemma run_graphSearch_unconfigured term env n c :
  unconfigured c → displayMode c = false →
  run (graphSearch term) env n c = (c, Rejected "Client ID is required.", []).
Proof.
  intros H Hd. unfold graphSearch. cbn [run]. rewrite Hd, run_bind.
  by rewrite run_getAccessToken_unconfigured.
Qed.

(** X18. Without a client ID (and no client built yet), token acquisition,
    the by-key lookup and, in editable mode, the search are rejected with
    [Client ID is required.] before any external call and without touching
    the state; the timer callback of a row then shows that message, removes
    the row's suggestions and ends with [loading] off. *)
Theorem missing_client_id c env n :
  unconfigured c →
  (∀ sc, run (getAccessToken sc) env n c = (c, Rejected "Client ID is required.", []))
  ∧ (∀ email,
       run (fetchUserDetails email) env n c = (c, Rejected "Client ID is required.", []))
  ∧ (displayMode c = false →
     (∀ term,
        run (graphSearch term) env n c = (c, Rejected "Client ID is required.", []))
     ∧ ∀ index,
         run (searchCallback index) env n c
         = (set_loading false
              (set_suggestions (delete index (suggestions c))
                 (set_errorMsg "Client ID is required." (set_loading true c))),
            Fulfilled tt, [])).
Proof.
  intros H. split; [|split].
  - intros sc. by apply run_getAccessToken_unconfigured.
  - intros email. by apply run_fetchUserDetails_unconfigured.
  - intros Hd. split; [intros term; by apply run_graphSearch_unconfigured|].
    intros index. unfold searchCallback, settle. cbn [run].
    rewrite run_finally, run_try_catch, run_bind.
    rewrite run_graphSearch_unconfigured; [reflexivity| |exact Hd].
    destruct H as [Hm Hc]. by split.
Qed.

Lemma missing_client_id_witness :
  let c := set_displayMode false
             (initial (mkConfig 1 10 EmptyString "common" EmptyString MePeople
                         "People.Read,User.Read" 8 2 EmptyString false)
                plain_host "[]") in
  run (getAccessToken ["User.Read"]) (λ _, service) 0 c
  = (c, Rejected "Client ID is required.", [])
  ∧ errorMsg (run (searchCallback 0) (λ _, service) 0 c).1.1 = "Client ID is required.".
Proof.
  intros c.
  destruct (missing_client_id c (λ _, service) 0 ltac:(by split)) as (Ht & _ & Hs).
  split; [apply Ht|].
  destruct (Hs eq_refl) as [_ Hc]. by rewrite (Hc 0).
Defined.

(** X19. With a client ID, [ensureMsal] builds the client from the session
    cache and always completes, whatever [initialize] and
    [handleRedirectPromise] answer (their rejections are swallowed); once a
    client exists, [ensureMsal] makes no call and changes nothing. *)
Theorem ensureMsal_builds_once c env n :
  (msal c = None → Js.truthy (clientId (props c)) = true →
     run ensureMsal env n c
     = (set_msal (Some (mkMsal (storedActive (host c)) (storedAccounts (host c)))) c,
        Fulfilled tt, [MsalInitialize; MsalHandleRedirect]))
  ∧ (∀ m, msal c = Some m → run ensureMsal env n c = (c, Fulfilled tt, []))
  ∧ (Js.truthy (clientId (props c)) = true →
     let r := run ensureMsal env n c in
     run ensureMsal env (n + length r.2) r.1.1 = (r.1.1, Fulfilled tt, [])).
Proof.
  assert (msal c = None → Js.truthy (clientId (props c)) = true →
     run ensureMsal env n c
     = (set_msal (Some (mkMsal (storedActive (host c)) (storedAccounts (host c)))) c,
        Fulfilled tt, [MsalInitialize; MsalHandleRedirect])) as H1.
  { intros Hm Hc. unfold ensureMsal. cbn [run]. by rewrite Hm, Hc. }
  assert (∀ k c0 m, msal c0 = Some m → run ensureMsal env k c0 = (c0, Fulfilled tt, []))
    as H2.
  { intros k c0 m Hm. unfold ensureMsal. cbn [run]. by rewrite Hm. }
  split; [exact H1|]. split; [apply H2|].
  intros Hc. cbv zeta. destruct (msal c) as [m|] eqn:Hm.
  - rewrite (H2 n c m Hm). cbn [fst snd]. by apply (H2 _ c m).
  - rewrite (H1 eq_refl Hc). cbn [fst snd]. by eapply H2.
Qed.

Lemma ensureMsal_builds_once_witness :
  let c := initial defaults plain_host "[]" in
  (run ensureMsal (λ _ _, Rejected "offline") 0 c).1.2 = Fulfilled tt
  ∧ (run ensureMsal (λ _ _, Rejected "offline") 0 c).2 = [MsalInitialize; MsalHandleRedirect].
Proof.
  intros c.
  destruct (ensureMsal_builds_once c (λ _ _, Rejected "offline") 0) as (H & _).
  rewrite (H eq_refl eq_refl). by split.
Defined.

(** ** Tokens *)

Lemma token_silent_then_popup_eq sc env n c a :
  signed_in_as a c →
  run (getAccessToken sc) env n c
  = match env n (AcquireTokenSilent sc (Some a)) with
    | Fulfilled tok =>
        (set_account (Some a) c, Fulfilled tok, [AcquireTokenSilent sc (Some a)])
    | Rejected _ =>
        (set_account (Some a) c, env (S n) (AcquireTokenPopup sc (Some a)),
         [AcquireTokenSilent sc (Some a); AcquireTokenPopup sc (Some a)])
    end.
Proof.
  intros (m & Hm & Hk). unfold getAccessToken, ensureAccount, ensureMsal.
  cbn. rewrite Hm. cbn. rewrite Hm, Hk. cbn.
  destruct (env n _) as [tok|e]; cbn; [done|].
  by destruct (env (S n) _) as [tok|e'].
Qed.

(** X20. With an account known to MSAL, [getAccessToken] first asks for the
    token silently; it returns that token when the silent request succeeds
    and only otherwise opens the token popup, whose outcome (token or
    rejection) is then the outcome of [getAccessToken].  No sign-in popup is
    involved. *)
Theorem token_silent_then_popup sc env n c a :
  signed_in_as a c →
  run (getAccessToken sc) env n c
  = match env n (AcquireTokenSilent sc (Some a)) with
    | Fulfilled tok =>
        (set_account (Some a) c, Fulfilled tok, [AcquireTokenSilent sc (Some a)])
    | Rejected _ =>
        (set_account (Some a) c, env (S n) (AcquireTokenPopup sc (Some a)),
         [AcquireTokenSilent sc (Some a); AcquireTokenPopup sc (Some a)])
    end.
Proof.
  apply token_silent_then_popup_eq.
Qed.

Lemma token_silent_then_popup_witness :
  run (getAccessToken ["User.Read"])
    (λ _ cl, match cl with AcquireTokenSilent _ _ => Rejected "interaction_required"
                         | other => service other end) 0 signed_in
  = (signed_in, Fulfilled "token",
     [AcquireTokenSilent ["User.Read"] (Some (mkAccount "user@x.com"));
      AcquireTokenPopup ["User.Read"] (Some (mkAccount "user@x.com"))]).
Proof.
  rewrite (token_silent_then_popup ["User.Read"] _ 0 signed_in (mkAccount "user@x.com")).
  - reflexivity.
  - by eexists.
Defined.

(** ** Directory requests *)

(** X21. With an account known and a token obtained silently,
    [fetchUserDetails(email)] makes one request to [/users/{email}] (the key
    percent-encoded) with the bearer token.  A rejected request rejects the
    lookup; a response that is not [ok] rejects it with
    [Graph user lookup failed: status statusText] and its body is never
    read; an [ok] response is read once and mapped to a person. *)
Theorem fetchUserDetails_outcome email (env : environment) n c a tok :
  signed_in_as a c →
  env n (AcquireTokenSilent (scopes c) (Some a)) = Fulfilled tok →
  let silent := AcquireTokenSilent (scopes c) (Some a) in
  let req := Fetch (userUrl email) [bearer tok] in
  run (fetchUserDetails email) env n c
  = match env (S n) req with
    | Rejected e => (set_account (Some a) c, Rejected e, [silent; req])
    | Fulfilled res =>
        if ok res then
          (set_account (Some a) c,
           match env (S (S n)) (JsonUser res) with
           | Fulfilled u => Fulfilled (person_of u)
           | Rejected e => Rejected e
           end,
           [silent; req; JsonUser res])
        else
          (set_account (Some a) c,
           Rejected ("Graph user lookup failed: " +:+ Js.of_nat (status res)
                     +:+ " " +:+ statusText res),
           [silent; req])
    end.
Proof.
  intros Ha Htok. cbv zeta. unfold fetchUserDetails. cbn [run]. rewrite run_bind.
  rewrite (token_silent_then_popup_eq (scopes c) env n c a Ha), Htok.
  cbn [length Nat.add]. replace (n + 1) with (S n) by lia.
  unfold await. cbn [bind run].
  destruct (env (S n) _) as [res|e]; cbn [bind run app]; [|done].
  destruct (ok res); cbn [bind run app]; [|done].
  by destruct (env (S (S n)) _) as [u|e]; cbn [bind run app].
Qed.

Lemma fetchUserDetails_outcome_witness :
  run (fetchUserDetails "alice@x.com") (λ _, outage) 0 signed_in
  = (signed_in, Rejected "Graph user lookup failed: 503 Service Unavailable",
     [AcquireTokenSilent ["People.Read"; "User.Read"] (Some (mkAccount "user@x.com"));
      Fetch (userUrl "alice@x.com") [bearer "token"]]).
Proof.
  rewrite (fetchUserDetails_outcome "alice@x.com" (λ _, outage) 0 signed_in
             (mkAccount "user@x.com") "token").
  - reflexivity.
  - by eexists.
  - reflexivity.
Defined.

(** X22. In editable mode, with an account known and a token obtained
    silently, [graphSearch(term)] makes one request to the configured
    endpoint, asking for between 1 and 25 results, with the bearer token and
    [ConsistencyLevel: eventual].  A response that is not [ok] rejects the
    search with the endpoint's message and its body is never read; an [ok]
    response is read once, and a body without [value] gives the empty
    list. *)
Theorem graphSearch_outcome term (env : environment) n c a tok :
  displayMode c = false →
  signed_in_as a c →
  env n (AcquireTokenSilent (scopes c) (Some a)) = Fulfilled tok →
  let silent := AcquireTokenSilent (scopes c) (Some a) in
  let req := Fetch (searchUrl c term) [bearer tok; ("ConsistencyLevel", "eventual")] in
  1 ≤ top c ∧ top c ≤ 25
  ∧ run (graphSearch term) env n c
    = match env (S n) req with
      | Rejected e => (set_account (Some a) c, Rejected e, [silent; req])
      | Fulfilled res =>
          if ok res then
            (set_account (Some a) c,
             match env (S (S n)) (JsonList res) with
             | Fulfilled data => Fulfilled (map person_of (default [] data))
             | Rejected e => Rejected e
             end,
             [silent; req; JsonList res])
          else
            (set_account (Some a) c, Rejected (searchFailure c res), [silent; req])
      end.
Proof.
  intros Hd Ha Htok. cbv zeta.
  split; [unfold top; lia|]. split; [unfold top; lia|].
  unfold graphSearch. cbn [run]. rewrite Hd, run_bind.
  rewrite (token_silent_then_popup_eq (scopes c) env n c a Ha), Htok.
  cbn [length Nat.add]. replace (n + 1) with (S n) by lia.
  unfold await. cbn [bind run].
  change (searchUrl (set_account (Some a) c) term) with (searchUrl c term).
  change (searchFailure (set_account (Some a) c)) with (searchFailure c).
  destruct (env (S n) _) as [res|e]; cbn [bind run app]; [|done].
  destruct (ok res); cbn [bind run app]; [|done].
  by destruct (env (S (S n)) _) as [u|e]; cbn [bind run app].
Qed.

Lemma graphSearch_outcome_witness :
  run (graphSearch "al") (λ _, service) 0 signed_in
  = (signed_in, Fulfilled [person_of albert_u; person_of alice_u],
     [AcquireTokenSilent ["People.Read"; "User.Read"] (Some (mkAccount "user@x.com"));
      Fetch (peopleUrl "al" 8) [bearer "token"; ("ConsistencyLevel", "eventual")];
      JsonList (mkResponse true 200 "OK" (peopleUrl "al" 8))]).
Proof.
  destruct (graphSearch_outcome "al" (λ _, service) 0 signed_in
              (mkAccount "user@x.com") "token") as (_ & _ & H).
  - reflexivity.
  - by eexists.
  - reflexivity.
  - rewrite H. reflexivity.
Defined.

(** ** Resolving the loaded rows *)

Lemma elem_of_entries (rs : list Row) k row :
  (k, row) ∈ entries rs ↔ rs !! k = Some row.
Proof.
  unfold entries. rewrite list_elem_of_lookup. split.
  - intros [i Hi]. rewrite list_lookup_imap in Hi.
    destruct (rs !! i) eqn:E; [|done]. by injection Hi as <- <-.
  - intros H. exists k. by rewrite list_lookup_imap, H.
Qed.

Lemma entries_keys (rs : list Row) : (entries rs).*1 = seq 0 (length rs).
Proof.
  apply list_eq. intros i. unfold entries.
  rewrite list_lookup_fmap, list_lookup_imap.
  destruct (rs !! i) as [r|] eqn:E; simpl.
  - symmetry. apply lookup_seq. split; [done|]. by eapply lookup_lt_Some.
  - symmetry. apply lookup_seq_ge. by apply lookup_ge_None.
Qed.

Lemma run_hydrateRow_state i row env n c :
  let r := run (hydrateRow i row) env n c in
  r.1.2 = Fulfilled tt
  ∧ if Js.truthy (approver row)
    then ∃ person,
           selections r.1.1 = <[i := Some person]> (selections c)
           ∧ terms r.1.1 = <[i := Js.or_else (p_displayName person) (approver row)]> (terms c)
    else r.1.1 = c.
Proof.
  cbv zeta. unfold hydrateRow. destruct (Js.truthy (approver row)) eqn:Hk; [|done].
  rewrite run_try_catch, run_bind.
  pose proof (run_framed page_part (fetchUserDetails (approver row)) env
                (framed_fetchUserDetails _) n c) as Hf.
  destruct (run (fetchUserDetails (approver row)) env n c) as [[c1 [user|e]] tr1].
  - cbn [fst snd run] in *. apply page_part_fields in Hf as (Ht & Hs & _).
    split; [done|]. exists user. unfold hydrated. cbn. by rewrite Ht, Hs.
  - cbn [fst snd run] in *. apply page_part_fields in Hf as (Ht & Hs & _).
    split; [done|]. exists (raw (approver row)). unfold unresolved, raw. cbn.
    rewrite Ht, Hs. split; [done|]. unfold Js.or_else. by destruct (Js.truthy _).
Qed.

Section Hydrate.
Variables (env : environment) (Keep : Comp → Prop) (Q : Row → Person → Prop).
Hypothesis row_ok : ∀ i row n c,
  Keep c → Js.truthy (approver row) = true →
  Keep (run (hydrateRow i row) env n c).1.1
  ∧ ∃ person, Q row person
      ∧ selections (run (hydrateRow i row) env n c).1.1 = <[i := Some person]> (selections c)
      ∧ terms (run (hydrateRow i row) env n c).1.1
        = <[i := Js.or_else (p_displayName person) (approver row)]> (terms c).

Lemma run_hydrate_state es : ∀ n c,
  NoDup es.*1 → Keep c →
  let r := run (hydrate es) env n c in
  r.1.2 = Fulfilled tt
  ∧ (∀ k row, (k, row) ∈ es → Js.truthy (approver row) = true →
       ∃ person, Q row person
                 ∧ selections r.1.1 !! k = Some (Some person)
                 ∧ terms r.1.1 !! k = Some (Js.or_else (p_displayName person) (approver row)))
  ∧ (∀ k, (∀ row, (k, row) ∈ es → Js.truthy (approver row) = false) →
       selections r.1.1 !! k = selections c !! k ∧ terms r.1.1 !! k = terms c !! k).
Proof.
  induction es as [|[i row] es IH]; intros n c Hnd HI; cbv zeta.
  { split; [done|]. split; [|done]. intros k row H. by apply elem_of_nil in H. }
  apply NoDup_cons in Hnd as [Hi Hnd]. cbn [hydrate]. rewrite run_bind.
  pose proof (run_hydrateRow_state i row env n c) as [Ho Hrow].
  pose proof (row_ok i row n c HI) as Hok.
  destruct (run (hydrateRow i row) env n c) as [[c1 o1] tr1].
  cbn [fst snd] in Ho, Hrow, Hok. subst o1.
  assert (Keep c1) as HI1.
  { destruct (Js.truthy (approver row)); [by apply Hok|by subst c1]. }
  specialize (IH (n + length tr1) c1 Hnd HI1) as (Ho & Ha & Hb).
  destruct (run (hydrate es) env (n + length tr1) c1) as [[c2 o2] tr2].
  cbn [fst snd] in *. split; [done|]. split.
  - intros k row' Hin Hk. apply elem_of_cons in Hin as [[= -> ->]|Hin].
    + destruct (Hok Hk) as (_ & person & HQ & Hs & Ht).
      exists person. split; [done|]. destruct (Hb i) as [-> ->].
      * intros row' Hin. exfalso. apply Hi. apply list_elem_of_fmap. by exists (i, row').
      * by rewrite Hs, Ht, !lookup_insert_eq.
    + by apply Ha.
  - intros k Hk. destruct (Hb k) as [-> ->].
    { intros row' Hin. apply Hk. by apply elem_of_cons; right. }
    destruct (Js.truthy (approver row)) eqn:Hrk.
    + destruct Hrow as (person & -> & ->).
      assert (k ≠ i) as Hne.
      { intros ->. specialize (Hk row ltac:(by apply elem_of_cons; left)). congruence. }
      by rewrite !lookup_insert_ne.
    + by subst c1.
Qed.
End Hydrate.

Lemma framed_hydrate_suggestions es : framed suggestions (hydrate es).
Proof.
  induction es as [|[i row] es IH]; simpl; [constructor|].
  apply framed_bind; [|by intros _].
  unfold hydrateRow. destruct (Js.truthy _); [|constructor].
  apply framed_try_catch.
  - apply framed_bind.
    + eapply framed_weaken; [|apply framed_fetchUserDetails].
      intros c c' E. by apply page_part_fields in E as (_ & _ & ? & _).
    + intros user. constructor; [intros ?; reflexivity|constructor].
  - intros _. constructor; [intros ?; reflexivity|constructor].
Qed.

Lemma run_loadValue pv env n c :
  run (loadValue pv) env n c
  = run (hydrate (entries (rows (loadStart pv c)))) env n (loadStart pv c).
Proof. unfold loadValue. rewrite run_upd, run_get. reflexivity. Qed.

Lemma loadStart_maps pv c :
  terms (loadStart pv c) = ∅ ∧ selections (loadStart pv c) = ∅
  ∧ suggestions (loadStart pv c) = ∅.
Proof. done. Qed.

Lemma or_else_truthy a b : Js.truthy b = true → Js.truthy (Js.or_else a b) = true.
Proof. unfold Js.or_else. by destruct (Js.truthy a) eqn:E. Qed.

Lemma run_hydrate_rows env n c1 :
  terms c1 = ∅ → selections c1 = ∅ →
  let r := run (hydrate (entries (rows c1))) env n c1 in
  r.1.2 = Fulfilled tt
  ∧ rows r.1.1 = rows c1
  ∧ suggestions r.1.1 = suggestions c1
  ∧ ∀ i row, rows r.1.1 !! i = Some row →
      if Js.truthy (approver row)
      then ∃ person,
             selections r.1.1 !! i = Some (Some person)
             ∧ terms r.1.1 !! i = Some (Js.or_else (p_displayName person) (approver row))
             ∧ displayName r.1.1 i row = Js.or_else (p_displayName person) (approver row)
             ∧ Js.truthy (displayName r.1.1 i row) = true
      else selections r.1.1 !! i = None ∧ terms r.1.1 !! i = None
           ∧ displayName r.1.1 i row = "No approver selected".
Proof.
  intros Ht Hs. cbv zeta.
  pose proof (run_framed sync_part _ env (framed_hydrate (entries (rows c1))) n c1) as Hf.
  pose proof (run_framed suggestions _ env
                (framed_hydrate_suggestions (entries (rows c1))) n c1) as Hsug.
  destruct (run_hydrate_state env (λ _, True) (λ _ _, True)) with (es := entries (rows c1))
    (n := n) (c := c1) as (Ho & Ha & Hb).
  { intros i row k c Hc Hk. split; [done|].
    pose proof (run_hydrateRow_state i row env k c) as [_ H]. rewrite Hk in H.
    destruct H as (person & H). by exists person. }
  { rewrite entries_keys. apply NoDup_seq. }
  { done. }
  destruct (run (hydrate (entries (rows c1))) env n c1) as [[c2 o2] tr2].
  cbn [fst snd] in *.
  destruct (sync_value_rows _ _ Hf) as (_ & Er & _).
  split; [done|]. split; [done|]. split; [done|].
  intros i row Hi. rewrite Er in Hi. unfold displayName.
  destruct (Js.truthy (approver row)) eqn:Hk.
  - destruct (Ha i row) as (person & _ & Hsel & Hterm); [by apply elem_of_entries|done|].
    exists person. rewrite Hsel. split; [done|]. split; [done|].
    assert (Js.or_else (p_displayName person)
              (Js.or_else (approver row) "No approver selected")
            = Js.or_else (p_displayName person) (approver row)) as ->.
    { unfold Js.or_else. by rewrite Hk. }
    split; [done|]. by apply or_else_truthy.
  - destruct (Hb i) as [-> ->].
    { intros row' Hin. apply elem_of_entries in Hin. congruence. }
    rewrite Hs, Ht, !lookup_empty. split; [done|]. split; [done|].
    unfold Js.or_else. by rewrite Hk.
Qed.

(** X23. [loadValue] never fails, whatever the page and the directory
    answer.  Afterwards the suggestions are empty, and every row with an
    approver key has a selection and a non-empty name, shown in display
    mode: the display name of the person found, or the key itself when the
    name is empty or the lookup failed.  A row without a key has no
    selection and no term, and shows [No approver selected]. *)
Theorem loadValue_always_completes env n pv c :
  let r := run (loadValue pv) env n c in
  r.1.2 = Fulfilled tt
  ∧ rows r.1.1 = rows (loadStart pv c)
  ∧ suggestions r.1.1 = ∅
  ∧ ∀ i row, rows r.1.1 !! i = Some row →
      if Js.truthy (approver row)
      then ∃ person,
             selections r.1.1 !! i = Some (Some person)
             ∧ terms r.1.1 !! i = Some (Js.or_else (p_displayName person) (approver row))
             ∧ displayName r.1.1 i row = Js.or_else (p_displayName person) (approver row)
             ∧ Js.truthy (displayName r.1.1 i row) = true
      else selections r.1.1 !! i = None ∧ terms r.1.1 !! i = None
           ∧ displayName r.1.1 i row = "No approver selected".
Proof.
  cbv zeta. rewrite run_loadValue.
  destruct (loadStart_maps pv c) as (Ht & Hs & Hg).
  destruct (run_hydrate_rows env n (loadStart pv c) Ht Hs) as (H1 & H2 & H3 & H4).
  split; [exact H1|]. split; [exact H2|]. split; [by rewrite H3|exact H4].
Qed.

Lemma loadValue_always_completes_witness :
  let pv := RowArray [mkRow 1 "alice@x.com"; mkRow 2 EmptyString] in
  let r := run (loadValue pv) (λ _, outage) 0 signed_in in
  r.1.2 = Fulfilled tt
  ∧ displayName r.1.1 0 (mkRow 1 "alice@x.com") = "alice@x.com"
  ∧ displayName r.1.1 1 (mkRow 2 EmptyString) = "No approver selected".
Proof.
  intros pv.
  destruct (loadValue_always_completes (λ _, outage) 0 pv signed_in) as (Ho & Hr & _ & H).
  split; [exact Ho|]. split.
  - destruct (H 0 (mkRow 1 "alice@x.com")) as (person & Hs & _ & Hd & _).
    + by rewrite Hr.
    + rewrite Hd. revert Hs. vm_compute. by intros [= <-].
  - destruct (H 1 (mkRow 2 EmptyString)) as (_ & _ & Hd).
    + by rewrite Hr.
    + exact Hd.
Defined.

(** *** Without a client *)

Lemma run_hydrateRow_unconfigured i row env n c :
  unconfigured c →
  run (hydrateRow i row) env n c
  = (if Js.truthy (approver row) then unresolved i (approver row) c else c,
     Fulfilled tt, []).
Proof.
  intros H. unfold hydrateRow. destruct (Js.truthy (approver row)); [|done].
  rewrite run_try_catch, run_bind. by rewrite run_fetchUserDetails_unconfigured.
Qed.

Lemma run_hydrate_unconfigured env es : ∀ n c,
  unconfigured c →
  let r := run (hydrate es) env n c in
  r.2 = []
  ∧ errorMsg r.1.1
    = if existsb (λ e : nat * Row, Js.truthy (approver e.2)) es
      then "Unable to load details for some approvers." else errorMsg c.
Proof.
  induction es as [|[i row] es IH]; intros n c Hc; cbv zeta; [done|].
  cbn [hydrate]. rewrite run_bind, run_hydrateRow_unconfigured by done.
  cbn [length]. set (c1 := if Js.truthy (approver row) then _ else c).
  assert (unconfigured c1) as Hc1 by (subst c1; by destruct (Js.truthy _)).
  destruct (IH (n + 0) c1 Hc1) as [Htr Herr].
  destruct (run (hydrate es) env (n + 0) c1) as [[c2 o2] tr2].
  cbn [fst snd] in *. split; [done|]. rewrite Herr. cbn [existsb snd].
  subst c1. destruct (Js.truthy (approver row)); cbn [orb]; [|done].
  by destruct (existsb _ es).
Qed.

Lemma unconfigured_loadStart pv c :
  unconfigured c → unconfigured (loadStart pv c) ∧ errorMsg (loadStart pv c) = errorMsg c.
Proof.
  intros [Hm Hc]. unfold unconfigured, loadStart.
  cbn [msal props errorMsg set_suggestions set_selections set_terms].
  destruct (displayMode _); [done|].
  unfold ensureMinRows. destruct (displayMode _); [done|].
  unfold saveValue, mirror. by split_ifs.
Qed.

Lemma existsb_entries (rs : list Row) :
  existsb (λ e : nat * Row, Js.truthy (approver e.2)) (entries rs)
  = existsb (λ r, Js.truthy (approver r)) rs.
Proof.
  unfold entries.
  assert (∀ (f : nat → Row → nat * Row), (∀ i r, (f i r).2 = r) →
            existsb (λ e : nat * Row, Js.truthy (approver e.2)) (imap f rs)
            = existsb (λ r, Js.truthy (approver r)) rs) as H.
  { induction rs as [|r rs IH]; intros f Hf; [done|].
    simpl. rewrite Hf, IH; [done|]. intros i r'. apply Hf. }
  by apply H.
Qed.

(** X24. Without a client ID, [loadValue] resolves nothing and calls
    nothing: every row with a key gets the key itself as id, name, email and
    login of its selection and as its term, and
    [Unable to load details for some approvers.] is shown exactly when some
    row has a key. *)
Theorem loadValue_without_client env n pv c :
  unconfigured c →
  let r := run (loadValue pv) env n c in
  r.2 = [] ∧ r.1.2 = Fulfilled tt
  ∧ (∀ i row, rows r.1.1 !! i = Some row → Js.truthy (approver row) = true →
       selections r.1.1 !! i = Some (Some (raw (approver row)))
       ∧ terms r.1.1 !! i = Some (approver row)
       ∧ displayName r.1.1 i row = approver row)
  ∧ errorMsg r.1.1
    = if existsb (λ r, Js.truthy (approver r)) (rows r.1.1)
      then "Unable to load details for some approvers." else errorMsg c.
Proof.
  intros Hc. cbv zeta. rewrite run_loadValue.
  destruct (unconfigured_loadStart pv c Hc) as [Hc1 He1].
  destruct (loadStart_maps pv c) as (Ht & Hs & _).
  generalize dependent (loadStart pv c). intros c1 Hc1 He1 Ht Hs.
  pose proof (run_framed sync_part _ env (framed_hydrate (entries (rows c1))) n c1) as Hf.
  destruct (run_hydrate_unconfigured env (entries (rows c1)) n c1 Hc1) as [Htr Herr].
  destruct (run_hydrate_state env unconfigured (λ row person, person = raw (approver row)))
    with (es := entries (rows c1)) (n := n) (c := c1) as (Ho & Ha & _).
  { intros i row k c0 Hc0 Hk. rewrite run_hydrateRow_unconfigured, Hk by done.
    cbn [fst]. split; [done|]. exists (raw (approver row)).
    split; [done|]. split; [done|]. unfold unresolved, raw. cbn.
    unfold Js.or_else. by destruct (Js.truthy _). }
  { rewrite entries_keys. apply NoDup_seq. }
  { done. }
  destruct (run (hydrate (entries (rows c1))) env n c1) as [[c2 o2] tr2].
  cbn [fst snd] in *.
  destruct (sync_value_rows _ _ Hf) as (_ & Er & _).
  split; [done|]. split; [done|]. split.
  - intros i row Hi Hk. rewrite Er in Hi.
    destruct (Ha i row) as (person & -> & Hsel & Hterm); [by apply elem_of_entries|done|].
    assert (Js.or_else (approver row) (approver row) = approver row) as E
      by (unfold Js.or_else; by destruct (Js.truthy _)).
    unfold displayName. rewrite Hsel, Hterm. cbn [raw p_displayName] in *.
    rewrite E. split; [done|]. split; [done|].
    unfold Js.or_else. by rewrite Hk.
  - by rewrite Herr, existsb_entries, Er, He1.
Qed.

Lemma loadValue_without_client_witness :
  let c := initial (mkConfig 1 10 EmptyString "common" EmptyString MePeople
                      "People.Read,User.Read" 8 2 EmptyString false) plain_host "[]" in
  let r := run (loadValue (RowArray [mkRow 1 "alice@x.com"])) (λ _, service) 0 c in
  r.2 = []
  ∧ selections r.1.1 !! 0 = Some (Some (raw "alice@x.com"))
  ∧ errorMsg r.1.1 = "Unable to load details for some approvers.".
Proof.
  intros c.
  destruct (loadValue_without_client (λ _, service) 0 (RowArray [mkRow 1 "alice@x.com"]) c
              ltac:(by split)) as (Htr & _ & Hsel & Herr).
  split; [exact Htr|]. split.
  - destruct (Hsel 0 (mkRow 1 "alice@x.com") eq_refl eq_refl) as (H & _). exact H.
  - rewrite Herr. reflexivity.
Defined.

(** ** Rendering *)

Lemma onRowInput_editable index v c :
  displayMode c = false →
  terms (onRowInput index v c) = <[index := v]> (terms c)
  ∧ suggestions (onRowInput index v c)
    = (if String.length v <? threshold c then delete index (suggestions c)
       else suggestions c)
  ∧ activeRowIndex (onRowInput index v c) = Some index
  ∧ loading (onRowInput index v c) = loading c
  ∧ threshold (onRowInput index v c) = threshold c.
Proof.
  intros Hd. unfold onRowInput. rewrite Hd.
  set (c1 := set_errorMsg _ _).
  assert (threshold (clearDebounce c1) = threshold c) as Eth.
  { unfold threshold. by pose proof (clearDebounce_rest c1) as [= -> _ _ _ _ _ _ _]. }
  assert (terms (clearDebounce c1) = <[index := v]> (terms c)
          ∧ suggestions (clearDebounce c1) = suggestions c
          ∧ activeRowIndex (clearDebounce c1) = Some index
          ∧ loading (clearDebounce c1) = loading c) as (Et & Es & Ea & El).
  { unfold clearDebounce. by destruct (debounceTimer c1). }
  rewrite Eth. unfold threshold in *.
  destruct (String.length v <? _); cbn; by rewrite ?Et, ?Es, ?Ea, ?El, ?Eth.
Qed.

(** X25. The helper line [render] shows right after an input event on an
    editable element that is not searching: nothing for an empty text, the
    [Type at least n characters] hint below the threshold, and at or above
    the threshold [No matches] unless the row still holds suggestions from
    an earlier search (the search itself has not started yet). *)
Theorem helper_after_typing index v c :
  displayMode c = false → loading c = false →
  helper (onRowInput index v c)
  = if negb (Js.truthy v) then NoHelper
    else if String.length v <? threshold c then TypeAtLeast (threshold c)
    else match default [] (suggestions c !! index) with
         | [] => NoMatches
         | _ => NoHelper
         end.
Proof.
  intros Hd Hl. destruct (onRowInput_editable index v c Hd) as (Et & Es & Ea & El & Eth).
  unfold helper. rewrite El, Hl, Ea, Et, Es, Eth, lookup_insert_eq. cbn [default].
  change (id v) with v. destruct (Js.truthy v); cbn [negb]; [|done].
  by destruct (String.length v <? threshold c).
Qed.

Lemma helper_after_typing_witness :
  helper (onRowInput 1 "alice" two_rows) = NoMatches
  ∧ helper (onRowInput 1 "a" two_rows) = TypeAtLeast 2.
Proof.
  split.
  - rewrite (helper_after_typing 1 "alice" two_rows eq_refl eq_refl). reflexivity.
  - rewrite (helper_after_typing 1 "a" two_rows eq_refl eq_refl). reflexivity.
Defined.

(** X26. In every reachable state of an element in display mode, or with
    [minRows] at least 1, [render] changes nothing: its call of
    [ensureMinRows] is never taken. *)
Theorem render_leaves_state p h v detected pv es w :
  reaches p h v detected pv es w →
  0 < minRows p ∨ mode p detected = true →
  renderUpdate (comp w) = comp w.
Proof.
  intros H Hc. apply reaches_Good in H as [[_ Hd _ Hmin _ _] _].
  unfold renderUpdate. rewrite Hd.
  destruct (mode p detected) eqn:Hm; [done|].
  destruct Hc as [Hpos|?]; [|done]. specialize (Hmin eq_refl).
  by destruct (Nat.eqb_spec (length (rows (comp w))) 0); [lia|].
Qed.

Lemma render_leaves_state_witness :
  ∃ w, reaches defaults plain_host "[]" false NotArray [Add; Remove 0; Remove 0] w
       ∧ renderUpdate (comp w) = comp w.
Proof.
  assert (∃ w, reaches defaults plain_host "[]" false NotArray [Add; Remove 0; Remove 0] w)
    as [w Hw] by (eexists; vm_compute; reflexivity).
  exists w. split; [exact Hw|].
  apply (render_leaves_state _ _ _ _ _ _ _ Hw). left. simpl. lia.
Defined.

(** X27. When an editable element has no row, [render] itself backfills
    and saves.  With [minRows = 0] nothing is added and the value does not
    change, but the mirror block of [saveValue] still runs: a configured and
    present textbox is written on every render. *)
Theorem render_of_empty_collection c :
  displayMode c = false → rows c = [] →
  rows (renderUpdate c) = pushEmpty (minRows (props c)) []
  ∧ value (renderUpdate c) = stringify (rows (renderUpdate c))
  ∧ (minRows (props c) = 0 → value c = "[]" →
     emitted (renderUpdate c) = emitted (mirror "[]" c)
     ∧ sink_writes (renderUpdate c)
       = sink_writes c
         ++ if Js.truthy (jsonTargetId (props c)) && sinkPresent (host c)
            then [SinkWrite (jsonTargetId (props c)) "[]"] else []).
Proof.
  intros Hd Hr. unfold renderUpdate. rewrite Hd, Hr. cbn [length Nat.eqb].
  rewrite value_ensureMinRows, rows_ensureMinRows, Hd, Hr by done.
  cbn [length]. rewrite Nat.sub_0_r.
  split; [done|]. split; [done|].
  intros Hmin Hv. unfold ensureMinRows. rewrite Hd, Hr, Hmin. cbn [length Nat.sub pushEmpty].
  assert (saveValue (set_rows [] c) = mirror "[]" (set_rows [] c)) as ->.
  { rewrite saveValue_unchanged; [done|done|]. cbn [value rows set_rows]. by rewrite Hv. }
  split.
  - unfold mirror. cbn [props host set_rows]. by split_ifs.
  - by rewrite sink_writes_mirror.
Qed.

Lemma render_of_empty_collection_witness :
  let c := set_value "[]" (set_rows []
             (set_displayMode false
                (initial (mkConfig 0 10 EmptyString "common" EmptyString MePeople
                            "People.Read,User.Read" 8 2 "approversJson" false)
                   (mkHost true false None []) "[]"))) in
  sink_writes (renderUpdate c) = [SinkWrite "approversJson" "[]"]
  ∧ sink_writes (renderUpdate (renderUpdate c))
    = [SinkWrite "approversJson" "[]"; SinkWrite "approversJson" "[]"].
Proof.
  intros c.
  destruct (render_of_empty_collection c eq_refl eq_refl) as (_ & _ & H).
  destruct (H eq_refl eq_refl) as [_ H1].
  split; [rewrite H1; reflexivity|].
  destruct (render_of_empty_collection (renderUpdate c) eq_refl eq_refl) as (_ & _ & H').
  destruct (H' eq_refl eq_refl) as [_ H2]. rewrite H2. reflexivity.
Defined.

(** ** The approver a pick stores *)

(** X28. Picking a directory entry stores, as the approver of the row, the
    entry's user principal name; its mail when the user principal name is
    missing or empty; and its id when both are. *)
Theorem picked_approver index u c r :
  displayMode c = false → rows c !! index = Some r →
  ∃ c', onPick index (person_of u) c = Some c'
    ∧ rows c' !! index = Some (mkRow (order r) (p_login (person_of u)))
    ∧ (∀ s, u_userPrincipalName u = Some s → Js.truthy s = true →
         p_login (person_of u) = s)
    ∧ (blank (u_userPrincipalName u) →
       ∀ s, u_mail u = Some s → Js.truthy s = true → p_login (person_of u) = s)
    ∧ (blank (u_userPrincipalName u) → blank (u_mail u) →
       p_login (person_of u) = u_id u).
Proof.
  intros Hd Hr. unfold onPick, set_approver. rewrite Hd.
  cbn [rows set_terms set_selections]. rewrite Hr. cbn [mbind option_bind].
  eexists. split; [reflexivity|].
  cbn [rows set_activeRowIndex set_suggestions]. rewrite rows_saveValue. cbn [rows set_rows].
  split; [apply list_lookup_insert_eq; by eapply lookup_lt_Some|].
  unfold person_of, blank, Js.opt_or_else, Js.opt_or, Js.or_else. cbn [p_login].
  destruct (u_userPrincipalName u) as [s1|], (u_mail u) as [s2|];
    try destruct (Js.truthy s1) eqn:E1; try destruct (Js.truthy s2) eqn:E2;
    rewrite ?E1, ?E2;
    (split; [intros s [= <-] Hs; congruence || done|]);
    (split; [intros Hb s [= <-] Hs; rewrite ?Hs in *; congruence || done|]);
    intros Hb1 Hb2; rewrite ?E1, ?E2 in *; congruence || done.
Qed.

Lemma picked_approver_witness :
  ∃ c', onPick 1 (person_of (mkGraphUser "guid-1" "Al" None (Some EmptyString))) two_rows
        = Some c'
    ∧ rows c' !! 1 = Some (mkRow 2 "guid-1").
Proof.
  destruct (picked_approver 1 (mkGraphUser "guid-1" "Al" None (Some EmptyString)) two_rows
              (mkRow 2 EmptyString) eq_refl eq_refl) as (c' & E & Hr & _).
  exists c'. split; [exact E|exact Hr].
Defined.

(** ** The redirect URI *)

Lemma strip_slash_app s : strip_slash (s +:+ "/") = s.
Proof.
  induction s as [|a s IH]; [done|].
  change (String a s +:+ "/") with (String a (s +:+ "/")).
  destruct (s +:+ "/") as [|b t] eqn:E; [destruct s; discriminate|].
  change (String a (strip_slash (String b t)) = String a s).
  f_equal. exact IH.
Qed.

Lemma strip_slash_fixed s : (∀ t, s ≠ t +:+ "/") → strip_slash s = s.
Proof.
  induction s as [|a s IH]; intros H; [done|].
  destruct s as [|b s].
  - cbn. destruct (Ascii.eqb_spec a "/"); [|done].
    subst. by specialize (H EmptyString).
  - change (strip_slash (String a (String b s)))
      with (String a (strip_slash (String b s))).
    rewrite IH; [done|]. intros t E. apply (H (String a t)). cbn. by rewrite E.
Qed.

(** X29. [getRedirectUri] gives the page's origin when [redirectOrigin] is
    blank, and otherwise the trimmed [redirectOrigin] without one trailing
    slash (unchanged when it has none). *)
Theorem getRedirectUri_normalises origin c :
  (Js.trim (redirectOrigin (props c)) = EmptyString → getRedirectUri origin c = origin)
  ∧ (∀ s, s ≠ EmptyString → Js.trim (redirectOrigin (props c)) = s +:+ "/" →
       getRedirectUri origin c = s)
  ∧ (Js.trim (redirectOrigin (props c)) ≠ EmptyString →
     (∀ t, Js.trim (redirectOrigin (props c)) ≠ t +:+ "/") →
     getRedirectUri origin c = Js.trim (redirectOrigin (props c))).
Proof.
  unfold getRedirectUri. split; [|split].
  - by intros ->.
  - intros s Hs ->. rewrite strip_slash_app.
    by destruct s.
  - intros Hne Hno. rewrite strip_slash_fixed by done.
    by destruct (Js.trim _).
Qed.

Lemma getRedirectUri_normalises_witness :
  getRedirectUri "https://page.example.com"
    (initial (mkConfig 1 10 "app-id" "common" " https://forms.example.com/ " MePeople
                "People.Read,User.Read" 8 2 EmptyString false) plain_host "[]")
  = "https://forms.example.com".
Proof.
  apply (proj1 (proj2 (getRedirectUri_normalises "https://page.example.com"
           (initial (mkConfig 1 10 "app-id" "common" " https://forms.example.com/ " MePeople
                       "People.Read,User.Read" 8 2 EmptyString false) plain_host "[]")))).
  - done.
  - reflexivity.
Defined.
